(** * The retrieval-augmented generation pipeline: chunking, embedding,
      rank fusion, streaming and ingestion, embedded from the Python sources.

    Python values are modelled as follows.
    - [str] is a list of Unicode code points ([N]); [len] counts code points,
      as Python's [len] does.
    - [int] is [Z]; [float] is the kernel's binary64 [PrimFloat.float].
    - a [dict] is an association list in insertion order (Python dicts iterate
      in insertion order, and the fusion code depends on it).
    - a raised exception is a value of [exn]; a pure function that can raise
      returns [exn + A], a call that reads or changes the state of an outside
      service is a state-and-exception computation [M S A].  Only subclasses
      of [Exception] are modelled: they are what the [except Exception]
      handlers of the sources catch.
    - a [while] loop whose termination is in question takes a fuel argument
      and answers [OutOfFuel] (of [result]) when the loop is still running
      after that many evaluations of its condition.
    - an [async] function is run to completion by its caller ([await]), and a
      generator is drained by its consumer. *)

From Stdlib Require Import Ascii String.
From Stdlib Require Import List ZArith NArith Bool Lia Sorted Permutation.
From Stdlib Require Import Floats Uint63 DecimalString.
Import ListNotations.

Set Implicit Arguments.

(* ================================================================== *)
(** * Part I: definitions *)
(* ================================================================== *)

(** ** Python strings *)

Module Py.

Definition char := N.
Definition str := list char.

Definition len {A : Type} (l : list A) : Z := Z.of_nat (List.length l).

(** A string literal of the development, as code points. *)
Definition lit (s : string) : str := List.map N_of_ascii (list_ascii_of_string s).

Definition NL : char := 10%N.
Definition SP : char := 32%N.

(** [str.isspace] on one code point; the class [\s] of [re] on [str]
    patterns is the same set. *)
Definition isspace (c : char) : bool :=
  ((9 <=? c) && (c <=? 13))%N || ((28 <=? c) && (c <=? 32))%N
  || (c =? 133)%N || (c =? 160)%N || (c =? 5760)%N
  || ((8192 <=? c) && (c <=? 8202))%N
  || (c =? 8232)%N || (c =? 8233)%N || (c =? 8239)%N || (c =? 8287)%N
  || (c =? 12288)%N.

Fixpoint lstrip (s : str) : str :=
  match s with
  | [] => []
  | c :: s' => if isspace c then lstrip s' else s
  end.

Definition rstrip (s : str) : str := rev (lstrip (rev s)).

(** [s.strip()] *)
Definition strip (s : str) : str := rstrip (lstrip s).

(** [re.sub(r"\s+", " ", s)]: every maximal run of whitespace becomes one
    space.  [in_run] tells that the previous character was whitespace. *)
Fixpoint re_sub_ws (in_run : bool) (s : str) : str :=
  match s with
  | [] => []
  | c :: s' =>
      if isspace c
      then if in_run then re_sub_ws true s' else SP :: re_sub_ws true s'
      else c :: re_sub_ws false s'
  end.

(** Truth value of a string or list: non-empty. *)
Definition truthy {A : Type} (l : list A) : bool :=
  match l with [] => false | _ :: _ => true end.

(** [a == b] *)
Fixpoint str_eqb (a b : str) : bool :=
  match a, b with
  | [], [] => true
  | x :: a', y :: b' => (x =? y)%N && str_eqb a' b'
  | _, _ => false
  end.

(** [s.startswith(p)] *)
Fixpoint startswith (p s : str) : bool :=
  match p, s with
  | [], _ => true
  | _ :: _, [] => false
  | a :: p', b :: s' => (a =? b)%N && startswith p' s'
  end.

(** [sep in s] *)
Fixpoint contains (sep s : str) : bool :=
  startswith sep s
  || match s with [] => false | _ :: s' => contains sep s' end.

(** Index normalisation of a slice bound, as CPython's [PySlice_AdjustIndices]
    does for step 1. *)
Definition norm_index (n i : Z) : Z :=
  if (i <? 0)%Z then Z.max 0 (i + n) else Z.min i n.

(** [s[i:j]] *)
Definition slice {A : Type} (s : list A) (i j : Z) : list A :=
  let a := norm_index (len s) i in
  let b := norm_index (len s) j in
  firstn (Z.to_nat (b - a)) (skipn (Z.to_nat a) s).

(** Scanning split on a non-empty separator: [skip] counts the characters of
    a separator just matched that are still to be passed over, [cur] holds
    the current piece reversed. *)
Fixpoint split_scan (sep : str) (skip : nat) (cur s : str) : list str :=
  match s with
  | [] => [rev cur]
  | c :: s' =>
      match skip with
      | S k => split_scan sep k cur s'
      | O =>
          if startswith sep s
          then rev cur :: split_scan sep (List.length sep - 1) [] s'
          else split_scan sep 0 (c :: cur) s'
      end
  end.

(** The leftmost match of [\n\s*\n] at the head of [s], greedy with
    backtracking: a newline, the longest run of whitespace after it, cut back
    to the last newline of that run.  The answer is the length of the match. *)
Fixpoint ws_run_last_nl (pos : nat) (best : option nat) (s : str) : option nat :=
  match s with
  | [] => best
  | c :: s' =>
      if isspace c
      then ws_run_last_nl (S pos) (if (c =? NL)%N then Some (S pos) else best) s'
      else best
  end.

Definition para_sep_match (s : str) : option nat :=
  match s with
  | c :: s' => if (c =? NL)%N then ws_run_last_nl 1 None s' else None
  | [] => None
  end.

(** [re.split(r"\n\s*\n", s)] *)
Fixpoint re_split_para (skip : nat) (cur s : str) : list str :=
  match s with
  | [] => [rev cur]
  | c :: s' =>
      match skip with
      | S k => re_split_para k cur s'
      | O =>
          match para_sep_match s with
          | Some n => rev cur :: re_split_para (n - 1) [] s'
          | None => re_split_para 0 (c :: cur) s'
          end
      end
  end.

(** [sep.join(parts)] *)
Fixpoint join (sep : str) (parts : list str) : str :=
  match parts with
  | [] => []
  | [p] => p
  | p :: rest => p ++ sep ++ join sep rest
  end.

(** A [Dict[str, Any]], in insertion order. *)
Definition Dict (Any : Type) : Type := list (str * Any).

(** [d.get(key)] *)
Fixpoint dict_get {Any : Type} (key : str) (d : Dict Any) : option Any :=
  match d with
  | [] => None
  | (k, v) :: d' => if str_eqb k key then Some v else dict_get key d'
  end.

(** [str(n)] for a natural number. *)
Definition str_of_nat (n : nat) : str :=
  lit (NilZero.string_of_uint (Nat.to_uint n)).

(** [enumerate(l, start)] *)
Fixpoint enumerate {A : Type} (start : nat) (l : list A) : list (nat * A) :=
  match l with
  | [] => []
  | x :: l' => (start, x) :: enumerate (S start) l'
  end.

(** Exceptions, by class, with the message [str(e)] returns. *)
Inductive exn : Type :=
| ValueError (msg : str)
| RuntimeError (msg : str)
| ZeroDivisionError (msg : str)
| KeyError (msg : str)
| IndexError (msg : str)
| ValidationError (msg : str)
| OtherException (msg : str).

Definition str_of_exn (e : exn) : str :=
  match e with
  | ValueError m | RuntimeError m | ZeroDivisionError m | KeyError m
  | IndexError m | ValidationError m | OtherException m => m
  end.

(** What a call does: it returns, it raises, or (for the loops run on fuel)
    it is still running when the fuel is spent. *)
Inductive result (A : Type) : Type :=
| Ok (a : A)
| Raise (e : exn)
| OutOfFuel.

Arguments Ok {A} a.
Arguments Raise {A} e.
Arguments OutOfFuel {A}.

Definition bind {A B : Type} (m : result A) (k : A -> result B) : result B :=
  match m with
  | Ok a => k a
  | Raise e => Raise e
  | OutOfFuel => OutOfFuel
  end.

(** Calls that read or change state outside the function ([S]: the provider,
    the vector index, the database) and may raise; the state a raising call
    leaves behind stays, as in Python. *)
Definition M (S A : Type) : Type := S -> (exn + A) * S.

Definition ret {S A : Type} (a : A) : M S A := fun s => (inr a, s).

Definition raise {S A : Type} (e : exn) : M S A := fun s => (inl e, s).

Definition mbind {S A B : Type} (m : M S A) (k : A -> M S B) : M S B :=
  fun s =>
    match m s with
    | (inr a, s') => k a s'
    | (inl e, s') => (inl e, s')
    end.

(** [try: body except Exception as e: handler(e)] *)
Definition try_except {S A : Type} (body : M S A) (handler : exn -> M S A) : M S A :=
  fun s =>
    match body s with
    | (inr a, s') => (inr a, s')
    | (inl e, s') => handler e s'
    end.

(** A pure computation that may raise, run inside [M]. *)
Definition lift_exn {S A : Type} (r : exn + A) : M S A := fun s => (r, s).

(** [s.split()]: the maximal runs of non-whitespace. *)
Fixpoint split_ws (cur s : str) : list str :=
  match s with
  | [] => if truthy cur then [rev cur] else []
  | c :: s' =>
      if isspace c
      then if truthy cur then rev cur :: split_ws [] s' else split_ws [] s'
      else split_ws (c :: cur) s'
  end.

(** [s.split(sep)]: an empty separator is a [ValueError]. *)
Definition split (s sep : str) : result (list str) :=
  match sep with
  | [] => Raise (ValueError (lit "empty separator"))
  | _ :: _ => Ok (split_scan sep 0 [] s)
  end.

End Py.

Import Py.

Declare Scope py_scope.
Delimit Scope py_scope with py.
Notation "x <- m ;; k" := (bind m (fun x => k))
  (at level 61, m at next level, right associativity) : py_scope.

Declare Scope st_scope.
Delimit Scope st_scope with st.
Notation "x <- m ;; k" := (mbind m (fun x => k))
  (at level 61, m at next level, right associativity) : st_scope.
Notation "m ;; k" := (mbind m (fun _ => k))
  (at level 61, right associativity) : st_scope.
Open Scope Z_scope.

(** ** The chunker (file_service/app/chunking/chunker.py) *)

Module Chunker.

Local Open Scope py_scope.

Inductive ChunkingStrategy := FIXED | RECURSIVE | SEMANTIC | PARAGRAPH.

Section WithMetadata.

(** The values of a metadata dict ([Dict[str, Any]]). *)
Variable Any : Type.

Definition Dict := Py.Dict Any.

Record Chunk := mkChunk {
  text : str;
  index : Z;
  start_position : Z;
  end_position : Z;
  metadata : Dict
}.

(** The fields [BaseChunker.__init__] sets. *)
Record BaseChunker := mkChunker { chunk_size : Z; overlap : Z }.

(** [metadata or {}] *)
Definition or_empty (m : option Dict) : Dict :=
  match m with Some d => d | None => [] end.

Definition _create_chunk (txt : str) (idx start_pos end_pos : Z)
  (meta : option Dict) : Chunk :=
  mkChunk (strip txt) idx start_pos end_pos (or_empty meta).

Definition _clean_text (txt : str) : str := strip (re_sub_ws false txt).

(** *** FixedSizeChunker *)

(** The [while start < len(text)] loop of [FixedSizeChunker.chunk_text]. *)
Fixpoint fixed_while (fuel : nat) (self : BaseChunker) (txt : str)
  (meta : option Dict) (start chunk_index : Z) (chunks : list Chunk)
  : result (list Chunk) :=
  match fuel with
  | O => OutOfFuel
  | S fuel' =>
      if start <? len txt then
        let end_ := Z.min (start + chunk_size self) (len txt) in
        let chunk_text := slice txt start end_ in
        let chunks := chunks ++ [_create_chunk chunk_text chunk_index start end_ meta] in
        let start := end_ - overlap self in
        let chunk_index := chunk_index + 1 in
        if start >=? end_ then Ok chunks
        else fixed_while fuel' self txt meta start chunk_index chunks
      else Ok chunks
  end.

Definition FixedSizeChunker_chunk_text (fuel : nat) (self : BaseChunker)
  (txt : str) (meta : option Dict) : result (list Chunk) :=
  let txt := _clean_text txt in
  if len txt <=? chunk_size self
  then Ok [_create_chunk txt 0 0 (len txt) meta]
  else fixed_while fuel self txt meta 0 0 [].

(** *** RecursiveChunker *)

Definition separators : list str :=
  [ [NL; NL]; [NL]; lit ". "; lit "! "; lit "? "; lit "; "; lit ", "; lit " "; [] ].

(** One round of the [for i, part in enumerate(parts)] loop of
    [_split_by_separator]; the state is [(chunks, current_chunk, current_start)]. *)
Definition split_step (self : BaseChunker) (separator : str) (n_parts : nat)
  (meta : option Dict) (st : list Chunk * str * Z) (ip : nat * str)
  : list Chunk * str * Z :=
  let '(chunks, current_chunk, current_start) := st in
  let '(i, part) := ip in
  let part_with_sep :=
    if (Z.of_nat i <? Z.of_nat n_parts - 1) then part ++ separator else part in
  if len current_chunk + len part_with_sep <=? chunk_size self then
    (chunks, current_chunk ++ part_with_sep, current_start)
  else
    let chunks :=
      if truthy (strip current_chunk)
      then chunks ++ [_create_chunk current_chunk (len chunks) current_start
                        (current_start + len current_chunk) meta]
      else chunks in
    (chunks, part_with_sep, current_start + len current_chunk - overlap self).

Definition _split_by_separator (self : BaseChunker) (txt separator : str)
  (start_offset : Z) (meta : option Dict) : result (list Chunk) :=
  parts <- split txt separator ;;
  let '(chunks, current_chunk, current_start) :=
    fold_left (split_step self separator (List.length parts) meta)
              (enumerate 0 parts) ([], [], start_offset) in
  Ok (if truthy (strip current_chunk)
      then chunks ++ [_create_chunk current_chunk (len chunks) current_start
                        (current_start + len current_chunk) meta]
      else chunks).

(** The [while start < len(text)] loop of [_fallback_split]. *)
Fixpoint fallback_while (fuel : nat) (self : BaseChunker) (txt : str)
  (start_offset : Z) (meta : option Dict) (start : Z) (chunks : list Chunk)
  : result (list Chunk) :=
  match fuel with
  | O => OutOfFuel
  | S fuel' =>
      if start <? len txt then
        let end_ := Z.min (start + chunk_size self) (len txt) in
        let chunk_text := slice txt start end_ in
        let chunks := chunks ++ [_create_chunk chunk_text (len chunks)
                                   (start_offset + start) (start_offset + end_) meta] in
        let start := end_ - overlap self in
        if start >=? end_ then Ok chunks
        else fallback_while fuel' self txt start_offset meta start chunks
      else Ok chunks
  end.

Definition _fallback_split (fuel : nat) (self : BaseChunker) (txt : str)
  (start_offset : Z) (meta : option Dict) : result (list Chunk) :=
  fallback_while fuel self txt start_offset meta 0 [].

(** The [for separator in self.separators] loop of [_recursive_split],
    followed by the fallback. *)
Fixpoint try_separators (fuel : nat) (self : BaseChunker) (txt : str)
  (start_offset : Z) (meta : option Dict) (seps : list str)
  : result (list Chunk) :=
  match seps with
  | [] => _fallback_split fuel self txt start_offset meta
  | separator :: rest =>
      if contains separator txt then
        chunks <- _split_by_separator self txt separator start_offset meta ;;
        if truthy chunks then Ok chunks
        else try_separators fuel self txt start_offset meta rest
      else try_separators fuel self txt start_offset meta rest
  end.

Definition _recursive_split (fuel : nat) (self : BaseChunker) (txt : str)
  (start_offset : Z) (meta : option Dict) : result (list Chunk) :=
  if len txt <=? chunk_size self
  then Ok [_create_chunk txt 0 start_offset (start_offset + len txt) meta]
  else try_separators fuel self txt start_offset meta separators.

Definition RecursiveChunker_chunk_text (fuel : nat) (self : BaseChunker)
  (txt : str) (meta : option Dict) : result (list Chunk) :=
  let txt := _clean_text txt in
  _recursive_split fuel self txt 0 (Some (or_empty meta)).

(** *** ParagraphChunker *)

(** One round of the [for paragraph in paragraphs] loop. *)
Definition paragraph_step (self : BaseChunker) (meta : option Dict)
  (st : list Chunk * str * Z) (paragraph : str) : list Chunk * str * Z :=
  let '(chunks, current_chunk, current_start) := st in
  let paragraph := strip paragraph in
  if negb (truthy paragraph) then st
  else if (len current_chunk + len paragraph + 2 >? chunk_size self)
          && truthy current_chunk then
    (chunks ++ [_create_chunk current_chunk (len chunks) current_start
                  (current_start + len current_chunk) meta],
     paragraph, current_start + len current_chunk)
  else if truthy current_chunk
  then (chunks, current_chunk ++ [NL; NL] ++ paragraph, current_start)
  else (chunks, paragraph, current_start).

Definition ParagraphChunker_chunk_text (self : BaseChunker) (txt : str)
  (meta : option Dict) : list Chunk :=
  let txt := _clean_text txt in
  let paragraphs := re_split_para 0 [] txt in
  let '(chunks, current_chunk, current_start) :=
    fold_left (paragraph_step self meta) paragraphs ([], [], 0) in
  if truthy (strip current_chunk)
  then chunks ++ [_create_chunk current_chunk (len chunks) current_start
                    (current_start + len current_chunk) meta]
  else chunks.

(** *** SemanticChunker: a fresh [RecursiveChunker] with the same sizes. *)

Definition SemanticChunker_chunk_text (fuel : nat) (self : BaseChunker)
  (txt : str) (meta : option Dict) : result (list Chunk) :=
  let recursive_chunker := mkChunker (chunk_size self) (overlap self) in
  RecursiveChunker_chunk_text fuel recursive_chunker txt meta.

(** *** ChunkingService *)

(** [chunker.chunk_text(text, metadata)] for the chunker class that
    [ChunkingService.get_chunker] finds for the strategy. *)
Definition chunker_chunk_text (strategy : ChunkingStrategy) (fuel : nat)
  (self : BaseChunker) (txt : str) (meta : option Dict) : result (list Chunk) :=
  match strategy with
  | FIXED => FixedSizeChunker_chunk_text fuel self txt meta
  | RECURSIVE => RecursiveChunker_chunk_text fuel self txt meta
  | PARAGRAPH => Ok (ParagraphChunker_chunk_text self txt meta)
  | SEMANTIC => SemanticChunker_chunk_text fuel self txt meta
  end.

(** [for i, chunk in enumerate(chunks): chunk["index"] = i] *)
Definition reindex (chunks : list Chunk) : list Chunk :=
  List.map (fun ic : nat * Chunk =>
              let '(i, c) := ic in
              mkChunk (text c) (Z.of_nat i) (start_position c) (end_position c)
                      (metadata c))
           (enumerate 0 chunks).

Definition chunk_text (fuel : nat) (txt : str) (strategy : ChunkingStrategy)
  (chunk_size overlap : Z) (meta : option Dict) : result (list Chunk) :=
  let chunker := mkChunker chunk_size overlap in
  chunks <- chunker_chunk_text strategy fuel chunker txt meta ;;
  Ok (reindex chunks).

End WithMetadata.

(** [ChunkingService.estimate_chunks]; [//] is floor division and raises on
    a zero divisor. *)
Definition estimate_chunks (text_length chunk_size overlap : Z) : exn + Z :=
  if text_length <=? chunk_size then inr 1
  else
    let effective_chunk_size := chunk_size - overlap in
    if effective_chunk_size =? 0
    then inl (ZeroDivisionError (lit "integer division or modulo by zero"))
    else inr (Z.max 1 ((text_length - overlap) / effective_chunk_size + 1)).

End Chunker.

(** ** Rank fusion (chat_service/app/crud/rag.py, [RAGService.merge_contexts]) *)

Module Fusion.

(** A UUID, as its 128-bit value.  The fusion code keys its score dict by
    [str(chunk.chunk_id)]; the canonical text of a UUID determines the UUID,
    so the dict is keyed here by the UUID itself. *)
Definition UUID := N.

(** [int] to [float], as [rrf_k + rank] converts [rank]. *)
Definition float_of_nat (n : nat) : float :=
  PrimFloat.of_uint63 (Uint63.of_Z (Z.of_nat n)).

(** [sorted(l, key=key, reverse=True)]: stable, so elements with equal keys
    keep their order; an element moves behind exactly those with a strictly
    greater key. *)
Fixpoint insert_desc {A : Type} (key : A -> float) (x : A) (l : list A) : list A :=
  match l with
  | [] => [x]
  | y :: l' => if (key x <? key y)%float then y :: insert_desc key x l' else x :: l
  end.

Definition sorted_reverse {A : Type} (key : A -> float) (l : list A) : list A :=
  fold_right (insert_desc key) [] l.

Section WithMetadata.

Variable Any : Type.

Record RetrievedChunk := mkRetrievedChunk {
  chunk_id : UUID;
  document_id : UUID;
  collection_id : UUID;
  content : str;
  embedding : option (list float);
  similarity_score : float;
  metadata : Dict Any;
  rank : Z
}.

Record MergeMetadata := mkMergeMetadata {
  meta_rrf_k : float;
  collections_searched : Z;
  total_chunks_available : Z
}.

Record ContextMergeResult := mkContextMergeResult {
  merged_context : str;
  selected_chunks : list RetrievedChunk;
  total_tokens : Z;
  merge_strategy : str;
  merge_metadata : MergeMetadata
}.

(** An entry of [rrf_scores]: [{"chunk": chunk, "score": score}]. *)
Record Scored := mkScored { sc_chunk : RetrievedChunk; sc_score : float }.

(** [collection_chunks[chunk.collection_id].append(chunk)], creating the
    list when the collection is new. *)
Fixpoint group_append (chunk : RetrievedChunk)
  (d : list (UUID * list RetrievedChunk)) : list (UUID * list RetrievedChunk) :=
  match d with
  | [] => [(collection_id chunk, [chunk])]
  | (cid, l) :: d' =>
      if (cid =? collection_id chunk)%N then (cid, l ++ [chunk]) :: d'
      else (cid, l) :: group_append chunk d'
  end.

Definition group_by_collection (chunks : list RetrievedChunk)
  : list (UUID * list RetrievedChunk) :=
  fold_left (fun d chunk => group_append chunk d) chunks [].

(** [1.0 / (rrf_k + rank)]; a zero divisor raises. *)
Definition rrf_term (rrf_k : float) (rnk : nat) : exn + float :=
  let d := (rrf_k + float_of_nat rnk)%float in
  if (d =? 0)%float then inl (ZeroDivisionError (lit "float division by zero"))
  else inr (1 / d)%float.

(** [if chunk_key not in rrf_scores: rrf_scores[chunk_key] = {chunk, 0.0}]
    followed by [rrf_scores[chunk_key]["score"] += term]. *)
Fixpoint rrf_add (chunk : RetrievedChunk) (term : float)
  (d : list (UUID * Scored)) : list (UUID * Scored) :=
  match d with
  | [] => [(chunk_id chunk, mkScored chunk (0 + term)%float)]
  | (key, e) :: d' =>
      if (key =? chunk_id chunk)%N
      then (key, mkScored (sc_chunk e) (sc_score e + term)%float) :: d'
      else (key, e) :: rrf_add chunk term d'
  end.

(** The [for rank, chunk in enumerate(sorted_chunks, 1)] loop. *)
Fixpoint rrf_rank_loop (rrf_k : float) (ranked : list (nat * RetrievedChunk))
  (rrf_scores : list (UUID * Scored)) : exn + list (UUID * Scored) :=
  match ranked with
  | [] => inr rrf_scores
  | (rnk, chunk) :: rest =>
      match rrf_term rrf_k rnk with
      | inl e => inl e
      | inr term => rrf_rank_loop rrf_k rest (rrf_add chunk term rrf_scores)
      end
  end.

(** The ranking of one collection's chunks: [enumerate(sorted(...), 1)]. *)
Definition rank_collection (l : list RetrievedChunk) : list (nat * RetrievedChunk) :=
  enumerate 1 (sorted_reverse similarity_score l).

(** The [for collection_id, collection_chunks_list in collection_chunks.items()] loop. *)
Fixpoint rrf_collection_loop (rrf_k : float)
  (groups : list (UUID * list RetrievedChunk))
  (rrf_scores : list (UUID * Scored)) : exn + list (UUID * Scored) :=
  match groups with
  | [] => inr rrf_scores
  | (_, collection_chunks_list) :: rest =>
      match rrf_rank_loop rrf_k (rank_collection collection_chunks_list) rrf_scores with
      | inl e => inl e
      | inr rrf_scores => rrf_collection_loop rrf_k rest rrf_scores
      end
  end.

(** [sorted(rrf_scores.values(), key=lambda x: x["score"], reverse=True)] *)
Definition fused_order (rrf_scores : list (UUID * Scored)) : list Scored :=
  sorted_reverse sc_score (List.map snd rrf_scores).

(** [len(chunk.content) // 4] *)
Definition chunk_tokens (chunk : RetrievedChunk) : Z := len (content chunk) / 4.

(** The selection loop, with its [break]. *)
Fixpoint select_within_budget (max_tokens : Z) (sorted_chunks : list Scored)
  (selected_chunks : list RetrievedChunk) (total : Z)
  : list RetrievedChunk * Z :=
  match sorted_chunks with
  | [] => (selected_chunks, total)
  | item :: rest =>
      let chunk := sc_chunk item in
      if total + chunk_tokens chunk <=? max_tokens
      then select_within_budget max_tokens rest (selected_chunks ++ [chunk])
             (total + chunk_tokens chunk)
      else (selected_chunks, total)
  end.

(** [f"[Source {i}] {chunk.content}"] for [enumerate(selected_chunks, 1)],
    joined by blank lines. *)
Definition build_context (selected_chunks : list RetrievedChunk) : str :=
  join [NL; NL]
    (List.map (fun ic : nat * RetrievedChunk =>
                 lit "[Source " ++ str_of_nat (fst ic) ++ lit "] " ++ content (snd ic))
              (enumerate 1 selected_chunks)).

(** The candidates in fused order, or the exception of the scoring loop. *)
Definition fuse (rrf_k : float) (chunks : list RetrievedChunk) : exn + list Scored :=
  match rrf_collection_loop rrf_k (group_by_collection chunks) [] with
  | inl e => inl e
  | inr rrf_scores => inr (fused_order rrf_scores)
  end.

(** [merge_contexts]; its [except] clause logs and re-raises. *)
Definition merge_contexts (rrf_k : float) (chunks : list RetrievedChunk)
  (query : str) (max_tokens : Z) : exn + ContextMergeResult :=
  match fuse rrf_k chunks with
  | inl e => inl e
  | inr sorted_chunks =>
      let '(selected_chunks, total) :=
        select_within_budget max_tokens sorted_chunks [] 0 in
      inr (mkContextMergeResult
             (build_context selected_chunks)
             selected_chunks
             total
             (lit "enhanced_rrf")
             (mkMergeMetadata rrf_k (len (group_by_collection chunks)) (len chunks)))
  end.

End WithMetadata.

End Fusion.

(** ** The embedder (file_service/app/embedding/embedder.py) *)

Module Embedder.

Local Open Scope st_scope.

(** The [input] of [client.embeddings.create]: one text or a batch. *)
Inductive EmbeddingInput := OneText (t : str) | ManyTexts (ts : list str).

(** The models [OpenAIEmbedder.__init__] accepts; it raises [ValueError] for
    any other name, so an embedder object holds one of these. *)
Inductive OpenAIModel :=
| text_embedding_3_small
| text_embedding_3_large
| text_embedding_ada_002.

Definition model_name (m : OpenAIModel) : str :=
  match m with
  | text_embedding_3_small => lit "text-embedding-3-small"
  | text_embedding_3_large => lit "text-embedding-3-large"
  | text_embedding_ada_002 => lit "text-embedding-ada-002"
  end.

(** [self.model_configs[self.model]["dimension"]] *)
Definition model_dimension (m : OpenAIModel) : Z :=
  match m with
  | text_embedding_3_small => 1536
  | text_embedding_3_large => 3072
  | text_embedding_ada_002 => 1536
  end.

Definition float_of_N (n : N) : float := PrimFloat.of_uint63 (Uint63.of_Z (Z.of_N n)).

(** [BaseEmbedder._validate_text] *)
Definition _validate_text (text : str) : exn + str :=
  if negb (truthy text) || negb (truthy (strip text))
  then inl (ValueError (lit "Text cannot be empty"))
  else
    let text := join [SP] (split_ws [] text) in
    let max_chars := 8000 in
    inr (if len text >? max_chars then slice text 0 max_chars else text).

(** [[self._validate_text(text) for text in texts]] *)
Fixpoint validate_all (texts : list str) : exn + list str :=
  match texts with
  | [] => inr []
  | text :: rest =>
      match _validate_text text with
      | inl e => inl e
      | inr v =>
          match validate_all rest with
          | inl e => inl e
          | inr vs => inr (v :: vs)
          end
      end
  end.

(** [text.encode()] raises on a lone surrogate (the message of the real
    exception also names the character and its position). *)
Definition utf8_encodable (text : str) : bool :=
  forallb (fun c => negb ((55296 <=? c) && (c <=? 57343))%N) text.

Definition UnicodeEncodeError : exn :=
  OtherException (lit "'utf-8' codec can't encode character: surrogates not allowed").

(** The padding loop of [MockEmbedder.generate_embedding],
    [while len(embedding) < self.dimension: embedding.extend(...)].  It is
    run for at most [fuel] rounds; from a non-empty list every round adds an
    element, so [dimension] rounds are enough (lemma [pad_while_reaches]). *)
Fixpoint pad_while (fuel : nat) (dimension : Z) (embedding : list float) : list float :=
  match fuel with
  | O => embedding
  | S fuel' =>
      if len embedding <? dimension
      then pad_while fuel' dimension
             (embedding ++ slice embedding 0
                             (Z.min (len embedding) (dimension - len embedding)))
      else embedding
  end.

Section WithProvider.

(** The state of the embedding provider, outside the process. *)
Variable W : Type.

(** [await self.client.embeddings.create(model=..., input=...)]: the
    [embedding] of every item of [response.data], or the exception raised. *)
Variable embeddings_create : str -> EmbeddingInput -> M W (list (list float)).

(** The sixteen bytes of [hashlib.md5(text.encode()).hexdigest()], read two
    hex digits at a time: the first and the other fifteen. *)
Variable md5_digest : str -> N * list N.

(** The capability set of an embedding provider. *)
Record BaseEmbedder := mkEmbedder {
  generate_embedding : str -> M W (list float);
  generate_embeddings : list str -> M W (list (list float));
  get_model_name : str;
  get_embedding_dimension : Z
}.

(** *** OpenAIEmbedder *)

Definition OpenAI_generate_embedding (model : OpenAIModel) (text : str)
  : M W (list float) :=
  text <- lift_exn (_validate_text text) ;;
  try_except
    (data <- embeddings_create (model_name model) (OneText text) ;;
     match data with
     | e :: _ => ret e
     | [] => raise (IndexError (lit "list index out of range"))
     end)
    (fun e => raise (RuntimeError
                       (lit "OpenAI embedding generation failed: " ++ str_of_exn e))).

Definition OpenAI_generate_embeddings (model : OpenAIModel) (texts : list str)
  : M W (list (list float)) :=
  if negb (truthy texts) then ret []
  else
    validated_texts <- lift_exn (validate_all texts) ;;
    try_except
      (embeddings_create (model_name model) (ManyTexts validated_texts))
      (fun e => raise (RuntimeError
                         (lit "OpenAI batch embedding generation failed: "
                            ++ str_of_exn e))).

Definition OpenAIEmbedder (model : OpenAIModel) : BaseEmbedder :=
  mkEmbedder (OpenAI_generate_embedding model) (OpenAI_generate_embeddings model)
             (model_name model) (model_dimension model).

(** *** MockEmbedder *)

Definition Mock_generate_embedding (dimension : Z) (text : str) : M W (list float) :=
  text <- lift_exn (_validate_text text) ;;
  if negb (utf8_encodable text) then raise UnicodeEncodeError
  else
    let '(b0, bs) := md5_digest text in
    let embedding :=
      List.map (fun b => (float_of_N b / 255 - 0.5)%float) (b0 :: bs) in
    let embedding := pad_while (Z.to_nat dimension) dimension embedding in
    ret (slice embedding 0 dimension).

(** [for text in texts: embeddings.append(await self.generate_embedding(text))] *)
Fixpoint Mock_generate_embeddings (dimension : Z) (texts : list str)
  : M W (list (list float)) :=
  match texts with
  | [] => ret []
  | text :: rest =>
      embedding <- Mock_generate_embedding dimension text ;;
      embeddings <- Mock_generate_embeddings dimension rest ;;
      ret (embedding :: embeddings)
  end.

Definition MockEmbedder (dimension : Z) : BaseEmbedder :=
  mkEmbedder (Mock_generate_embedding dimension) (Mock_generate_embeddings dimension)
             (lit "mock-embedder") dimension.

(** *** EmbeddingService *)

Record EmbeddingService := mkService { provider : str; embedder : BaseEmbedder }.

(** [_create_embedder]; the keyword arguments are the model of an OpenAI
    embedder and the dimension of a mock one. *)
Definition _create_embedder (provider : str) (model : OpenAIModel) (dimension : Z)
  : exn + BaseEmbedder :=
  if str_eqb provider (lit "openai") then inr (OpenAIEmbedder model)
  else if str_eqb provider (lit "mock") then inr (MockEmbedder dimension)
  else inl (ValueError (lit "Unsupported embedding provider: " ++ provider)).

(** The dict [embed_text] returns. *)
Record EmbedResult := mkEmbedResult {
  embedding : option (list float);
  model : str;
  dimension : Z;
  text_length : Z;
  success : bool;
  error : option str
}.

Definition embed_text (self : EmbeddingService) (text : str) : M W EmbedResult :=
  try_except
    (embedding <- generate_embedding (embedder self) text ;;
     ret (mkEmbedResult (Some embedding)
            (get_model_name (embedder self))
            (get_embedding_dimension (embedder self))
            (len text) true None))
    (fun e =>
       ret (mkEmbedResult None
              (get_model_name (embedder self))
              (get_embedding_dimension (embedder self))
              (len text) false (Some (str_of_exn e)))).

Section WithChunks.

(** The values of a chunk's metadata dict. *)
Variable Any : Type.

(** A chunk dict after [enriched_chunk.update(...)]: the chunk's own keys
    and the five keys added. *)
Record EnrichedChunk := mkEnriched {
  chunk : Chunker.Chunk Any;
  chunk_embedding : option (list float);
  embedding_model : str;
  embedding_dimension : Z;
  chunk_success : bool;
  chunk_error : option str
}.

(** The [for i, chunk in enumerate(chunks)] loop of [embed_chunks];
    [embeddings[i]] raises when the provider returned too few vectors. *)
Fixpoint enrich_batch (self : EmbeddingService)
  (ichunks : list (nat * Chunker.Chunk Any)) (embeddings : list (list float))
  : exn + list EnrichedChunk :=
  match ichunks with
  | [] => inr []
  | (i, c) :: rest =>
      match nth_error embeddings i with
      | None => inl (IndexError (lit "list index out of range"))
      | Some e =>
          match enrich_batch self rest embeddings with
          | inl ex => inl ex
          | inr enriched_chunks =>
              inr (mkEnriched c (Some e)
                     (get_model_name (embedder self))
                     (get_embedding_dimension (embedder self))
                     true None :: enriched_chunks)
          end
      end
  end.

(** [_embed_chunks_individually] *)
Fixpoint _embed_chunks_individually (self : EmbeddingService)
  (chunks : list (Chunker.Chunk Any)) (batch_error : str)
  : M W (list EnrichedChunk) :=
  match chunks with
  | [] => ret []
  | c :: rest =>
      enriched_chunk <-
        try_except
          (embedding <- generate_embedding (embedder self) (Chunker.text c) ;;
           ret (mkEnriched c (Some embedding)
                  (get_model_name (embedder self))
                  (get_embedding_dimension (embedder self))
                  true None))
          (fun e =>
             ret (mkEnriched c None
                    (get_model_name (embedder self))
                    (get_embedding_dimension (embedder self))
                    false
                    (Some (lit "Individual embedding failed: " ++ str_of_exn e)))) ;;
      enriched_chunks <- _embed_chunks_individually self rest batch_error ;;
      ret (enriched_chunk :: enriched_chunks)
  end.

Definition embed_chunks (self : EmbeddingService) (chunks : list (Chunker.Chunk Any))
  : M W (list EnrichedChunk) :=
  if negb (truthy chunks) then ret []
  else
    let texts := List.map (@Chunker.text Any) chunks in
    try_except
      (embeddings <- generate_embeddings (embedder self) texts ;;
       lift_exn (enrich_batch self (enumerate 0 chunks) embeddings))
      (fun e => _embed_chunks_individually self chunks (str_of_exn e)).

End WithChunks.

End WithProvider.

End Embedder.

(** ** The RAG service (chat_service/app/crud/rag.py) *)

Module RagService.

Import Fusion.
Local Open Scope st_scope.

(** A generator that has the state [W] of the services it calls: its state
    also holds the chunks yielded so far, in order. *)
Definition yield_ {W E : Type} (ev : E) : M (W * list E) unit :=
  fun s => (inr tt, (fst s, snd s ++ [ev])).

(** A service call made from inside a generator. *)
Definition call {W E A : Type} (m : M W A) : M (W * list E) A :=
  fun s => let '(r, w') := m (fst s) in (r, (w', snd s)).

(** [for x in l: yield f(x)] *)
Fixpoint yield_each {W E A : Type} (f : A -> E) (l : list A) : M (W * list E) unit :=
  match l with
  | [] => ret tt
  | x :: rest => yield_ (f x) ;; yield_each f rest
  end.

Section WithServices.

(** The state of the embedding service, the vector index and the completion
    service. *)
Variable W : Type.

(** The values of payload and metadata dicts. *)
Variable Any : Type.

Record Settings := mkSettings {
  rrf_k : float;
  max_context_tokens : Z;
  default_model : str;
  default_embedding_model : str
}.

Variable settings : Settings.

(** [openai_client.embeddings.create(input=..., model=...)]: the embeddings
    of [response.data], [response.model] and [response.usage.total_tokens]. *)
Record CreateEmbeddingResponse := mkCreateEmbeddingResponse {
  data : list (list float);
  response_model : str;
  usage_total_tokens : Z
}.

Variable embeddings_create : str -> str -> M W CreateEmbeddingResponse.

(** A hit of [qdrant_client.search]. *)
Record ScoredPoint := mkScoredPoint { payload : Dict Any; score : float }.

(** [qdrant_client.search] on the collection
    [f"knowledge_collection_{collection_id}"], with the query vector, the
    limit, the score threshold and the filter. *)
Variable qdrant_search :
  UUID -> list float -> Z -> float -> option (Dict Any) -> M W (list ScoredPoint).

(** [UUID(value)] *)
Variable parse_uuid : Any -> exn + UUID.

(** The validation of a value for a [str] field and for a [Dict] field of a
    pydantic model. *)
Variable validate_str : Any -> exn + str.
Variable validate_dict : Any -> exn + Dict Any.

(** The completion stream: the [delta.content] of every chunk received, and
    the exception that ended the iteration, if one did. *)
Record CompletionStream := mkCompletionStream {
  deltas : list (option str);
  stream_error : option exn
}.

(** [temperature] defaults to [0.1], the binary64 value [0x1.999999999999ap-4]. *)
Record LLMRequest := mkLLMRequest {
  prompt : str;
  context : str;
  llm_model : str;
  temperature : float;
  max_tokens : Z;
  stream : bool
}.

Variable chat_completions_create_stream : LLMRequest -> M W CompletionStream.

Local Notation "'RC'" := (RetrievedChunk Any).

Record RAGRequest := mkRAGRequest {
  query : str;
  collection_ids : list UUID;
  top_k : Z;
  context_settings : Dict Any;
  user_id : UUID;
  session_id : option UUID
}.

Record EmbeddingRequest := mkEmbeddingRequest {
  er_text : str;
  er_model : str
}.

Record EmbeddingResponse := mkEmbeddingResponse {
  embedding : list float;
  model : str;
  tokens_used : Z
}.

Record VectorSearchRequest := mkVectorSearchRequest {
  query_embedding : list float;
  vs_collection_ids : list UUID;
  vs_top_k : Z;
  score_threshold : float;
  filters : Dict Any
}.

(** [search_time_ms] is wall-clock time and is left out. *)
Record VectorSearchResponse := mkVectorSearchResponse {
  chunks : list RC;
  total_found : Z
}.

Record SourceAttribution := mkSourceAttribution {
  sa_document_id : UUID;
  sa_chunk_id : UUID;
  sa_collection_id : UUID;
  filename : str;
  chunk_text : str;
  relevance_score : float;
  chunk_sequence : Z;
  sa_metadata : Dict Any
}.

(** The [data] of a streaming chunk, by shape. *)
Inductive ChunkData :=
| StatusData (status : str)
| SourceData (source : SourceAttribution)
| ContentData (fragment : str)
| MetadataData (chunks_retrieved chunks_used sources_count : Z)
| ErrorData (error : str) (status : str).

(** [timestamp] is wall-clock time and is left out. *)
Record StreamingChunk := mkStreamingChunk { type : str; chunk_data : ChunkData }.

(** [Field(..., ge=0.0, le=1.0)] *)
Definition in_unit_interval (x : float) : bool := ((0 <=? x) && (x <=? 1))%float.

Definition validation_error (field : str) : exn :=
  ValidationError (lit "validation error for " ++ field).

(** [generate_embedding]; the [except] clause logs and re-raises. *)
Definition generate_embedding (request : EmbeddingRequest) : M W EmbeddingResponse :=
  try_except
    (response <- embeddings_create (er_text request) (er_model request) ;;
     match data response with
     | e :: _ => ret (mkEmbeddingResponse e (response_model response)
                        (usage_total_tokens response))
     | [] => raise (IndexError (lit "list index out of range"))
     end)
    (fun e => raise e).

(** [d[key]] *)
Definition dict_item (key : str) (d : Dict Any) : exn + Any :=
  match dict_get key d with
  | Some v => inr v
  | None => inl (KeyError (lit "'" ++ key ++ lit "'"))
  end.

Definition ebind {A B : Type} (r : exn + A) (k : A -> exn + B) : exn + B :=
  match r with inl e => inl e | inr a => k a end.

(** The [RetrievedChunk(...)] built from one hit: the arguments are
    evaluated left to right, then the model validates its fields. *)
Definition to_retrieved_chunk (collection_id : UUID) (i : nat) (result : ScoredPoint)
  : exn + RC :=
  ebind (ebind (dict_item (lit "chunk_id") (payload result)) parse_uuid) (fun cid =>
  ebind (ebind (dict_item (lit "document_id") (payload result)) parse_uuid) (fun did =>
  ebind (dict_item (lit "chunk_text") (payload result)) (fun raw_content =>
  let raw_metadata := dict_get (lit "metadata") (payload result) in
  ebind (validate_str raw_content) (fun content =>
  if negb (in_unit_interval (score result))
  then inl (validation_error (lit "similarity_score"))
  else
    ebind (match raw_metadata with
           | Some m => validate_dict m
           | None => inr []
           end) (fun metadata =>
    inr (mkRetrievedChunk cid did collection_id content None (score result)
           metadata (Z.of_nat i + 1))))))).

(** [for i, result in enumerate(search_results)] *)
Fixpoint convert_results (collection_id : UUID) (results : list (nat * ScoredPoint))
  : exn + list RC :=
  match results with
  | [] => inr []
  | (i, result) :: rest =>
      ebind (to_retrieved_chunk collection_id i result) (fun chunk =>
      ebind (convert_results collection_id rest) (fun more =>
      inr (chunk :: more)))
  end.

(** The [for collection_id in request.collection_ids] loop of [vector_search]. *)
Fixpoint search_loop (request : VectorSearchRequest) (ids : list UUID)
  (all_chunks : list RC) : M W (list RC) :=
  match ids with
  | [] => ret all_chunks
  | collection_id :: rest =>
      let search_filter :=
        if truthy (filters request) then Some (filters request) else None in
      search_results <-
        qdrant_search collection_id (query_embedding request) (vs_top_k request)
                      (score_threshold request) search_filter ;;
      found <- lift_exn (convert_results collection_id (enumerate 0 search_results)) ;;
      search_loop request rest (all_chunks ++ found)
  end.

(** [vector_search]; the [except] clause logs and re-raises. *)
Definition vector_search (request : VectorSearchRequest) : M W VectorSearchResponse :=
  try_except
    (all_chunks <- search_loop request (vs_collection_ids request) [] ;;
     ret (mkVectorSearchResponse all_chunks (len all_chunks)))
    (fun e => raise e).

(** [VectorSearchRequest(...)] with its [top_k: ge=1, le=100] and
    [score_threshold: ge=0.0, le=1.0] checks. *)
Definition make_search_request (query_embedding : list float) (ids : list UUID)
  (top_k : Z) (score_threshold : float) : exn + VectorSearchRequest :=
  if negb ((1 <=? top_k) && (top_k <=? 100)) then inl (validation_error (lit "top_k"))
  else if negb (in_unit_interval score_threshold)
  then inl (validation_error (lit "score_threshold"))
  else inr (mkVectorSearchRequest query_embedding ids top_k score_threshold []).

Definition _build_prompt (query context : str) : str :=
  lit "Based on the following context, please answer the user's question. If the context doesn't contain enough information to answer the question, say so clearly."
  ++ [NL; NL] ++ lit "Context:" ++ [NL] ++ context ++ [NL; NL]
  ++ lit "Question: " ++ query ++ [NL; NL]
  ++ lit "Please provide a comprehensive answer based on the context above, and cite the relevant sources using [Source X] notation.".

(** [_extract_source_attribution] *)
Fixpoint _extract_source_attribution (chunks : list RC) : exn + list SourceAttribution :=
  match chunks with
  | [] => inr []
  | chunk :: rest =>
      ebind (match dict_get (lit "filename") (Fusion.metadata chunk) with
             | Some v => validate_str v
             | None => inr (lit "Unknown")
             end) (fun filename =>
      if negb (in_unit_interval (similarity_score chunk))
      then inl (validation_error (lit "relevance_score"))
      else
        let chunk_text :=
          if len (content chunk) >? 200
          then slice (content chunk) 0 200 ++ lit "..."
          else content chunk in
        ebind (_extract_source_attribution rest) (fun sources =>
        inr (mkSourceAttribution (document_id chunk) (chunk_id chunk)
               (collection_id chunk) filename chunk_text
               (similarity_score chunk) (Fusion.rank chunk)
               (Fusion.metadata chunk) :: sources)))
  end.

(** [stream_llm_response], as the fragments it yields and the exception it
    ends with, if any; its [except] clause logs and re-raises. *)
Definition stream_llm_response (request : LLMRequest) : M W (list str * option exn) :=
  fun w =>
    match chat_completions_create_stream request w with
    | (inl e, w') => (inr ([], Some e), w')
    | (inr s, w') =>
        (inr (flat_map (fun d => match d with
                                 | Some c => if truthy c then [c] else []
                                 | None => []
                                 end) (deltas s),
              stream_error s), w')
    end.

Definition status_chunk (s : string) : StreamingChunk :=
  mkStreamingChunk (lit "status") (StatusData (lit s)).

(** The [try] block of [process_streaming_rag_request]. *)
Definition streaming_body (request : RAGRequest) : M (W * list StreamingChunk) unit :=
  yield_ (status_chunk "generating_embedding") ;;
  embedding_response <-
    call (generate_embedding
            (mkEmbeddingRequest (query request) (lit "text-embedding-3-small"))) ;;
  yield_ (status_chunk "searching_vectors") ;;
  search_request <-
    lift_exn (make_search_request (embedding embedding_response)
                (collection_ids request) (top_k request * 2) 0%float) ;;
  search_response <- call (vector_search search_request) ;;
  yield_ (status_chunk "merging_context") ;;
  merge_result <-
    lift_exn (merge_contexts (rrf_k settings) (chunks search_response)
                (query request) (max_context_tokens settings)) ;;
  sources <- lift_exn (_extract_source_attribution (selected_chunks merge_result)) ;;
  yield_each (fun source => mkStreamingChunk (lit "source") (SourceData source))
             sources ;;
  yield_ (status_chunk "generating_response") ;;
  let llm_request :=
    mkLLMRequest (_build_prompt (query request) (merged_context merge_result))
                 (merged_context merge_result) (default_model settings)
                 0x1.999999999999ap-4%float 1000 true in
  produced <- call (stream_llm_response llm_request) ;;
  yield_each (fun fragment => mkStreamingChunk (lit "content") (ContentData fragment))
             (fst produced) ;;
  match snd produced with
  | Some e => raise e
  | None =>
      yield_ (mkStreamingChunk (lit "metadata")
                (MetadataData (len (chunks search_response))
                              (len (selected_chunks merge_result))
                              (len sources))) ;;
      yield_ (mkStreamingChunk (lit "done") (StatusData (lit "completed")))
  end.

(** [process_streaming_rag_request] *)
Definition process_streaming_rag_request (request : RAGRequest)
  : M (W * list StreamingChunk) unit :=
  try_except (streaming_body request)
    (fun e => yield_ (mkStreamingChunk (lit "error")
                        (ErrorData (str_of_exn e) (lit "failed")))).

(** The completion [chat.completions.create] returns when it does not
    stream: the [message.content] and [finish_reason] of every choice,
    [response.model] and the [total_tokens] of [response.usage], which the
    provider may leave out. *)
Record ChatCompletion := mkChatCompletion {
  choices : list (option str * str);
  completion_model : str;
  completion_usage : option Z
}.

Variable chat_completions_create : LLMRequest -> M W ChatCompletion.

(** [response_time_ms] is wall-clock time and is left out. *)
Record LLMResponse := mkLLMResponse {
  llm_content : str;
  llm_response_model : str;
  llm_tokens_used : Z;
  finish_reason : str
}.

(** [generate_llm_response]: the arguments of [LLMResponse(...)] are
    evaluated in order, then the model validates [content]; the [except]
    clause logs and re-raises. *)
Definition generate_llm_response (request : LLMRequest) : M W LLMResponse :=
  try_except
    (response <- chat_completions_create request ;;
     match choices response with
     | [] => raise (IndexError (lit "list index out of range"))
     | (content, reason) :: _ =>
         match completion_usage response with
         | None =>
             raise (OtherException
                      (lit "'NoneType' object has no attribute 'total_tokens'"))
         | Some total =>
             match content with
             | None => raise (validation_error (lit "content"))
             | Some content =>
                 ret (mkLLMResponse content (completion_model response) total reason)
             end
         end
     end)
    (fun e => raise e).

(** The [metadata] of a [RAGResponse]. *)
Record ResponseMetadata := mkResponseMetadata {
  chunks_retrieved : Z;
  chunks_used : Z;
  used_merge_strategy : str;
  used_embedding_model : str;
  used_llm_model : str
}.

(** [processing_time_ms] is wall-clock time and is left out. *)
Record RAGResponse := mkRAGResponse {
  rr_query : str;
  response : str;
  sources : list SourceAttribution;
  context_used : str;
  rr_metadata : ResponseMetadata;
  rr_tokens_used : Z;
  model_used : str
}.

(** [process_rag_request]; the score threshold [0.3] is the binary64 value
    [0x1.3333333333333p-2]; the [except] clause logs and re-raises. *)
Definition process_rag_request (request : RAGRequest) : M W RAGResponse :=
  try_except
    (embedding_response <-
       generate_embedding
         (mkEmbeddingRequest (query request) (default_embedding_model settings)) ;;
     search_request <-
       lift_exn (make_search_request (embedding embedding_response)
                   (collection_ids request) (top_k request * 2)
                   0x1.3333333333333p-2%float) ;;
     search_response <- vector_search search_request ;;
     merge_result <-
       lift_exn (merge_contexts (rrf_k settings) (chunks search_response)
                   (query request) (max_context_tokens settings)) ;;
     let llm_request :=
       mkLLMRequest (_build_prompt (query request) (merged_context merge_result))
                    (merged_context merge_result) (default_model settings)
                    0x1.999999999999ap-4%float 1000 false in
     llm_response <- generate_llm_response llm_request ;;
     sources <- lift_exn (_extract_source_attribution (selected_chunks merge_result)) ;;
     ret (mkRAGResponse (query request) (llm_content llm_response) sources
            (merged_context merge_result)
            (mkResponseMetadata (len (chunks search_response))
               (len (selected_chunks merge_result))
               (merge_strategy merge_result)
               (default_embedding_model settings)
               (llm_response_model llm_response))
            (llm_tokens_used llm_response)
            (llm_response_model llm_response)))
    (fun e => raise e).

End WithServices.

End RagService.

(** ** Search across collections
       (file_service/app/core/vector_integration.py, [FileVectorService]) *)

Module VectorIntegration.

Local Open Scope st_scope.

(** [d[key] = value] *)
Fixpoint dict_set {Any : Type} (key : str) (value : Any) (d : Dict Any) : Dict Any :=
  match d with
  | [] => [(key, value)]
  | (k, v) :: d' =>
      if str_eqb k key then (k, value) :: d' else (k, v) :: dict_set key value d'
  end.

(** [d.update(other)] *)
Definition dict_update {Any : Type} (d other : Dict Any) : Dict Any :=
  fold_left (fun acc kv => dict_set (fst kv) (snd kv) acc) other d.

Section WithVectorService.

(** The state of the vector index. *)
Variable W : Type.
Variable Any : Type.

(** A [str] as a value of a dict. *)
Variable str_value : str -> Any.

Record VectorSearchResult := mkVectorSearchResult {
  id : str;
  score : float;
  payload : Dict Any
}.

(** [get_vector_service(settings)], which connects to the index. *)
Variable get_vector_service : M W unit.

(** [VectorService.search_vectors] *)
Variable search_vectors :
  str -> list float -> Z -> float -> Dict Any -> M W (list VectorSearchResult).

(** The state of a [FileVectorService] and of the index behind it:
    [snd] tells whether [self.vector_service] is set. *)
Definition S : Type := W * bool.

Definition on_index {A : Type} (m : M W A) : M S A :=
  fun s => let '(r, w') := m (fst s) in (r, (w', snd s)).

(** [initialize] *)
Definition initialize : M S unit :=
  fun s =>
    if snd s then (inr tt, s)
    else match get_vector_service (fst s) with
         | (inr _, w') => (inr tt, (w', true))
         | (inl e, w') => (inl e, (w', false))
         end.

(** [if not self.vector_service: await self.initialize()] *)
Definition ensure_initialized : M S unit :=
  fun s => if snd s then (inr tt, s) else initialize s.

Definition get_collection_name (collection_id : str) : str := collection_id.

Definition search_similar_chunks (query_embedding : list float) (collection_id : str)
  (limit : Z) (score_threshold : float) (filters : option (Dict Any))
  : M S (list VectorSearchResult) :=
  ensure_initialized ;;
  let collection_name := get_collection_name collection_id in
  let search_filters := [(lit "collection_id", str_value collection_id)] in
  let search_filters :=
    match filters with
    | Some f => if truthy f then dict_update search_filters f else search_filters
    | None => search_filters
    end in
  on_index (search_vectors collection_name query_embedding limit score_threshold
              search_filters).

(** The [for collection_id in collection_ids] loop, with its [try] and
    [except ...: continue]. *)
Fixpoint across_loop (query_embedding : list float) (collection_ids : list str)
  (limit : Z) (score_threshold : float) (filters : option (Dict Any))
  (all_results : list VectorSearchResult) : M S (list VectorSearchResult) :=
  match collection_ids with
  | [] => ret all_results
  | collection_id :: rest =>
      all_results <-
        try_except
          (results <- search_similar_chunks query_embedding collection_id limit
                        score_threshold filters ;;
           ret (all_results ++ results))
          (fun _ => ret all_results) ;;
      across_loop query_embedding rest limit score_threshold filters all_results
  end.

Definition search_across_collections (query_embedding : list float)
  (collection_ids : list str) (limit : Z) (score_threshold : float)
  (filters : option (Dict Any)) : M S (list VectorSearchResult) :=
  ensure_initialized ;;
  all_results <- across_loop query_embedding collection_ids limit score_threshold
                   filters [] ;;
  ret (slice (Fusion.sorted_reverse score all_results) 0 limit).

(** What [store_chunk_embeddings] reads of a [DocumentChunk]
    (common/database/models.py). *)
Record DocumentChunk := mkDocumentChunk {
  dc_id : Fusion.UUID;
  dc_file_id : Fusion.UUID;
  dc_chunk_index : Z;
  dc_content : str;
  dc_content_length : Z;
  dc_embedding_model : str;
  dc_page_number : option Z;
  dc_section_title : option str;
  dc_chunk_metadata : option (Dict Any)
}.

(** The payload dict of a stored point, key by key. *)
Record ChunkPayload := mkChunkPayload {
  p_chunk_id : str;
  p_file_id : str;
  p_collection_id : str;
  p_chunk_index : Z;
  p_content : str;
  p_content_length : Z;
  p_embedding_model : str;
  p_page_number : option Z;
  p_section_title : option str;
  p_chunk_metadata : Dict Any
}.

Record VectorPoint := mkVectorPoint {
  vp_id : str;
  vp_vector : list float;
  vp_payload : ChunkPayload
}.

(** [str(uuid)] *)
Variable str_of_uuid : Fusion.UUID -> str.

(** [VectorService.ensure_collection] and [VectorService.upsert_points] *)
Variable ensure_collection : str -> Z -> M W bool.
Variable upsert_points : str -> list VectorPoint -> M W bool.

Definition ensure_collection_exists (collection_id : str) (vector_size : Z) : M S bool :=
  ensure_initialized ;;
  let collection_name := get_collection_name collection_id in
  on_index (ensure_collection collection_name vector_size).

(** The point built for one pair of [zip(chunks, embeddings)]. *)
Definition to_vector_point (collection_id : str)
  (ce : DocumentChunk * list float) : VectorPoint :=
  let '(chunk, embedding) := ce in
  let vector_id := str_of_uuid (dc_id chunk) in
  mkVectorPoint vector_id embedding
    (mkChunkPayload (str_of_uuid (dc_id chunk)) (str_of_uuid (dc_file_id chunk))
       collection_id (dc_chunk_index chunk) (dc_content chunk)
       (dc_content_length chunk) (dc_embedding_model chunk)
       (dc_page_number chunk) (dc_section_title chunk)
       (match dc_chunk_metadata chunk with
        | Some m => if truthy m then m else []
        | None => []
        end)).

(** [store_chunk_embeddings]; [embeddings[0]] raises on an empty list. *)
Definition store_chunk_embeddings (chunks : list DocumentChunk)
  (embeddings : list (list float)) (collection_id : str) : M S (list str) :=
  ensure_initialized ;;
  if negb (len chunks =? len embeddings)
  then raise (ValueError (lit "Number of chunks must match number of embeddings"))
  else
    match embeddings with
    | [] => raise (IndexError (lit "list index out of range"))
    | first :: _ =>
        ensure_collection_exists collection_id (len first) ;;
        let collection_name := get_collection_name collection_id in
        let pairs := combine chunks embeddings in
        let vector_ids := List.map (fun ce => str_of_uuid (dc_id (fst ce))) pairs in
        let vector_points := List.map (to_vector_point collection_id) pairs in
        success <- on_index (upsert_points collection_name vector_points) ;;
        if success then ret vector_ids
        else raise (RuntimeError (lit "Failed to store embeddings in Qdrant"))
    end.

(** [VectorService.delete_points] *)
Variable delete_points : str -> list str -> M W bool.

(** [delete_chunk_embeddings] *)
Definition delete_chunk_embeddings (chunk_ids : list str) (collection_id : str)
  : M S bool :=
  ensure_initialized ;;
  let collection_name := get_collection_name collection_id in
  let vector_ids := chunk_ids in
  on_index (delete_points collection_name vector_ids).

(** [delete_file_embeddings]: the search uses a dummy query vector of 1536
    zeros, the limit 10000 and the default score threshold. *)
Definition delete_file_embeddings (file_id : str) (collection_id : str) : M S bool :=
  ensure_initialized ;;
  let collection_name := get_collection_name collection_id in
  results <-
    on_index (search_vectors collection_name (repeat 0%float 1536) 10000 0%float
                [(lit "file_id", str_value file_id)]) ;;
  if negb (truthy results) then ret true
  else
    let vector_ids := List.map id results in
    on_index (delete_points collection_name vector_ids).

End WithVectorService.

End VectorIntegration.

(** ** The ingestion pipeline
       (file_service/app/api/files.py, [process_file_pipeline]) *)

Module Pipeline.

Inductive FileStatus := UPLOADED | PROCESSING | PROCESSED | FAILED | DELETED.

Section WithCollaborators.

(** The state of everything outside the pipeline: the database session, the
    file store, the embedding provider and the vector index. *)
Variable W : Type.
Variable Any : Type.
Variable FileType : Type.

(** What the pipeline reads from the file record. *)
Record FileRecord := mkFileRecord {
  file_path : str;
  file_type : FileType;
  collection_id : option str
}.

(** A persisted chunk record. *)
Record FileChunk := mkFileChunk {
  id : str;
  record_embedding_model : str
}.

Record ExtractionResult := mkExtractionResult {
  extracted_text : str;
  extraction_metadata : Dict Any;
  extraction_success : bool;
  extraction_error : str
}.

(** The persisted status and error message of the file, with the rest of the
    outside state. *)
Record PState := mkPState {
  ext : W;
  file_status : FileStatus;
  error_message : option str
}.

(** A step of the pipeline: it returns, raises, or (chunking only) is still
    running when the fuel is spent. *)
Definition P (A : Type) : Type := PState -> result A * PState.

Definition pret {A : Type} (a : A) : P A := fun s => (Ok a, s).

Definition pbind {A B : Type} (m : P A) (k : A -> P B) : P B :=
  fun s =>
    match m s with
    | (Ok a, s') => k a s'
    | (Raise e, s') => (Raise e, s')
    | (OutOfFuel, s') => (OutOfFuel, s')
    end.

(** [try: body except Exception as e: handler(e)] *)
Definition ptry {A : Type} (body : P A) (handler : exn -> P A) : P A :=
  fun s =>
    match body s with
    | (Raise e, s') => handler e s'
    | r => r
    end.

(** A call to a collaborator. *)
Definition on_world {A : Type} (m : M W A) : P A :=
  fun s =>
    match m (ext s) with
    | (inr a, w') => (Ok a, mkPState w' (file_status s) (error_message s))
    | (inl e, w') => (Raise e, mkPState w' (file_status s) (error_message s))
    end.

(** A computation of the process itself. *)
Definition pure_result {A : Type} (r : result A) : P A := fun s => (r, s).

Local Notation "x <- m ;; k" := (pbind m (fun x => k))
  (at level 61, m at next level, right associativity).
Local Notation "m ;; k" := (pbind m (fun _ => k))
  (at level 61, right associativity).

(** *** Collaborators *)

Variable get_file_by_id : str -> M W (option FileRecord).
Variable db_commit : M W unit.
Variable db_refresh : M W unit.
Variable extract_text : str -> FileType -> M W ExtractionResult.
Variable update_extracted_text : str -> str -> M W unit.
Variable create_chunks :
  str -> list (Chunker.Chunk Any) -> Chunker.ChunkingStrategy -> M W (list FileChunk).
Variable update_chunk_embedding :
  str -> option (list float) -> str -> option str -> M W unit.
Variable get_file_vector_service : M W unit.
Variable store_chunk_embeddings :
  list FileChunk -> list (option (list float)) -> str -> M W (list str).
Variable embedding_service : Embedder.EmbeddingService W.

(** [FileCRUD.update_file_status] (file_service/app/crud/file.py): the new
    status and message are persisted by the commit. *)
Definition update_file_status (file_id : str) (status : FileStatus)
  (message : option str) : P bool :=
  file <- on_world (get_file_by_id file_id) ;;
  match file with
  | None => pret false
  | Some _ =>
      on_world db_commit ;;
      (fun s => (Ok tt,
                 mkPState (ext s) status
                   (match message with
                    | Some m => if truthy m then Some m else error_message s
                    | None => error_message s
                    end))) ;;
      on_world db_refresh ;;
      pret true
  end.

(** The [for i, chunk_record in enumerate(chunk_records)] loop: the records
    whose chunk embedded are updated and collected. *)
Fixpoint collect_successful (records : list (nat * FileChunk))
  (enriched_chunks : list (Embedder.EnrichedChunk Any))
  (successful_embeddings : list (option (list float)))
  (successful_chunks : list FileChunk)
  : P (list (option (list float)) * list FileChunk) :=
  match records with
  | [] => pret (successful_embeddings, successful_chunks)
  | (i, chunk_record) :: rest =>
      match nth_error enriched_chunks i with
      | Some enriched =>
          if Embedder.chunk_success enriched then
            on_world (update_chunk_embedding (id chunk_record)
                        (Embedder.chunk_embedding enriched)
                        (Embedder.embedding_model enriched) None) ;;
            collect_successful rest enriched_chunks
              (successful_embeddings ++ [Embedder.chunk_embedding enriched])
              (successful_chunks ++ [chunk_record])
          else collect_successful rest enriched_chunks successful_embeddings
                 successful_chunks
      | None => collect_successful rest enriched_chunks successful_embeddings
                  successful_chunks
      end
  end.

(** [for chunk_record, vector_id in zip(successful_chunks, vector_ids)] *)
Fixpoint update_vector_ids (pairs : list (FileChunk * str)) : P unit :=
  match pairs with
  | [] => pret tt
  | (chunk_record, vector_id) :: rest =>
      on_world (update_chunk_embedding (id chunk_record) None
                  (record_embedding_model chunk_record) (Some vector_id)) ;;
      update_vector_ids rest
  end.

(** What the steps before vector storage hand on. *)
Record Prepared := mkPrepared {
  file_record : FileRecord;
  chunks : list (Chunker.Chunk Any);
  successful_embeddings : list (option (list float));
  successful_chunks : list FileChunk
}.

(** How the steps before vector storage end when they do not raise: at the
    [return] for a missing file record, at the [return] after a failed
    extraction, or ready for step 4. *)
Inductive Preparation :=
| NoFileRecord
| ExtractionFailed
| Ready (prepared : Prepared).

(** Extraction, chunking and embedding: the [try] block up to step 4. *)
Definition prepare (fuel : nat) (file_id : str)
  (chunking_strategy : Chunker.ChunkingStrategy) (chunk_size chunk_overlap : Z)
  : P Preparation :=
  file_record <- on_world (get_file_by_id file_id) ;;
  match file_record with
  | None => pret NoFileRecord
  | Some file_record =>
      update_file_status file_id PROCESSING None ;;
      extraction_result <-
        on_world (extract_text (file_path file_record) (file_type file_record)) ;;
      if negb (extraction_success extraction_result) then
        update_file_status file_id FAILED
          (Some (lit "Text extraction failed: " ++ extraction_error extraction_result)) ;;
        pret ExtractionFailed
      else
        on_world (update_extracted_text file_id (extracted_text extraction_result)) ;;
        chunks <-
          pure_result (Chunker.chunk_text fuel (extracted_text extraction_result)
                         chunking_strategy chunk_size chunk_overlap
                         (Some (extraction_metadata extraction_result))) ;;
        chunk_records <- on_world (create_chunks file_id chunks chunking_strategy) ;;
        enriched_chunks <- on_world (Embedder.embed_chunks embedding_service chunks) ;;
        successful <- collect_successful (enumerate 0 chunk_records) enriched_chunks [] [] ;;
        pret (Ready (mkPrepared file_record chunks (fst successful) (snd successful)))
  end.

(** Step 4, the storage of the embeddings in the vector index, with its own
    [try] and an [except] clause that only logs. *)
Definition vector_storage_step (prepared : Prepared) : P unit :=
  if truthy (successful_embeddings prepared) && truthy (successful_chunks prepared)
  then
    ptry
      (on_world get_file_vector_service ;;
       let collection_id :=
         match collection_id (file_record prepared) with
         | Some c => if truthy c then c else lit "default_collection"
         | None => lit "default_collection"
         end in
       vector_ids <-
         on_world (store_chunk_embeddings (successful_chunks prepared)
                     (successful_embeddings prepared) collection_id) ;;
       update_vector_ids (combine (successful_chunks prepared) vector_ids))
      (fun _ => pret tt)
  else pret tt.

(** The [try] block of [process_file_pipeline]; the processing metadata
    passed with the last status update is built from values in hand and is
    left out. *)
Definition pipeline_body (fuel : nat) (file_id : str)
  (chunking_strategy : Chunker.ChunkingStrategy) (chunk_size chunk_overlap : Z)
  : P unit :=
  prepared <- prepare fuel file_id chunking_strategy chunk_size chunk_overlap ;;
  match prepared with
  | NoFileRecord | ExtractionFailed => pret tt
  | Ready prepared =>
      vector_storage_step prepared ;;
      update_file_status file_id PROCESSED None ;;
      pret tt
  end.

(** [process_file_pipeline] *)
Definition process_file_pipeline (fuel : nat) (file_id : str)
  (chunking_strategy : Chunker.ChunkingStrategy) (chunk_size chunk_overlap : Z)
  : P unit :=
  ptry (pipeline_body fuel file_id chunking_strategy chunk_size chunk_overlap)
       (fun e =>
          update_file_status file_id FAILED
            (Some (lit "Processing pipeline failed: " ++ str_of_exn e)) ;;
          pret tt).

End WithCollaborators.

End Pipeline.

(** ** Text extraction
       (file_service/app/processing/text_extractor.py) *)

Module TextExtraction.

Local Open Scope st_scope.

(** [FileType] (common/database/models.py), in the order of its definition. *)
Inductive FileType := PDF | TXT | CSV | DOCX | MD | AUDIO.

Definition FileType_eqb (a b : FileType) : bool :=
  match a, b with
  | PDF, PDF | TXT, TXT | CSV, CSV | DOCX, DOCX | MD, MD | AUDIO, AUDIO => true
  | _, _ => false
  end.

(** [list(FileType)] *)
Definition all_file_types : list FileType := [PDF; TXT; CSV; DOCX; MD; AUDIO].

(** [str(file_type)] *)
Definition str_of_file_type (t : FileType) : str :=
  match t with
  | PDF => lit "FileType.PDF"
  | TXT => lit "FileType.TXT"
  | CSV => lit "FileType.CSV"
  | DOCX => lit "FileType.DOCX"
  | MD => lit "FileType.MD"
  | AUDIO => lit "FileType.AUDIO"
  end.

Section WithFiles.

(** The state of the file store. *)
Variable W : Type.

(** The values of a metadata dict. *)
Variable Any : Type.

(** The dict an extraction returns. *)
Record ExtractionDict := mkExtractionDict {
  text : str;
  text_length : Z;
  metadata : Dict Any;
  success : bool;
  error : option str
}.

(** [BaseTextExtractor._create_extraction_result] *)
Definition _create_extraction_result (txt : str) (meta : option (Dict Any))
  : ExtractionDict :=
  mkExtractionDict txt (len txt) (match meta with Some m => m | None => [] end)
                   true None.

(** [BaseTextExtractor._create_error_result] *)
Definition _create_error_result (error_message : str) : ExtractionDict :=
  mkExtractionDict [] 0 [] false (Some error_message).

(** An extractor: the two abstract methods of [BaseTextExtractor]. *)
Record BaseTextExtractor := mkExtractor {
  supports_file_type : FileType -> bool;
  extractor_extract_text : str -> M W ExtractionDict
}.

(** The extractors that read files through PyMuPDF, pandas and [open]. *)
Variable pdf_extract_text : str -> M W ExtractionDict.
Variable csv_extract_text : str -> M W ExtractionDict.
Variable txt_extract_text : str -> M W ExtractionDict.

Definition PDFTextExtractor : BaseTextExtractor :=
  mkExtractor (fun file_type => FileType_eqb file_type PDF) pdf_extract_text.

Definition CSVTextExtractor : BaseTextExtractor :=
  mkExtractor (fun file_type => FileType_eqb file_type CSV) csv_extract_text.

Definition TXTTextExtractor : BaseTextExtractor :=
  mkExtractor (fun file_type => existsb (FileType_eqb file_type) [TXT; MD])
              txt_extract_text.

Definition AudioTextExtractor : BaseTextExtractor :=
  mkExtractor (fun file_type => FileType_eqb file_type AUDIO)
    (fun _ => ret (_create_error_result (lit "Audio transcription not yet implemented"))).

Definition DOCXTextExtractor : BaseTextExtractor :=
  mkExtractor (fun file_type => FileType_eqb file_type DOCX)
    (fun _ => ret (_create_error_result (lit "DOCX extraction not yet implemented"))).

(** [TextExtractionService.__init__] *)
Definition extractors : list BaseTextExtractor :=
  [ PDFTextExtractor; CSVTextExtractor; TXTTextExtractor; AudioTextExtractor;
    DOCXTextExtractor ].

(** [get_extractor] *)
Definition get_extractor (file_type : FileType) : option BaseTextExtractor :=
  find (fun extractor => supports_file_type extractor file_type) extractors.

(** [os.path.exists(file_path)] *)
Variable path_exists : str -> W -> bool.

(** [TextExtractionService.extract_text] *)
Definition extract_text (file_path : str) (file_type : FileType) : M W ExtractionDict :=
  match get_extractor file_type with
  | None =>
      ret (mkExtractionDict [] 0 [] false
             (Some (lit "No extractor available for file type: "
                      ++ str_of_file_type file_type)))
  | Some extractor =>
      fun w =>
        if negb (path_exists file_path w)
        then (inr (mkExtractionDict [] 0 [] false
                     (Some (lit "File not found: " ++ file_path))), w)
        else extractor_extract_text extractor file_path w
  end.

(** [get_supported_file_types] *)
Definition get_supported_file_types : list FileType :=
  filter (fun file_type =>
            match get_extractor file_type with Some _ => true | None => false end)
         all_file_types.

(** What [process_file_pipeline] reads of the dict: ["text"], ["metadata"],
    ["success"] and, formatted into the error message, ["error"]. *)
Definition as_extraction_result (d : ExtractionDict) : Pipeline.ExtractionResult Any :=
  Pipeline.mkExtractionResult (text d) (metadata d) (success d)
    (match error d with Some e => e | None => lit "None" end).

(** [text_extraction_service.extract_text] as the pipeline calls it. *)
Definition pipeline_extract_text (file_path : str) (file_type : FileType)
  : M W (Pipeline.ExtractionResult Any) :=
  d <- extract_text file_path file_type ;;
  ret (as_extraction_result d).

End WithFiles.

End TextExtraction.

(** ** Chunk records
       (file_service/app/crud/file.py, [FileChunkCRUD.update_chunk_embedding]) *)

Module FileChunkCrud.

Local Open Scope st_scope.

(** [TypeError], raised by [len(None)]. *)
Definition len_of_None : exn :=
  OtherException (lit "object of type 'NoneType' has no len()").

Section WithSession.

(** The database session: the rows, and the attribute changes not yet
    committed. *)
Variable W : Type.

(** [db.execute(select(FileChunk).filter(FileChunk.id == chunk_id))] and
    [result.scalar_one_or_none()]: whether the chunk is found. *)
Variable select_chunk : str -> M W bool.

(** The attribute assignments on the chunk object, which stay in the
    session until a commit. *)
Variable set_embedding_model : str -> str -> W -> W.
Variable set_vector_id : str -> str -> W -> W.

(** [chunk.chunk_metadata], as a truth value. *)
Variable has_chunk_metadata : str -> W -> bool.

(** [chunk.chunk_metadata.update({...})] and [chunk.chunk_metadata = {...}]
    with the model, the dimensions and the vector id. *)
Variable update_chunk_metadata : str -> str -> Z -> option str -> W -> W.
Variable replace_chunk_metadata : str -> str -> Z -> option str -> W -> W.

Variable db_commit : M W unit.
Variable db_refresh : str -> M W unit.

(** An assignment in the session. *)
Definition assign (f : W -> W) : M W unit := fun w => (inr tt, f w).

(** [len(embedding_vector)] *)
Definition len_of (embedding_vector : option (list float)) : M W Z :=
  match embedding_vector with
  | Some v => ret (len v)
  | None => raise len_of_None
  end.

(** [update_chunk_embedding]: the answer tells whether the chunk was found. *)
Definition update_chunk_embedding (chunk_id : str)
  (embedding_vector : option (list float)) (embedding_model : str)
  (vector_id : option str) : M W bool :=
  found <- select_chunk chunk_id ;;
  if negb found then ret false
  else
    assign (set_embedding_model chunk_id embedding_model) ;;
    match vector_id with
    | Some v => if truthy v then assign (set_vector_id chunk_id v) else ret tt
    | None => ret tt
    end ;;
    (fun w =>
       if has_chunk_metadata chunk_id w
       then (dimensions <- len_of embedding_vector ;;
             assign (update_chunk_metadata chunk_id embedding_model dimensions
                       vector_id)) w
       else (dimensions <- len_of embedding_vector ;;
             assign (replace_chunk_metadata chunk_id embedding_model dimensions
                       vector_id)) w) ;;
    db_commit ;;
    db_refresh chunk_id ;;
    ret true.

(** [await FileChunkCRUD.update_chunk_embedding(...)] as the pipeline calls
    it, which does not read the answer. *)
Definition pipeline_update_chunk_embedding (chunk_id : str)
  (embedding_vector : option (list float)) (embedding_model : str)
  (vector_id : option str) : M W unit :=
  update_chunk_embedding chunk_id embedding_vector embedding_model vector_id ;;
  ret tt.

End WithSession.

End FileChunkCrud.

(* ================================================================== *)
(** * Part II: the vocabulary of the properties *)
(* ================================================================== *)

Unset Implicit Arguments.

Module ChunkerSpec.

(** The three-paragraph text of the paragraph scenario. *)
Definition three_paragraphs : str :=
  lit "Paragraph one." ++ [NL; NL]
  ++ lit "Paragraph two is longer and should still fit." ++ [NL; NL]
  ++ lit "Paragraph three.".

End ChunkerSpec.

Module FusionSpec.

Import Fusion.

(** [a] may stand before [b] in a descending list: [b]'s key is not greater. *)
Definition not_below {A : Type} (key : A -> float) (a b : A) : Prop :=
  (key a <? key b)%float = false.

(** [sum] of floats from [0.0], left to right, as repeated [+=] computes it. *)
Definition float_sum (l : list float) : float := fold_left PrimFloat.add l 0%float.

Section WithMetadata.

Context {Any : Type}.
Local Notation "'RC'" := (RetrievedChunk Any).
Local Notation "'SC'" := (Scored Any).

Definition in_collection (cid : UUID) (c : RC) : bool :=
  (collection_id c =? cid)%N.

(** What the grouping dict holds after the chunks [P] were appended. *)
Definition groups_of (P : list RC) (d : list (UUID * list RC)) : Prop :=
  NoDup (List.map fst d)
  /\ (forall cid l, In (cid, l) d -> l = filter (in_collection cid) P /\ l <> [])
  /\ (forall c, In c P -> In (collection_id c) (List.map fst d)).

(** The reciprocal-rank terms a chunk id collects over a ranked traversal. *)
Definition rrf_terms (rrf_k : float) (key : UUID) (L : list (nat * RC)) : list float :=
  flat_map (fun rc : nat * RC =>
              if (chunk_id (snd rc) =? key)%N
              then [(1 / (rrf_k + float_of_nat (fst rc)))%float] else []) L.

(** The traversal of the two nested scoring loops. *)
Definition all_ranked (groups : list (UUID * list RC)) : list (nat * RC) :=
  flat_map (fun g => rank_collection (snd g)) groups.

(** What [rrf_scores] holds after the ranked chunks [P] were processed. *)
Definition scores_of (rrf_k : float) (P : list (nat * RC)) (d : list (UUID * SC))
  : Prop :=
  NoDup (List.map fst d)
  /\ (forall key e, In (key, e) d ->
        chunk_id (sc_chunk e) = key
        /\ sc_score e = float_sum (rrf_terms rrf_k key P)
        /\ exists rnk, In (rnk, sc_chunk e) P)
  /\ (forall rc, In rc P -> In (chunk_id (snd rc)) (List.map fst d)).

(** The token estimate of a list of chunks. *)
Definition sum_tokens (l : list RC) : Z :=
  fold_right (fun c acc => chunk_tokens c + acc) 0 l.

(** Whether the first candidate left out, if any, would overrun the budget. *)
Definition overruns (max_tokens total : Z) (rest : list SC) : Prop :=
  match rest with
  | [] => True
  | item :: _ => max_tokens < total + chunk_tokens (sc_chunk item)
  end.

End WithMetadata.

(** The scenario of the fusion claim: [X] (id 10) is first in collection 1
    and third in collection 2, behind [Y] (id 20) and [Z] (id 30). *)
Definition scenario_chunk (cid coll : UUID) (sim : float) (rnk : Z)
  : RetrievedChunk unit :=
  mkRetrievedChunk cid 0%N coll (lit "text") None sim [] rnk.

Arguments scenario_chunk (cid coll)%_N sim%_float rnk%_Z.

Definition scenario : list (RetrievedChunk unit) :=
  [ scenario_chunk 10 1 0.875 1;
    scenario_chunk 20 2 0.75 1;
    scenario_chunk 30 2 0.5 2;
    scenario_chunk 10 2 0.25 3 ].

End FusionSpec.

Module EmbedderSpec.

Import Embedder.
Local Open Scope st_scope.

Section WithProvider.

Context {W : Type}.

(** What [embed_text] makes of the provider's answer. *)
Definition record_of (self : EmbeddingService W) (text : str)
  (r : exn + list float) : EmbedResult :=
  match r with
  | inr v => mkEmbedResult (Some v) (get_model_name (embedder self))
               (get_embedding_dimension (embedder self)) (len text) true None
  | inl e => mkEmbedResult None (get_model_name (embedder self))
               (get_embedding_dimension (embedder self)) (len text) false
               (Some (str_of_exn e))
  end.

(** [embed_text] on each text in turn: the sequential embedding that the
    fallback of [embed_chunks] is compared with. *)
Fixpoint embed_text_each (self : EmbeddingService W) (texts : list str)
  : M W (list EmbedResult) :=
  match texts with
  | [] => ret []
  | text :: rest =>
      r <- embed_text self text ;;
      rs <- embed_text_each self rest ;;
      ret (r :: rs)
  end.

End WithProvider.

(** The success flag and the vector of an enriched chunk and of a record of
    [embed_text]. *)
Definition flags {Any : Type} (c : EnrichedChunk Any) : bool * option (list float) :=
  (chunk_success c, chunk_embedding c).

Definition result_flags (r : EmbedResult) : bool * option (list float) :=
  (success r, embedding r).

(** A provider whose batch endpoint is down while single texts embed. *)
Definition demo_create (_ : str) (input : EmbeddingInput) : M unit (list (list float)) :=
  match input with
  | OneText _ => ret [[0.5%float]]
  | ManyTexts _ => raise (OtherException (lit "batch endpoint unavailable"))
  end.

Definition demo_service : EmbeddingService unit :=
  mkService (lit "openai")
    (OpenAIEmbedder demo_create text_embedding_3_small).

Definition demo_chunks : list (Chunker.Chunk unit) :=
  [ Chunker.mkChunk (lit "alpha") 0 0 5 [];
    Chunker.mkChunk (lit "beta") 1 5 9 [] ].

(** A digest for the mock embedder: sixteen bytes. *)
Definition demo_md5 (_ : str) : N * list N :=
  (0%N, [255; 51; 102; 153; 204; 0; 255; 51; 102; 153; 204; 0; 255; 51; 102]%N).

Definition demo_batch_error : exn :=
  RuntimeError (lit "OpenAI batch embedding generation failed: batch endpoint unavailable").

(** What [_validate_text] raises. *)
Definition blank_error : exn := ValueError (lit "Text cannot be empty").

(** What the record of a chunk with blank text looks like. *)
Definition blank_failed {Any : Type} (en : EnrichedChunk Any) : Prop :=
  forallb isspace (Chunker.text (chunk en)) = true ->
  chunk_success en = false
  /\ chunk_embedding en = None
  /\ chunk_error en
     = Some (lit "Individual embedding failed: Text cannot be empty").

End EmbedderSpec.

Module RetrievalSpec.

Import Fusion.

(** Two collections: the search of collection 1 (named "c1" in the file
    service) raises, that of collection 2 ("c2") finds one point. *)
Definition down : exn := OtherException (lit "collection unavailable").

Definition demo_point : RagService.ScoredPoint N :=
  RagService.mkScoredPoint
    [(lit "chunk_id", 7%N); (lit "document_id", 8%N); (lit "chunk_text", 9%N)]
    0.5%float.

Definition demo_qdrant_search (cid : UUID) (_ : list float) (_ : Z) (_ : float)
  (_ : option (Dict N)) : M unit (list (RagService.ScoredPoint N)) :=
  if (cid =? 1)%N then raise down else ret [demo_point].

Definition demo_request : RagService.VectorSearchRequest N :=
  RagService.mkVectorSearchRequest [0.5%float] [1%N; 2%N] 10 0 [].

Definition demo_result : VectorIntegration.VectorSearchResult N :=
  VectorIntegration.mkVectorSearchResult (lit "p") 0.5%float [].

Definition demo_search_vectors (name : str) (_ : list float) (_ : Z) (_ : float)
  (_ : Dict N) : M unit (list (VectorIntegration.VectorSearchResult N)) :=
  if str_eqb name (lit "c1") then raise down else ret [demo_result].

End RetrievalSpec.

Module StreamingSpec.

Import RagService.

Section WithMetadata.

Context {Any : Type}.
Local Notation "'SCk'" := (StreamingChunk Any).

Definition has_type (t : string) (c : SCk) : bool := str_eqb (type c) (lit t).

(** The two terminal chunk types. *)
Definition is_terminal (c : SCk) : bool := has_type "error" c || has_type "done" c.

(** The chunk types that report progress. *)
Definition is_progress (c : SCk) : bool :=
  has_type "status" c || has_type "source" c || has_type "content" c.

Definition source_chunk (s : SourceAttribution Any) : SCk :=
  mkStreamingChunk (lit "source") (SourceData s).

Definition content_chunk (fragment : str) : SCk :=
  mkStreamingChunk (lit "content") (ContentData Any fragment).

(** The chunks of a run that succeeds. *)
Definition success_trace (sources : list (SourceAttribution Any))
  (fragments : list str) (retrieved used : Z) : list SCk :=
  [ status_chunk Any "generating_embedding";
    status_chunk Any "searching_vectors";
    status_chunk Any "merging_context" ]
  ++ List.map source_chunk sources
  ++ [ status_chunk Any "generating_response" ]
  ++ List.map content_chunk fragments
  ++ [ mkStreamingChunk (lit "metadata")
         (MetadataData Any retrieved used (len sources));
       mkStreamingChunk (lit "done") (StatusData Any (lit "completed")) ].

(** The chunk the [except] clause yields. *)
Definition error_chunk (e : exn) : SCk :=
  mkStreamingChunk (lit "error") (ErrorData Any (str_of_exn e) (lit "failed")).

End WithMetadata.

(** Services for three runs of the generator: the collection searches of
    [RetrievalSpec], an embedding service that answers, and a completion
    stream of two fragments that ends well or breaks off. *)
Definition demo_settings : Settings :=
  mkSettings 60 8000 (lit "gpt-4") (lit "text-embedding-3-small").

Definition demo_embeddings_create (_ _ : str) : M unit CreateEmbeddingResponse :=
  ret (mkCreateEmbeddingResponse [[0.5%float]] (lit "text-embedding-3-small") 3).

Definition demo_stream (breaks : bool) (_ : LLMRequest) : M unit CompletionStream :=
  ret (mkCompletionStream
         [Some (lit "Hel"); None; Some []; Some (lit "lo")]
         (if breaks then Some (OtherException (lit "connection reset")) else None)).

Definition demo_rag_request (ids : list Fusion.UUID) : RAGRequest N :=
  mkRAGRequest (lit "q") ids 5 [] 0%N None.

(** The chunks a run of the generator yields, by type. *)
Definition demo_run (breaks : bool) (ids : list Fusion.UUID) : list str :=
  List.map (@type N)
    (snd (snd (process_streaming_rag_request demo_settings demo_embeddings_create
                 RetrievalSpec.demo_qdrant_search
                 (fun v => inr v) (fun v => inr [v]) (fun _ => inr [])
                 (demo_stream breaks) (demo_rag_request ids) (tt, [])))).

End StreamingSpec.

Module RagSpec.

Import Fusion RagService.

Section WithMetadata.

Context {Any : Type}.

(** What holds of a chunk that [vector_search] returns for the collections
    [ids]. *)
Definition validated_chunk (ids : list UUID) (c : RetrievedChunk Any) : Prop :=
  In (collection_id c) ids
  /\ in_unit_interval (similarity_score c) = true
  /\ 1 <= rank c
  /\ Fusion.embedding c = None.

(** The source [s] attributes the chunk [c]. *)
Definition attributes (c : RetrievedChunk Any) (s : SourceAttribution Any) : Prop :=
  sa_chunk_id s = chunk_id c
  /\ sa_document_id s = document_id c
  /\ sa_collection_id s = collection_id c
  /\ relevance_score s = similarity_score c
  /\ in_unit_interval (relevance_score s) = true
  /\ chunk_sequence s = rank c
  /\ sa_metadata s = Fusion.metadata c
  /\ len (chunk_text s) <= 203
  /\ (len (content c) <= 200 -> chunk_text s = content c)
  /\ (200 < len (content c) ->
      chunk_text s = slice (content c) 0 200 ++ lit "...").

End WithMetadata.

(** A completion service that answers. *)
Definition demo_completion (_ : LLMRequest) : M unit ChatCompletion :=
  ret (mkChatCompletion [(Some (lit "Hello"), lit "stop")] (lit "gpt-4") (Some 42)).

End RagSpec.

Module PipelineSpec.

Import Pipeline.

Section WithWorld.

Context {W : Type}.

(** [triple Pre m Post]: from a state whose file status satisfies [Pre], the
    step [m] ends with a result and a file status related by [Post]. *)
Definition triple {A : Type} (Pre : FileStatus -> Prop) (m : P W A)
  (Post : result A -> FileStatus -> Prop) : Prop :=
  forall s, Pre (file_status s) -> Post (fst (m s)) (file_status (snd (m s))).

(** The file status stays in [X], however the step ends. *)
Definition inv {A : Type} (X : FileStatus -> Prop) (m : P W A) : Prop :=
  triple X m (fun _ st => X st).

(** The step returns or raises. *)
Definition ends {A : Type} (m : P W A) : Prop :=
  forall s, fst (m s) <> OutOfFuel.

(** A collaborator that answers, whatever the outside state. *)
Definition answers {A : Type} (m : M W A) : Prop :=
  forall w, exists a w', m w = (inr a, w').

(** A collaborator that answers with [a]. *)
Definition answers_with {A : Type} (m : M W A) (a : A) : Prop :=
  forall w, exists w', m w = (inr a, w').

(** The file record is there whenever it is asked for. *)
Definition finds_file {FileType : Type}
  (get_file_by_id : str -> M W (option (FileRecord FileType))) (file_id : str) : Prop :=
  forall w, exists file w', get_file_by_id file_id w = (inr (Some file), w').

(** How a run of the pipeline can end when the database answers. *)
Inductive Outcome : Type :=
| Processed
| ExtractionRejected (error : str)
| PipelineFailed (e : exn)
| StillChunking.

Definition outcome_of (o : Outcome) (r : result unit) (s : PState W) : Prop :=
  match o with
  | Processed => r = Ok tt /\ file_status s = PROCESSED
  | ExtractionRejected error =>
      r = Ok tt /\ file_status s = FAILED
      /\ error_message s = Some (lit "Text extraction failed: " ++ error)
  | PipelineFailed e =>
      r = Ok tt /\ file_status s = FAILED
      /\ error_message s = Some (lit "Processing pipeline failed: " ++ str_of_exn e)
  | StillChunking => r = OutOfFuel /\ file_status s = PROCESSING
  end.

End WithWorld.

(** A run in which the vector index refuses the embeddings. *)
Definition index_down : exn := OtherException (lit "vector index unavailable").

Definition demo_file : FileRecord unit := mkFileRecord (lit "/data/a.txt") tt None.

Definition demo_extract (_ : str) (_ : unit) : M unit (ExtractionResult unit) :=
  ret (mkExtractionResult (lit "Hello world.") [] true []).

(** An extractor that answers with the text [txt]. *)
Definition demo_extract_text (txt : str) (_ : str) (_ : unit)
  : M unit (ExtractionResult unit) :=
  ret (mkExtractionResult txt [] true []).

Definition demo_create_chunks (_ : str) (chunks : list (Chunker.Chunk unit))
  (_ : Chunker.ChunkingStrategy) : M unit (list FileChunk) :=
  ret (List.map (fun _ => mkFileChunk (lit "chunk-0") (lit "text-embedding-3-small"))
                chunks).

End PipelineSpec.

(** ** Chunk records: vocabulary *)

Module CrudSpec.
Import FileChunkCrud.

Section WithSession.
Context {W : Type}.
Variable set_embedding_model : str -> str -> W -> W.
Variable set_vector_id : str -> str -> W -> W.

(** The session after the attribute assignments of [update_chunk_embedding]
    that come before the metadata is written: the embedding model, and the
    vector id when one is given. *)
Definition assigned (chunk_id embedding_model : str) (vector_id : option str)
  (w : W) : W :=
  match vector_id with
  | Some v =>
      if truthy v
      then set_vector_id chunk_id v (set_embedding_model chunk_id embedding_model w)
      else set_embedding_model chunk_id embedding_model w
  | None => set_embedding_model chunk_id embedding_model w
  end.

End WithSession.

(** A session that records what is done to it, latest first. *)
Inductive Event :=
| ModelAssigned (chunk_id embedding_model : str)
| VectorIdAssigned (chunk_id vector_id : str)
| MetadataWritten (chunk_id : str) (dimensions : Z)
| Committed
| Refreshed (chunk_id : str).

Definition demo_select (known : list str) (chunk_id : str) : M (list Event) bool :=
  ret (existsb (str_eqb chunk_id) known).

Definition demo_set_embedding_model (c m : str) (w : list Event) : list Event :=
  ModelAssigned c m :: w.

Definition demo_set_vector_id (c v : str) (w : list Event) : list Event :=
  VectorIdAssigned c v :: w.

Definition demo_has_metadata (_ : str) (_ : list Event) : bool := false.

Definition demo_write_metadata (c _ : str) (d : Z) (_ : option str)
  (w : list Event) : list Event :=
  MetadataWritten c d :: w.

Definition demo_commit : M (list Event) unit := fun w => (inr tt, Committed :: w).

Definition demo_refresh (c : str) : M (list Event) unit :=
  fun w => (inr tt, Refreshed c :: w).

(** What steps 1 to 3 hand on for a file of one chunk. *)
Definition demo_prepared : Pipeline.Prepared unit unit :=
  Pipeline.mkPrepared PipelineSpec.demo_file []
    [Some [1%float; 0%float]]
    [Pipeline.mkFileChunk (lit "chunk-0") (lit "text-embedding-3-small")].

End CrudSpec.

(** ** Cleaned text: vocabulary *)

Module CleanSpec.

(** Whitespace occurs in [s] only as single spaces; [after_space] tells that
    the character before [s] was whitespace. *)
Fixpoint single_spaced (after_space : bool) (s : str) : bool :=
  match s with
  | [] => true
  | c :: s' =>
      if isspace c
      then (c =? SP)%N && negb after_space && single_spaced true s'
      else single_spaced false s'
  end.

End CleanSpec.

(* ================================================================== *)
(** * Part III: properties *)
(* ================================================================== *)

(** ** Strings and lists *)

Lemma lstrip_blank s : forallb isspace s = true -> lstrip s = [].
Proof.
  induction s as [|c s IH]; simpl; auto.
  intros H. apply andb_true_iff in H as [Hc Hs]. rewrite Hc. auto.
Qed.

Lemma strip_blank s : forallb isspace s = true -> strip s = [].
Proof. intros H. unfold strip. now rewrite (lstrip_blank s H). Qed.

Lemma re_sub_ws_blank s : forall b,
  forallb isspace s = true -> forallb isspace (re_sub_ws b s) = true.
Proof.
  induction s as [|c s IH]; simpl; intros b H; auto.
  apply andb_true_iff in H as [Hc Hs]. rewrite Hc.
  destruct b; simpl; auto.
Qed.

Lemma lstrip_incl s c : In c (lstrip s) -> In c s.
Proof.
  induction s as [|x s IH]; simpl; auto.
  destruct (isspace x); simpl; auto.
Qed.

Lemma strip_incl s c : In c (strip s) -> In c s.
Proof.
  unfold strip, rstrip. intros H. apply in_rev in H.
  apply lstrip_incl in H. apply in_rev in H. now apply lstrip_incl.
Qed.

Lemma re_sub_ws_spaces s : forall b c,
  In c (re_sub_ws b s) -> isspace c = true -> c = SP.
Proof.
  induction s as [|x s IH]; simpl; intros b c Hin Hc; [contradiction|].
  destruct (isspace x) eqn:Ex.
  - destruct b; simpl in Hin.
    + eapply IH; eauto.
    + destruct Hin as [<-|Hin]; auto. eapply IH; eauto.
  - destruct Hin as [<-|Hin]; [congruence|]. eapply IH; eauto.
Qed.


Lemma enumerate_fst {A} (l : list A) n : List.map fst (enumerate n l) = seq n (List.length l).
Proof. revert n; induction l; simpl; intros; f_equal; auto. Qed.

Lemma enumerate_snd {A} (l : list A) n : List.map snd (enumerate n l) = l.
Proof. revert n; induction l; simpl; intros; f_equal; auto. Qed.

(** ** The chunker *)

Module ChunkerFacts.
Import Chunker ChunkerSpec.

Section Facts.
Context {Any : Type}.
Local Notation "'CH'" := (Chunk Any).

Lemma clean_text_blank txt : forallb isspace txt = true -> _clean_text txt = [].
Proof.
  intros H. unfold _clean_text. apply strip_blank. now apply re_sub_ws_blank.
Qed.

Lemma clean_text_no_newline txt : ~ In NL (_clean_text txt).
Proof.
  unfold _clean_text. intros H. apply strip_incl in H.
  apply re_sub_ws_spaces in H; [discriminate | reflexivity].
Qed.

(** *** The fixed-size loop *)

(** With a positive overlap the loop never leaves a start below the end of
    the text: every round ends at most at the end of the text and steps back
    from there, and the guard [start >= end] does not fire. *)
Lemma fixed_while_runs_on (self : BaseChunker) (txt : str) (meta : option (Dict Any)) :
  0 < overlap self ->
  forall fuel start chunk_index (chunks : list CH),
    start < len txt ->
    fixed_while fuel self txt meta start chunk_index chunks = OutOfFuel.
Proof.
  intros Hov. induction fuel as [|fuel IH]; intros start idx chunks Hs; simpl; auto.
  destruct (start <? len txt) eqn:E; [|apply Z.ltb_ge in E; lia].
  destruct (Z.min (start + chunk_size self) (len txt) - overlap self
            >=? Z.min (start + chunk_size self) (len txt)) eqn:G.
  - apply Z.geb_le in G. lia.
  - apply IH. lia.
Qed.

Lemma fixed_chunker_runs_on (self : BaseChunker) (txt : str) (meta : option (Dict Any)) fuel :
  0 < overlap self ->
  0 <= chunk_size self < len (_clean_text txt) ->
  FixedSizeChunker_chunk_text fuel self txt meta = OutOfFuel.
Proof.
  intros Hov Hlen. unfold FixedSizeChunker_chunk_text.
  destruct (len (_clean_text txt) <=? chunk_size self) eqn:E;
    [apply Z.leb_le in E; lia|].
  apply fixed_while_runs_on; auto. lia.
Qed.

(** *** Blank documents *)

Lemma fixed_blank (self : BaseChunker) txt (meta : option (Dict Any)) fuel :
  forallb isspace txt = true -> 0 <= chunk_size self ->
  FixedSizeChunker_chunk_text fuel self txt meta
  = Ok [mkChunk [] 0 0 0 (or_empty meta)].
Proof.
  intros Hb Hc. unfold FixedSizeChunker_chunk_text.
  rewrite (clean_text_blank txt Hb). unfold len. simpl.
  destruct (0 <=? chunk_size self) eqn:E; [reflexivity|apply Z.leb_gt in E; lia].
Qed.

Lemma recursive_blank (self : BaseChunker) txt (meta : option (Dict Any)) fuel :
  forallb isspace txt = true -> 0 <= chunk_size self ->
  RecursiveChunker_chunk_text fuel self txt meta
  = Ok [mkChunk [] 0 0 0 (or_empty meta)].
Proof.
  intros Hb Hc. unfold RecursiveChunker_chunk_text, _recursive_split.
  rewrite (clean_text_blank txt Hb). unfold len. simpl.
  destruct (0 <=? chunk_size self) eqn:E; [reflexivity|apply Z.leb_gt in E; lia].
Qed.

Lemma paragraph_blank (self : BaseChunker) txt (meta : option (Dict Any)) :
  forallb isspace txt = true ->
  ParagraphChunker_chunk_text self txt meta = [].
Proof.
  intros Hb. unfold ParagraphChunker_chunk_text.
  now rewrite (clean_text_blank txt Hb).
Qed.

(** What the service returns for a blank document, by strategy. *)
Lemma chunk_text_blank txt strategy chunk_size overlap (meta : option (Dict Any)) fuel :
  forallb isspace txt = true -> 0 <= chunk_size ->
  chunk_text fuel txt strategy chunk_size overlap meta =
  match strategy with
  | PARAGRAPH => Ok []
  | _ => Ok [mkChunk [] 0 0 0 (or_empty meta)]
  end.
Proof.
  intros Hb Hc. unfold chunk_text, chunker_chunk_text, SemanticChunker_chunk_text.
  destruct strategy.
  - rewrite fixed_blank; auto.
  - rewrite recursive_blank; auto.
  - rewrite recursive_blank; auto.
  - rewrite paragraph_blank; auto.
Qed.

(** *** Paragraphs *)

Lemma re_split_para_no_newline s : forall cur,
  ~ In NL s -> re_split_para 0 cur s = [rev cur ++ s].
Proof.
  induction s as [|c s IH]; simpl; intros cur Hn.
  - now rewrite app_nil_r.
  - destruct (N.eqb_spec c NL) as [->|Hc]; [exfalso; apply Hn; now left|].
    rewrite IH by (intros H; apply Hn; now right).
    simpl. now rewrite <- app_assoc.
Qed.

(** After the whitespace normalisation no paragraph break is left, so the
    paragraph chunker returns the whole text as one chunk, whatever its
    length, or nothing when the text is blank. *)
Lemma paragraph_chunker_one_chunk (self : BaseChunker) txt (meta : option (Dict Any)) :
  ParagraphChunker_chunk_text self txt meta =
  if truthy (strip (strip (_clean_text txt)))
  then [_create_chunk (strip (_clean_text txt)) 0 0
          (len (strip (_clean_text txt))) meta]
  else [].
Proof.
  unfold ParagraphChunker_chunk_text.
  rewrite (re_split_para_no_newline (_clean_text txt) [] (clean_text_no_newline txt)).
  cbn [rev app fold_left]. unfold paragraph_step.
  destruct (strip (_clean_text txt)) as [|c p] eqn:Ep.
  - reflexivity.
  - cbn [truthy negb]. rewrite andb_false_r.
    destruct (strip (c :: p)); reflexivity.
Qed.

End Facts.

Example clean_text_example :
  _clean_text (lit "  a " ++ [9%N; NL] ++ lit " b ") = lit "a b".
Proof. reflexivity. Qed.

Example split_example :
  split (lit "a,b,,c,") (lit ",") = Ok [lit "a"; lit "b"; []; lit "c"; []].
Proof. reflexivity. Qed.

Example re_split_para_example :
  re_split_para 0 [] (lit "ab" ++ [NL; SP; NL; NL; SP] ++ lit "cd" ++ [NL] ++ lit "e")
  = [lit "ab"; [SP] ++ lit "cd" ++ [NL] ++ lit "e"].
Proof. reflexivity. Qed.

Example recursive_example :
  chunk_text 0 (lit "ab cd, ef. gh") RECURSIVE 5 0 (@None (Dict unit))
  = Ok [ mkChunk (lit "ab cd, ef.") 0 0 11 []; mkChunk (lit "gh") 1 11 13 [] ].
Proof. reflexivity. Qed.

(** Without overlap the guard [start >= end] fires after the first window. *)
Example fixed_without_overlap :
  chunk_text 1 (lit "abc") FIXED 2 0 (@None (Dict unit))
  = Ok [ mkChunk (lit "ab") 0 0 2 [] ].
Proof. reflexivity. Qed.

(** C4: at [chunk_size = 2], [overlap = 1] and at [chunk_size = 1],
    [overlap = 1] the fixed-size chunker is still running on the text "abc"
    after any number of rounds. *)
Theorem fixed_chunking_does_not_terminate :
  forall (Any : Type) (meta : option (Dict Any)) (fuel : nat),
    chunk_text fuel (lit "abc") FIXED 2 1 meta = OutOfFuel
    /\ chunk_text fuel (lit "abc") FIXED 1 1 meta = OutOfFuel.
Proof.
  intros Any meta fuel. unfold chunk_text, chunker_chunk_text.
  split; (rewrite fixed_chunker_runs_on;
          [reflexivity | simpl; lia | split; [simpl; lia | reflexivity]]).
Qed.

(** C8: for a blank document the fixed, recursive and semantic strategies
    return one chunk with empty text; only the paragraph strategy returns no
    chunk. *)
Theorem blank_document_chunks :
  forall (Any : Type) (fuel : nat),
    chunk_text fuel (lit "   ") FIXED 1000 100 (@None (Dict Any))
      = Ok [mkChunk [] 0 0 0 []]
    /\ chunk_text fuel [] RECURSIVE 1000 100 (@None (Dict Any))
      = Ok [mkChunk [] 0 0 0 []]
    /\ chunk_text fuel (lit "   ") SEMANTIC 1000 100 (@None (Dict Any))
      = Ok [mkChunk [] 0 0 0 []]
    /\ chunk_text fuel (lit "   ") PARAGRAPH 1000 100 (@None (Dict Any)) = Ok [].
Proof.
  intros Any fuel. repeat split; rewrite chunk_text_blank; auto; lia.
Qed.

(** C9 (as amended): the three-paragraph text chunked with the paragraph
    strategy at [chunk_size = 80] gives exactly one chunk, the normalised
    text of 77 characters with all three paragraphs. *)
Theorem paragraph_scenario_one_chunk :
  forall (Any : Type) (fuel : nat) (overlap : Z),
    chunk_text fuel three_paragraphs PARAGRAPH 80 overlap (@None (Dict Any))
    = Ok [mkChunk
            (lit "Paragraph one. Paragraph two is longer and should still fit. Paragraph three.")
            0 0 77 []].
Proof.
  intros Any fuel overlap. unfold chunk_text, chunker_chunk_text.
  rewrite paragraph_chunker_one_chunk. vm_compute. reflexivity.
Qed.

Lemma paragraph_scenario_not_two_chunks :
  exists chunks,
    chunk_text 0 three_paragraphs PARAGRAPH 80 100 (@None (Dict unit)) = Ok chunks
    /\ List.length chunks <> 2%nat.
Proof.
  eexists. split; [vm_compute; reflexivity|]. simpl. lia.
Qed.

End ChunkerFacts.

(** ** Descending sort on floats *)

Lemma SFltb_asym (a b : spec_float) : SFltb a b = true -> SFltb b a = false.
Proof.
  unfold SFltb, SFcompare.
  destruct a as [sa|sa| |sa ma ea], b as [sb|sb| |sb mb eb];
    try destruct sa; try destruct sb; try discriminate; try reflexivity.
  all: rewrite (Z.compare_antisym ea eb);
    destruct (ea ?= eb); simpl; try discriminate; try reflexivity;
    change (PosDef.Pos.compare_cont Eq mb ma) with (Pos.compare mb ma);
    change (PosDef.Pos.compare_cont Eq ma mb) with (Pos.compare ma mb);
    rewrite (Pos.compare_antisym ma mb);
    destruct (Pos.compare ma mb); simpl; try discriminate; reflexivity.
Qed.

Lemma float_ltb_asym (x y : float) : (x <? y)%float = true -> (y <? x)%float = false.
Proof.
  rewrite !FloatAxioms.ltb_spec. apply SFltb_asym.
Qed.

Section Sorting.
Import Fusion FusionSpec.
Context {A : Type} (key : A -> float).

Lemma insert_desc_perm x l : Permutation (x :: l) (insert_desc key x l).
Proof.
  induction l as [|y l IH]; simpl; [reflexivity|].
  destruct (key x <? key y)%float; [|reflexivity].
  rewrite perm_swap. now apply perm_skip.
Qed.

Lemma sorted_reverse_perm l : Permutation l (sorted_reverse key l).
Proof.
  induction l as [|x l IH]; simpl; [constructor|].
  etransitivity; [apply perm_skip, IH | apply insert_desc_perm].
Qed.

Lemma sorted_reverse_length l : List.length (sorted_reverse key l) = List.length l.
Proof. symmetry. apply Permutation_length, sorted_reverse_perm. Qed.

Lemma insert_desc_hd x y l :
  (not_below key) y x -> HdRel (not_below key) y l -> HdRel (not_below key) y (insert_desc key x l).
Proof.
  intros Hyx Hl. destruct l as [|z l]; simpl.
  - now constructor.
  - destruct (key x <? key z)%float; constructor; auto.
    now inversion Hl.
Qed.

Lemma insert_desc_sorted x l :
  Sorted (not_below key) l -> Sorted (not_below key) (insert_desc key x l).
Proof.
  induction 1 as [|y l Hs IH Hh]; simpl.
  - repeat constructor.
  - destruct (key x <? key y)%float eqn:E.
    + constructor; [exact IH|].
      apply insert_desc_hd; [now apply float_ltb_asym | exact Hh].
    + constructor; [now constructor | now constructor].
Qed.

Lemma sorted_reverse_sorted l : Sorted (not_below key) (sorted_reverse key l).
Proof.
  induction l as [|x l IH]; simpl; [constructor | now apply insert_desc_sorted].
Qed.

End Sorting.


(** ** Rank fusion *)

Module FusionFacts.
Import Fusion FusionSpec.

Section FusionFacts.
Context {Any : Type}.
Local Notation "'RC'" := (RetrievedChunk Any).
Local Notation "'SC'" := (Scored Any).
(** *** Grouping *)

Lemma group_append_keys (c : RC) d :
  forall k, In k (List.map fst (group_append c d)) <->
            k = collection_id c \/ In k (List.map fst d).
Proof.
  induction d as [|[cid l] d IH]; simpl; intros k.
  - intuition.
  - destruct (N.eqb_spec cid (collection_id c)) as [->|Hne]; simpl.
    + intuition.
    + rewrite IH. intuition.
Qed.

Lemma group_append_in (c : RC) d cid l :
  NoDup (List.map fst d) ->
  In (cid, l) (group_append c d) ->
  (cid = collection_id c /\ ((exists l0, In (cid, l0) d /\ l = l0 ++ [c])
                             \/ (~ In cid (List.map fst d) /\ l = [c])))
  \/ (cid <> collection_id c /\ In (cid, l) d).
Proof.
  induction d as [|[cid' l'] d IH]; simpl; intros Hnd Hin.
  - destruct Hin as [Hin|[]]. inversion Hin; subst. left; split; auto.
  - inversion Hnd as [|? ? Hnotin Hnd']; subst.
    destruct (N.eqb_spec cid' (collection_id c)) as [Heq|Hne]; simpl in Hin.
    + destruct Hin as [Hin|Hin].
      * inversion Hin; subst. left; split; auto. left. exists l'. auto.
      * right. split; [|auto]. intros ->. apply Hnotin.
        rewrite Heq. change (collection_id c) with (fst (collection_id c, l)).
        now apply in_map.
    + destruct Hin as [Hin|Hin].
      * inversion Hin; subst. right; auto.
      * destruct (IH Hnd' Hin) as [[-> [[l0 [H1 H2]]|[H1 H2]]]|[H1 H2]].
        -- left; split; auto. left; exists l0; auto.
        -- left; split; auto. right; split; auto. intros [H|H]; auto.
        -- right; auto.
Qed.

Lemma group_append_nodup (c : RC) d :
  NoDup (List.map fst d) -> NoDup (List.map fst (group_append c d)).
Proof.
  induction d as [|[cid l] d IH]; simpl; intros Hnd.
  - repeat constructor. intros [].
  - inversion Hnd as [|? ? Hnotin Hnd']; subst.
    destruct (N.eqb_spec cid (collection_id c)) as [Heq|Hne]; simpl.
    + now constructor.
    + constructor; [|auto]. rewrite group_append_keys. intros [H|H]; auto.
Qed.

Lemma groups_of_step P d (c : RC) :
  groups_of P d -> groups_of (P ++ [c]) (group_append c d).
Proof.
  intros (Hnd & Hg & Hk). split; [|split].
  - now apply group_append_nodup.
  - intros cid l Hin. rewrite filter_app. simpl. unfold in_collection at 2.
    destruct (group_append_in _ _ _ _ Hnd Hin) as [[-> [[l0 [H1 ->]]|[H1 ->]]]|[H1 H2]].
    + rewrite N.eqb_refl. destruct (Hg _ _ H1) as [-> _]. split; auto.
      intros H. now apply app_eq_nil in H as [_ H].
    + rewrite N.eqb_refl. split; [|discriminate].
      replace (filter (in_collection (collection_id c)) P) with (@nil RC); auto.
      symmetry.
      clear Hin Hg Hnd.
      assert (forall x, In x P -> in_collection (collection_id c) x = false) as Hall.
      { intros x Hx. unfold in_collection. apply N.eqb_neq. intros E.
        apply H1. rewrite <- E. now apply Hk. }
      clear Hk. induction P as [|x P IH]; simpl; auto.
      rewrite (Hall x (or_introl eq_refl)). apply IH. intros; apply Hall; now right.
    + destruct (N.eqb_spec (collection_id c) cid) as [E|_]; [congruence|].
      rewrite app_nil_r. now apply Hg.
  - intros x Hx. apply group_append_keys. apply in_app_or in Hx as [Hx|[->|[]]]; auto.
Qed.

Lemma fold_group_append (P chunks : list RC) d :
  groups_of P d ->
  groups_of (P ++ chunks) (fold_left (fun d chunk => group_append chunk d) chunks d).
Proof.
  revert P d. induction chunks as [|c chunks IH]; simpl; intros P d H.
  - now rewrite app_nil_r.
  - replace (P ++ c :: chunks) with ((P ++ [c]) ++ chunks) by now rewrite <- app_assoc.
    apply IH. now apply groups_of_step.
Qed.

Lemma group_by_collection_spec (chunks : list RC) : groups_of chunks (group_by_collection chunks).
Proof.
  apply (fold_group_append [] chunks []).
  split; [constructor | split; [intros ? ? [] | intros ? []]].
Qed.

Variable rrf_k : float.

Lemma rrf_terms_app key (L1 L2 : list (nat * RC)) :
  rrf_terms rrf_k key (L1 ++ L2) = rrf_terms rrf_k key L1 ++ rrf_terms rrf_k key L2.
Proof. unfold rrf_terms. now rewrite flat_map_app. Qed.

Lemma rrf_terms_absent key (L : list (nat * RC)) :
  (forall rc, In rc L -> chunk_id (snd rc) <> key) -> rrf_terms rrf_k key L = [].
Proof.
  induction L as [|rc L IH]; simpl; intros H; auto.
  destruct (N.eqb_spec (chunk_id (snd rc)) key) as [E|_].
  - exfalso. now apply (H rc (or_introl eq_refl)).
  - simpl. apply IH. intros; apply H; now right.
Qed.

Lemma rrf_terms_single key rnk (c : RC) :
  rrf_terms rrf_k key [(rnk, c)] =
  if (chunk_id c =? key)%N then [(1 / (rrf_k + float_of_nat rnk))%float] else [].
Proof. unfold rrf_terms. simpl. now destruct (_ =? _)%N. Qed.

Lemma float_sum_snoc l x : float_sum (l ++ [x]) = (float_sum l + x)%float.
Proof. unfold float_sum. now rewrite fold_left_app. Qed.

Lemma rrf_add_keys (c : RC) t (d : list (UUID * SC)) :
  forall k, In k (List.map fst (rrf_add c t d)) <->
            k = chunk_id c \/ In k (List.map fst d).
Proof.
  induction d as [|[key e] d IH]; simpl; intros k.
  - intuition.
  - destruct (N.eqb_spec key (chunk_id c)) as [->|Hne]; simpl.
    + intuition.
    + rewrite IH. intuition.
Qed.

Lemma rrf_add_nodup (c : RC) t (d : list (UUID * SC)) :
  NoDup (List.map fst d) -> NoDup (List.map fst (rrf_add c t d)).
Proof.
  induction d as [|[key e] d IH]; simpl; intros Hnd.
  - repeat constructor. intros [].
  - inversion Hnd as [|? ? Hnotin Hnd']; subst.
    destruct (N.eqb_spec key (chunk_id c)) as [Heq|Hne]; simpl.
    + now constructor.
    + constructor; [|auto]. intros H. apply rrf_add_keys in H as [H|H]; auto.
Qed.

Lemma rrf_add_in (c : RC) t (d : list (UUID * SC)) key e :
  NoDup (List.map fst d) ->
  In (key, e) (rrf_add c t d) ->
  (key = chunk_id c
   /\ ((exists e0, In (key, e0) d
                   /\ e = mkScored (sc_chunk e0) (sc_score e0 + t)%float)
       \/ (~ In key (List.map fst d) /\ e = mkScored c (0 + t)%float)))
  \/ (key <> chunk_id c /\ In (key, e) d).
Proof.
  induction d as [|[key' e'] d IH]; simpl; intros Hnd Hin.
  - destruct Hin as [Hin|[]]. inversion Hin; subst. left; split; auto.
  - inversion Hnd as [|? ? Hnotin Hnd']; subst.
    destruct (N.eqb_spec key' (chunk_id c)) as [Heq|Hne]; simpl in Hin.
    + destruct Hin as [Hin|Hin].
      * inversion Hin; subst. left; split; auto. left. exists e'. auto.
      * right. split; [|auto]. intros ->. apply Hnotin.
        rewrite Heq. change (chunk_id c) with (fst (chunk_id c, e)).
        now apply in_map.
    + destruct Hin as [Hin|Hin].
      * inversion Hin; subst. right; auto.
      * destruct (IH Hnd' Hin) as [[-> [[e0 [H1 H2]]|[H1 H2]]]|[H1 H2]].
        -- left; split; auto. left; exists e0; auto.
        -- left; split; auto. right; split; auto. intros [H|H]; auto.
        -- right; auto.
Qed.

Lemma scores_of_step P d rnk (c : RC) :
  scores_of rrf_k P d ->
  scores_of rrf_k (P ++ [(rnk, c)])
            (rrf_add c (1 / (rrf_k + float_of_nat rnk))%float d).
Proof.
  intros (Hnd & Hs & Hk). split; [|split].
  - now apply rrf_add_nodup.
  - intros key e Hin. rewrite rrf_terms_app, rrf_terms_single.
    destruct (rrf_add_in _ _ _ _ _ Hnd Hin) as [[-> [[e0 [H1 ->]]|[H1 ->]]]|[H1 H2]].
    + destruct (Hs _ _ H1) as (Hid & Hsc & r0 & Hr0). cbn [sc_chunk sc_score].
      rewrite N.eqb_refl, float_sum_snoc, <- Hsc. repeat split; auto.
      exists r0. apply in_or_app; now left.
    + cbn [sc_chunk sc_score]. rewrite N.eqb_refl, float_sum_snoc.
      rewrite rrf_terms_absent.
      * repeat split; auto. exists rnk. apply in_or_app; right; now left.
      * intros rc Hrc E. apply H1. rewrite <- E. now apply Hk.
    + destruct (N.eqb_spec (chunk_id c) key) as [E|_]; [congruence|].
      rewrite app_nil_r. destruct (Hs _ _ H2) as (Hid & Hsc & r0 & Hr0).
      repeat split; auto. exists r0. apply in_or_app; now left.
  - intros rc Hrc. apply rrf_add_keys.
    apply in_app_or in Hrc as [Hrc|[<-|[]]]; auto.
Qed.

Lemma rrf_term_inr rnk t :
  rrf_term rrf_k rnk = inr t -> t = (1 / (rrf_k + float_of_nat rnk))%float.
Proof.
  unfold rrf_term. destruct (_ =? _)%float; intros H; now inversion H.
Qed.

Lemma rrf_term_inl rnk e :
  rrf_term rrf_k rnk = inl e ->
  e = ZeroDivisionError (lit "float division by zero")
  /\ (rrf_k + float_of_nat rnk =? 0)%float = true.
Proof.
  unfold rrf_term. destruct (_ =? _)%float; intros H; inversion H; auto.
Qed.

Lemma rrf_rank_loop_ok (L : list (nat * RC)) : forall P d d',
  scores_of rrf_k P d -> rrf_rank_loop rrf_k L d = inr d' ->
  scores_of rrf_k (P ++ L) d'.
Proof.
  induction L as [|[rnk c] L IH]; simpl; intros P d d' Hinv Hrun.
  - inversion Hrun; subst. now rewrite app_nil_r.
  - destruct (rrf_term rrf_k rnk) as [e|t] eqn:Et; [discriminate|].
    apply rrf_term_inr in Et. subst t.
    replace (P ++ (rnk, c) :: L) with ((P ++ [(rnk, c)]) ++ L)
      by now rewrite <- app_assoc.
    eapply IH; [|exact Hrun]. now apply scores_of_step.
Qed.

Lemma rrf_rank_loop_raise L : forall (d : list (UUID * SC)) e,
  rrf_rank_loop rrf_k L d = inl e ->
  e = ZeroDivisionError (lit "float division by zero")
  /\ exists rc, In rc L /\ (rrf_k + float_of_nat (fst rc) =? 0)%float = true.
Proof.
  induction L as [|[rnk c] L IH]; simpl; intros d e Hrun; [discriminate|].
  destruct (rrf_term rrf_k rnk) as [e'|t] eqn:Et.
  - inversion Hrun; subst. apply rrf_term_inl in Et as [-> Hz].
    split; auto. exists (rnk, c); auto.
  - destruct (IH _ _ Hrun) as [-> (rc & Hin & Hz)]. split; auto.
    exists rc; auto.
Qed.

Lemma rrf_rank_loop_app L1 L2 (d : list (UUID * SC)) :
  rrf_rank_loop rrf_k (L1 ++ L2) d =
  match rrf_rank_loop rrf_k L1 d with
  | inl e => inl e
  | inr d' => rrf_rank_loop rrf_k L2 d'
  end.
Proof.
  revert d. induction L1 as [|[rnk c] L1 IH]; simpl; intros d; auto.
  destruct (rrf_term rrf_k rnk); auto.
Qed.

Lemma rrf_collection_loop_flat groups (d : list (UUID * SC)) :
  rrf_collection_loop rrf_k groups d = rrf_rank_loop rrf_k (all_ranked groups) d.
Proof.
  revert d. induction groups as [|[cid l] groups IH]; simpl; intros d; auto.
  rewrite rrf_rank_loop_app.
  destruct (rrf_rank_loop rrf_k (rank_collection l) d); auto.
Qed.

Lemma sum_tokens_app (l1 l2 : list RC) :
  sum_tokens (l1 ++ l2) = sum_tokens l1 + sum_tokens l2.
Proof. induction l1; simpl; lia. Qed.

Lemma select_within_budget_spec max_tokens items : forall sel tot sel' tot',
  select_within_budget max_tokens items sel tot = (sel', tot') ->
  exists taken rest,
    items = taken ++ rest
    /\ sel' = sel ++ List.map (@sc_chunk Any) taken
    /\ tot' = tot + sum_tokens (List.map (@sc_chunk Any) taken)
    /\ (tot <= max_tokens -> tot' <= max_tokens)
    /\ overruns max_tokens tot' rest.
Proof.
  induction items as [|it items IH]; simpl; intros sel tot sel' tot' H.
  - inversion H; subst. exists [], []. simpl. rewrite app_nil_r.
    repeat split; auto; lia.
  - destruct (tot + chunk_tokens (sc_chunk it) <=? max_tokens) eqn:E.
    + apply Z.leb_le in E.
      destruct (IH _ _ _ _ H) as (taken & rest & -> & -> & -> & Hle & Hov).
      exists (it :: taken), rest. simpl. rewrite <- app_assoc. simpl.
      repeat split; auto; lia.
    + apply Z.leb_gt in E. inversion H; subst.
      exists [], (it :: items). simpl. rewrite app_nil_r.
      repeat split; auto; lia.
Qed.

Lemma rank_collection_ranks (l : list RC) :
  List.map fst (rank_collection l) = seq 1 (List.length l).
Proof.
  unfold rank_collection. now rewrite enumerate_fst, sorted_reverse_length.
Qed.

Lemma rank_collection_chunks (l : list RC) :
  List.map snd (rank_collection l) = sorted_reverse (@similarity_score Any) l.
Proof. unfold rank_collection. now rewrite enumerate_snd. Qed.

Lemma filter_length_le {A} (f : A -> bool) l :
  (List.length (filter f l) <= List.length l)%nat.
Proof. induction l; simpl; [lia|]. destruct (f a); simpl; lia. Qed.

Lemma all_ranked_rank_bound (chunks : list RC) rc :
  In rc (all_ranked (group_by_collection chunks)) ->
  (1 <= fst rc <= List.length chunks)%nat.
Proof.
  unfold all_ranked. rewrite in_flat_map. intros ([cid l] & Hg & Hin).
  destruct (group_by_collection_spec chunks) as (_ & Hgroups & _).
  destruct (Hgroups _ _ Hg) as [Hl _]. simpl in Hin.
  apply (in_map fst) in Hin. rewrite rank_collection_ranks in Hin.
  apply in_seq in Hin. pose proof (filter_length_le (in_collection cid) chunks).
  rewrite <- Hl in H. lia.
Qed.

Lemma all_ranked_covers (chunks : list RC) c :
  In c chunks -> exists rnk, In (rnk, c) (all_ranked (group_by_collection chunks)).
Proof.
  intros Hc.
  destruct (group_by_collection_spec chunks) as (_ & Hgroups & Hkeys).
  specialize (Hkeys _ Hc). apply in_map_iff in Hkeys as ([cid l] & Hcid & Hg).
  simpl in Hcid. subst cid. destruct (Hgroups _ _ Hg) as [Hl _].
  assert (In c l) as Hcl.
  { rewrite Hl. apply filter_In. split; auto. apply N.eqb_refl. }
  assert (In c (List.map snd (rank_collection l))) as Hr.
  { rewrite rank_collection_chunks.
    eapply Permutation_in; [apply sorted_reverse_perm | exact Hcl]. }
  apply in_map_iff in Hr as ([rnk c'] & Hc' & Hin). simpl in Hc'. subst c'.
  exists rnk. unfold all_ranked. apply in_flat_map.
  exists (collection_id c, l). auto.
Qed.

Lemma fuse_inr (chunks : list RC) items :
  fuse rrf_k chunks = inr items ->
  exists d, scores_of rrf_k (all_ranked (group_by_collection chunks)) d
            /\ items = fused_order d.
Proof.
  unfold fuse. rewrite rrf_collection_loop_flat.
  destruct (rrf_rank_loop _ _ _) as [e|d] eqn:E; intros H; inversion H; subst.
  exists d. split; auto.
  apply (rrf_rank_loop_ok _ [] [] d); auto.
  split; [constructor | split; [intros ? ? [] | intros ? []]].
Qed.

Lemma fuse_inl (chunks : list RC) e :
  fuse rrf_k chunks = inl e ->
  e = ZeroDivisionError (lit "float division by zero")
  /\ exists n, (1 <= n <= List.length chunks)%nat
               /\ (rrf_k + float_of_nat n =? 0)%float = true.
Proof.
  unfold fuse. rewrite rrf_collection_loop_flat.
  destruct (rrf_rank_loop _ _ _) as [e'|d] eqn:E; intros H; inversion H; subst.
  apply rrf_rank_loop_raise in E as [-> (rc & Hin & Hz)]. split; auto.
  exists (fst rc). split; auto. now apply all_ranked_rank_bound.
Qed.

Lemma fused_order_sorted (d : list (UUID * SC)) :
  Sorted (not_below (@sc_score Any)) (fused_order d).
Proof. apply sorted_reverse_sorted. Qed.

Lemma fused_order_in (d : list (UUID * SC)) it :
  In it (fused_order d) <-> In it (List.map snd d).
Proof.
  unfold fused_order. split; intros H.
  - eapply Permutation_in; [symmetry; apply sorted_reverse_perm | exact H].
  - eapply Permutation_in; [apply sorted_reverse_perm | exact H].
Qed.


(** C1 (as amended): for every non-negative token budget, the result of
    [merge_contexts] has [total_tokens] at most the budget; [total_tokens] is
    the sum of [len(content) // 4] over the selected chunks; the selected
    chunks are a prefix of the candidates in descending fused-score order, and
    the first candidate left out, if any, would overrun the budget.  The call
    returns unless a denominator [rrf_k + rank] is zero. *)
Theorem merge_contexts_token_budget (chunks : list RC) (query : str) (max_tokens : Z) :
  0 <= max_tokens ->
  match merge_contexts rrf_k chunks query max_tokens with
  | inr r =>
      total_tokens r <= max_tokens
      /\ total_tokens r = sum_tokens (selected_chunks r)
      /\ exists taken rest,
           fuse rrf_k chunks = inr (taken ++ rest)
           /\ Sorted (not_below (@sc_score Any)) (taken ++ rest)
           /\ selected_chunks r = List.map (@sc_chunk Any) taken
           /\ overruns max_tokens (total_tokens r) rest
  | inl e =>
      e = ZeroDivisionError (lit "float division by zero")
      /\ exists n, (1 <= n <= List.length chunks)%nat
                   /\ (rrf_k + float_of_nat n =? 0)%float = true
  end.
Proof.
  intros Hm. unfold merge_contexts.
  destruct (fuse rrf_k chunks) as [e|items] eqn:Ef.
  - now apply fuse_inl.
  - destruct (select_within_budget max_tokens items [] 0) as [sel tot] eqn:Es.
    apply select_within_budget_spec in Es
      as (taken & rest & Hitems & Hsel & Htot & Hle & Hov).
    simpl in Hsel, Htot. cbn [total_tokens selected_chunks]. subst sel.
    split; [now apply Hle|]. split; [exact Htot|].
    exists taken, rest. rewrite <- Hitems. repeat split; auto.
    destruct (fuse_inr _ _ Ef) as (d & _ & ->). apply fused_order_sorted.
Qed.


Lemma fuse_scores (chunks : list RC) items :
  fuse rrf_k chunks = inr items ->
  NoDup (List.map (fun it : SC => chunk_id (sc_chunk it)) items)
  /\ (forall c, In c chunks ->
        exists it, In it items /\ chunk_id (sc_chunk it) = chunk_id c)
  /\ (forall it, In it items ->
        sc_score it =
        float_sum (rrf_terms rrf_k (chunk_id (sc_chunk it))
                             (all_ranked (group_by_collection chunks)))).
Proof.
  intros Hf. destruct (fuse_inr _ _ Hf) as (d & (Hnd & Hs & Hk) & ->).
  assert (forall it, In it (List.map snd d) -> In (chunk_id (sc_chunk it), it) d) as Hpair.
  { intros it Hit. apply in_map_iff in Hit as ([key e] & He & Hin). simpl in He.
    subst e. now destruct (Hs _ _ Hin) as (-> & _). }
  split; [|split].
  - apply (Permutation_NoDup (l := List.map fst d)); [|exact Hnd].
    transitivity (List.map (fun it : SC => chunk_id (sc_chunk it)) (List.map snd d)).
    + rewrite map_map. apply Permutation_refl'. apply map_ext_in.
      intros [key e] Hin. simpl. now destruct (Hs _ _ Hin) as (-> & _).
    + apply Permutation_map. apply sorted_reverse_perm.
  - intros c Hc. destruct (all_ranked_covers _ _ Hc) as (rnk & Hin).
    specialize (Hk _ Hin). simpl in Hk.
    apply in_map_iff in Hk as ([key e] & Hkey & Hd). simpl in Hkey. subst key.
    exists e. destruct (Hs _ _ Hd) as (Hid & _). split; auto.
    apply fused_order_in. change e with (snd (chunk_id c, e)). now apply in_map.
  - intros it Hit. apply fused_order_in in Hit. apply Hpair in Hit.
    now destruct (Hs _ _ Hit) as (_ & Hsc & _).
Qed.

End FusionFacts.

Lemma merge_contexts_token_budget_witness :
  0 <= 8000
  /\ match merge_contexts 60 scenario (lit "q") 8000 with
     | inr r => total_tokens r <= 8000
     | inl _ => False
     end.
Proof.
  split; [lia|].
  pose proof (merge_contexts_token_budget 60 scenario (lit "q") 8000) as H.
  destruct (merge_contexts 60 scenario (lit "q") 8000) as [e|r] eqn:E.
  - discriminate E.
  - apply H. lia.
Defined.

Lemma merge_contexts_negative_budget :
  exists r, merge_contexts 60 (@nil (RetrievedChunk unit)) (lit "q") (-1) = inr r
            /\ ~ total_tokens r <= -1.
Proof.
  eexists. split; [reflexivity|]. simpl. lia.
Qed.

(** The scenario under a budget of two tokens: each chunk counts
    [len("text") // 4 = 1], so the first two candidates are taken. *)
Example merge_scenario_budget :
  match merge_contexts 60 scenario (lit "q") 2 with
  | inr r =>
      List.map (@chunk_id unit) (selected_chunks r) = [10%N; 20%N]
      /\ total_tokens r = 2
      /\ merged_context r
         = lit "[Source 1] text" ++ [NL; NL] ++ lit "[Source 2] text"
  | inl _ => False
  end.
Proof. vm_compute. repeat split; reflexivity. Qed.


End FusionFacts.

(** ** The embedder *)

Module EmbedderFacts.
Import Embedder EmbedderSpec.
Local Open Scope st_scope.

Section Facts.
Context {W : Type}.
Variable embeddings_create : str -> EmbeddingInput -> M W (list (list float)).
Variable md5_digest : str -> N * list N.

Lemma validate_blank text :
  forallb isspace text = true ->
  _validate_text text = inl (ValueError (lit "Text cannot be empty")).
Proof.
  intros H. unfold _validate_text. rewrite (strip_blank text H). simpl.
  now rewrite orb_true_r.
Qed.

Lemma validate_error text e :
  _validate_text text = inl e -> e = ValueError (lit "Text cannot be empty").
Proof.
  unfold _validate_text. destruct (_ || _); intros H; now inversion H.
Qed.

Lemma OpenAI_failure_message model text (w : W) e w1 :
  OpenAI_generate_embedding embeddings_create model text w = (inl e, w1) ->
  str_of_exn e <> [].
Proof.
  unfold OpenAI_generate_embedding, mbind, lift_exn, try_except, raise, ret.
  destruct (_validate_text text) as [ev|v] eqn:Ev.
  - intros H. inversion H; subst. apply validate_error in Ev. subst. discriminate.
  - destruct (embeddings_create _ _ w) as [[ex|data] w'].
    + intros H. inversion H; subst. discriminate.
    + destruct data; intros H; inversion H; subst. discriminate.
Qed.

Lemma Mock_failure_message dim text (w : W) e w1 :
  Mock_generate_embedding md5_digest dim text w = (inl e, w1) ->
  str_of_exn e <> [].
Proof.
  unfold Mock_generate_embedding, mbind, lift_exn, raise, ret.
  destruct (_validate_text text) as [ev|v] eqn:Ev.
  - intros H. inversion H; subst. apply validate_error in Ev. subst. discriminate.
  - destruct (utf8_encodable v).
    + simpl. destruct (md5_digest v). discriminate.
    + simpl. intros H. inversion H; subst. discriminate.
Qed.

Lemma provider_failure_message prov model dim emb text (w : W) e w1 :
  _create_embedder embeddings_create md5_digest prov model dim = inr emb ->
  generate_embedding emb text w = (inl e, w1) ->
  str_of_exn e <> [].
Proof.
  unfold _create_embedder.
  destruct (str_eqb prov (lit "openai")).
  - intros H; inversion H; subst. simpl. apply OpenAI_failure_message.
  - destruct (str_eqb prov (lit "mock")); intros H; inversion H; subst.
    simpl. apply Mock_failure_message.
Qed.

Lemma provider_rejects_blank prov model dim emb text (w : W) :
  _create_embedder embeddings_create md5_digest prov model dim = inr emb ->
  forallb isspace text = true ->
  generate_embedding emb text w = (inl (ValueError (lit "Text cannot be empty")), w).
Proof.
  unfold _create_embedder. intros Hc Hb.
  destruct (str_eqb prov (lit "openai")).
  - inversion Hc; subst. simpl.
    unfold OpenAI_generate_embedding, mbind, lift_exn.
    now rewrite (validate_blank text Hb).
  - destruct (str_eqb prov (lit "mock")); inversion Hc; subst. simpl.
    unfold Mock_generate_embedding, mbind, lift_exn.
    now rewrite (validate_blank text Hb).
Qed.

Lemma embed_text_run (self : EmbeddingService W) text w :
  embed_text self text w =
  (inr (record_of self text (fst (generate_embedding (embedder self) text w))),
   snd (generate_embedding (embedder self) text w)).
Proof.
  unfold embed_text, try_except, mbind, ret.
  now destruct (generate_embedding (embedder self) text w) as [[e|v] w'].
Qed.

Section Chunks.
Context {Any : Type}.
Local Notation "'CH'" := (Chunker.Chunk Any).

Lemma individually_refines (self : EmbeddingService W) (chunks : list CH) msg :
  forall w, exists enriched records w',
    _embed_chunks_individually self chunks msg w = (inr enriched, w')
    /\ embed_text_each self (List.map (@Chunker.text Any) chunks) w = (inr records, w')
    /\ List.map (@chunk Any) enriched = chunks
    /\ List.map flags enriched = List.map result_flags records.
Proof.
  induction chunks as [|c chunks IH]; intros w.
  - exists [], [], w. repeat split.
  - cbn [_embed_chunks_individually embed_text_each List.map].
    unfold mbind. rewrite embed_text_run. unfold try_except, ret.
    destruct (generate_embedding (embedder self) (Chunker.text c) w) as [[e|v] w1];
      cbn [fst snd record_of];
      destruct (IH w1) as (enriched & records & w2 & H1 & H2 & H3 & H4);
      unfold mbind, ret in H1, H2; rewrite H1, H2;
      eexists _, _, w2; repeat split; cbn [List.map]; try rewrite H3; try rewrite H4;
      reflexivity.
Qed.

Lemma enrich_batch_chunks (self : EmbeddingService W) ichunks embeddings enriched :
  enrich_batch self ichunks embeddings = inr enriched ->
  List.map (@chunk Any) enriched = List.map snd ichunks.
Proof.
  revert enriched. induction ichunks as [|[i c] rest IH]; simpl; intros enriched H.
  - now inversion H.
  - destruct (nth_error embeddings i); [|discriminate].
    destruct (enrich_batch self rest embeddings) as [ex|l0]; [discriminate|].
    inversion H; subst. simpl. f_equal. now apply IH.
Qed.

Lemma embed_chunks_total (self : EmbeddingService W) (chunks : list CH) w :
  exists enriched w',
    embed_chunks self chunks w = (inr enriched, w')
    /\ List.map (@chunk Any) enriched = chunks.
Proof.
  unfold embed_chunks. destruct chunks as [|c chunks].
  - exists [], w. split; reflexivity.
  - cbn [truthy negb]. set (cs := c :: chunks).
    unfold try_except, mbind, lift_exn.
    destruct (generate_embeddings _ _ w) as [[e|embs] w1].
    + destruct (individually_refines self cs (str_of_exn e) w1)
        as (enriched & _ & w2 & H1 & _ & H3 & _).
      exists enriched, w2. split; auto.
    + destruct (enrich_batch self (enumerate 0 cs) embs) as [ex|enriched] eqn:Eb.
      * destruct (individually_refines self cs (str_of_exn ex) w1)
          as (enriched & _ & w2 & H1 & _ & H3 & _).
        exists enriched, w2. split; auto.
      * exists enriched, w1. split; auto.
        apply enrich_batch_chunks in Eb. rewrite Eb.
        apply enumerate_snd.
Qed.

(** C6: when the batch call fails, [embed_chunks] answers with one record
    per chunk, in order, whose success flags and vectors are those of
    [embed_text] run on each chunk's text in turn (from the state the failed
    batch call left). *)
Theorem batch_fallback_equivalence (self : EmbeddingService W) (chunks : list CH)
  (w w1 : W) (e : exn) :
  chunks <> [] ->
  generate_embeddings (embedder self) (List.map (@Chunker.text Any) chunks) w
    = (inl e, w1) ->
  exists enriched records w2,
    embed_chunks self chunks w = (inr enriched, w2)
    /\ embed_text_each self (List.map (@Chunker.text Any) chunks) w1 = (inr records, w2)
    /\ List.length enriched = List.length chunks
    /\ List.map (@chunk Any) enriched = chunks
    /\ List.map flags enriched = List.map result_flags records.
Proof.
  intros Hne Hbatch.
  destruct (individually_refines self chunks (str_of_exn e) w1)
    as (enriched & records & w2 & H1 & H2 & H3 & H4).
  exists enriched, records, w2. repeat split; auto.
  - unfold embed_chunks. destruct chunks as [|c chunks]; [congruence|].
    cbn [truthy negb]. unfold try_except, mbind. now rewrite Hbatch.
  - apply (f_equal (@List.length _)) in H3. now rewrite length_map in H3.
Qed.

End Chunks.
End Facts.

Lemma slice_prefix_length {A} (l : list A) k :
  0 <= k <= len l -> len (slice l 0 k) = k.
Proof.
  intros Hk. unfold slice, norm_index, len in *. simpl.
  destruct (k <? 0) eqn:E; [apply Z.ltb_lt in E; lia|].
  rewrite Z.min_l by lia. rewrite Z.min_l by lia.
  rewrite Z.sub_0_r. simpl. rewrite length_firstn. lia.
Qed.

Lemma pad_while_reaches dimension fuel : forall embedding,
  embedding <> [] ->
  dimension - len embedding <= Z.of_nat fuel ->
  dimension <= len (pad_while fuel dimension embedding).
Proof.
  induction fuel as [|fuel IH]; intros e Hne Hfuel; simpl.
  - lia.
  - destruct (len e <? dimension) eqn:E; [|apply Z.ltb_ge in E; lia].
    apply Z.ltb_lt in E.
    assert (0 < len e) as Hpos.
    { destruct e; [congruence|]. unfold len. simpl. lia. }
    apply IH.
    + destruct e; [congruence|discriminate].
    + unfold len at 1. rewrite length_app. fold (len e).
      rewrite Nat2Z.inj_add. fold (len e).
      fold (len (slice e 0 (Z.min (len e) (dimension - len e)))).
      rewrite slice_prefix_length by lia. lia.
Qed.

(** The mock embedder pads its sixteen values to the dimension, or cuts
    them down to it. *)
Example mock_embedding_lengths :
  match Mock_generate_embedding demo_md5 40 (lit "some text") tt,
        Mock_generate_embedding demo_md5 5 (lit "some text") tt with
  | (inr long, _), (inr short, _) =>
      List.length long = 40%nat
      /\ short = [(-0.5)%float; 0.5%float; (51 / 255 - 0.5)%float;
                  (102 / 255 - 0.5)%float; (153 / 255 - 0.5)%float]
  | _, _ => False
  end.
Proof. vm_compute. split; reflexivity. Qed.

Example mock_rejects_blank :
  embed_text (mkService (lit "mock") (MockEmbedder unit demo_md5 8)) (lit "  ") tt
  = (inr (mkEmbedResult None (lit "mock-embedder") 8 2 false
            (Some (lit "Text cannot be empty"))), tt).
Proof. reflexivity. Qed.

(** C10: [embed_text] always answers with a record: the provider's failure
    becomes [success = false], no vector and the exception's message, which
    for the two providers of [_create_embedder] is not empty and, for empty or
    whitespace-only text, is the validator's; [embed_chunks] always answers
    with one record per chunk, in order. *)
Theorem embed_text_never_raises :
  forall (W : Type)
         (embeddings_create : str -> EmbeddingInput -> M W (list (list float)))
         (md5_digest : str -> N * list N),
    (forall (self : EmbeddingService W) (text : str) (w : W),
        exists r w',
          embed_text self text w = (inr r, w')
          /\ (forall v w1, generate_embedding (embedder self) text w = (inr v, w1) ->
                success r = true /\ embedding r = Some v /\ error r = None)
          /\ (forall e w1, generate_embedding (embedder self) text w = (inl e, w1) ->
                success r = false /\ embedding r = None
                /\ error r = Some (str_of_exn e)))
    /\ (forall prov model dim emb name (text : str) (w : W),
          _create_embedder embeddings_create md5_digest prov model dim = inr emb ->
          (forall e w1, generate_embedding emb text w = (inl e, w1) ->
             exists r msg,
               embed_text (mkService name emb) text w = (inr r, w1)
               /\ success r = false /\ embedding r = None
               /\ error r = Some msg /\ msg <> [])
          /\ (forallb isspace text = true ->
              exists r,
                embed_text (mkService name emb) text w = (inr r, w)
                /\ success r = false /\ embedding r = None
                /\ error r = Some (lit "Text cannot be empty")))
    /\ (forall (Any : Type) (self : EmbeddingService W)
               (chunks : list (Chunker.Chunk Any)) (w : W),
          exists enriched w',
            embed_chunks self chunks w = (inr enriched, w')
            /\ List.length enriched = List.length chunks
            /\ List.map (@chunk Any) enriched = chunks).
Proof.
  intros W create md5. split; [|split].
  - intros self text w. eexists _, _. split; [apply embed_text_run|].
    split; intros x w1 H; rewrite H; simpl; auto.
  - intros prov model dim emb name text w Hc. split.
    + intros e w1 H. eexists _, _. rewrite embed_text_run. cbn [embedder].
      rewrite H. cbn [fst snd record_of success embedding error].
      repeat split. eapply provider_failure_message; eauto.
    + intros Hb. eexists. rewrite embed_text_run. cbn [embedder].
      rewrite (provider_rejects_blank create md5 _ _ _ _ _ w Hc Hb).
      cbn [fst snd record_of success embedding error]. auto.
  - intros Any self chunks w.
    destruct (embed_chunks_total self chunks w) as (enriched & w' & H1 & H2).
    exists enriched, w'. repeat split; auto.
    apply (f_equal (@List.length _)) in H2. now rewrite length_map in H2.
Qed.

Lemma batch_fallback_equivalence_witness :
  demo_chunks <> []
  /\ generate_embeddings (embedder demo_service)
       (List.map (@Chunker.text unit) demo_chunks) tt = (inl demo_batch_error, tt)
  /\ exists enriched records w2,
       embed_chunks demo_service demo_chunks tt = (inr enriched, w2)
       /\ embed_text_each demo_service (List.map (@Chunker.text unit) demo_chunks) tt
          = (inr records, w2)
       /\ List.length enriched = List.length demo_chunks
       /\ List.map (@chunk unit) enriched = demo_chunks
       /\ List.map flags enriched = List.map result_flags records.
Proof.
  split; [discriminate|]. split; [reflexivity|].
  apply (batch_fallback_equivalence demo_service demo_chunks tt tt demo_batch_error).
  - discriminate.
  - reflexivity.
Defined.

End EmbedderFacts.

(** ** The streaming generator *)

Module StreamingFacts.
Import Fusion RagService StreamingSpec.
Local Open Scope st_scope.

Section Facts.
Context {W Any : Type}.
Variable settings : Settings.
Variable embeddings_create : str -> str -> M W CreateEmbeddingResponse.
Variable qdrant_search :
  UUID -> list float -> Z -> float -> option (Dict Any) -> M W (list (ScoredPoint Any)).
Variable parse_uuid : Any -> exn + UUID.
Variable validate_str : Any -> exn + str.
Variable validate_dict : Any -> exn + Dict Any.
Variable chat_completions_create_stream : LLMRequest -> M W CompletionStream.

Local Notation "'SCk'" := (StreamingChunk Any).

Lemma yield_each_run {A : Type} (f : A -> SCk) (l : list A) (w : W) (evs : list SCk) :
  yield_each f l (w, evs) = (inr tt, (w, evs ++ List.map f l)).
Proof.
  revert evs. induction l as [|x l IH]; intros evs; simpl.
  - now rewrite app_nil_r.
  - unfold mbind, yield_. simpl. rewrite IH. now rewrite <- app_assoc.
Qed.

Lemma progress_sources (l : list (SourceAttribution Any)) :
  forallb is_progress (List.map source_chunk l) = true.
Proof. induction l; simpl; auto. Qed.

Lemma progress_contents l :
  forallb is_progress (List.map (@content_chunk Any) l) = true.
Proof. induction l; simpl; auto. Qed.

Lemma progress_not_terminal (pre : list SCk) :
  forallb is_progress pre = true ->
  forallb (fun c => negb (is_terminal c)) pre = true.
Proof.
  induction pre as [|c pre IH]; simpl; auto.
  intros H. apply andb_true_iff in H as [Hc Hp]. rewrite (IH Hp), andb_true_r.
  unfold is_progress, is_terminal, has_type in *.
  destruct (type c) as [|c1 [|c2 [|c3 [|c4 [|c5 [|c6 [|c7 [|c8 t]]]]]]]];
    try discriminate; simpl in *.
  all: repeat match goal with
       | H : context [(?x =? ?n)%N] |- _ =>
           destruct (N.eqb_spec x n); subst; simpl in H; try discriminate
       end; reflexivity.
Qed.

Local Notation "'body'" :=
  (streaming_body settings embeddings_create qdrant_search parse_uuid
                  validate_str validate_dict chat_completions_create_stream).

(** The [try] block either runs through, yielding the chunks of a
    successful run, or raises after progress chunks only. *)
Lemma streaming_body_run (request : RAGRequest Any) (w : W) :
  (exists w' sources fragments retrieved used,
      body request (w, []) =
      (inr tt, (w', success_trace sources fragments retrieved used)))
  \/ (exists e w' pre,
         body request (w, []) = (inl e, (w', pre))
         /\ forallb is_progress pre = true).
Proof.
  unfold streaming_body, mbind, yield_, call, lift_exn. simpl.
  destruct (generate_embedding embeddings_create _ w) as [[e|resp] w1].
  { right. exists e, w1, [status_chunk Any "generating_embedding"]. split; reflexivity. }
  simpl.
  destruct (make_search_request _ _ _ _ _) as [e|sreq].
  { right. eexists e, w1, _. split; reflexivity. }
  destruct (vector_search qdrant_search parse_uuid validate_str validate_dict sreq w1)
    as [[e|sresp] w2].
  { right. eexists e, w2, _. split; reflexivity. }
  simpl.
  destruct (merge_contexts _ _ _ _) as [e|mres].
  { right. eexists e, w2, _. split; reflexivity. }
  destruct (_extract_source_attribution validate_str (selected_chunks mres)) as [e|sources].
  { right. eexists e, w2, _. split; reflexivity. }
  rewrite yield_each_run. simpl.
  destruct (stream_llm_response chat_completions_create_stream _ w2)
    as [[e|[fragments err]] w3] eqn:Es.
  { unfold stream_llm_response in Es.
    destruct (chat_completions_create_stream _ w2) as [[?|?] ?]; discriminate. }
  simpl. rewrite yield_each_run.
  destruct err as [e|]; simpl.
  - right. eexists e, w3, _. split; [reflexivity|].
    simpl. rewrite !forallb_app, progress_sources, progress_contents. reflexivity.
  - left. exists w3, sources, fragments, (len (chunks sresp)), (len (selected_chunks mres)).
    unfold success_trace, yield_. simpl. rewrite <- !app_assoc. reflexivity.
Qed.

Local Notation "'process'" :=
  (process_streaming_rag_request settings embeddings_create qdrant_search
     parse_uuid validate_str validate_dict chat_completions_create_stream).

(** C3: the streaming generator finishes without raising, and exactly one
    of the chunks it yields is terminal, the last one.  When the [try]
    block runs through, the stream is what the block yielded: status, source
    and content chunks, then the metadata chunk, then the done chunk.  When
    the block raises [e], the stream is the progress chunks the block had
    yielded followed by the one error chunk that carries [str(e)].  Stage by
    stage: a failure of the embedding, of the search request, of the vector
    search, of the merge, of the source attribution or of the completion
    stream ends the stream with the error chunk of that failure, after the
    progress chunks sent so far; when every stage answers, the stream is the
    success trace of the sources, the fragments and the counts. *)
Theorem streaming_one_terminal_event (request : RAGRequest Any) (w : W) :
  let embed :=
    generate_embedding embeddings_create
      (mkEmbeddingRequest (query request) (lit "text-embedding-3-small")) in
  let search_request_of emb :=
    make_search_request Any (embedding emb) (collection_ids request)
      (top_k request * 2) 0%float in
  let search := vector_search qdrant_search parse_uuid validate_str validate_dict in
  let merge sresp :=
    merge_contexts (rrf_k settings) (chunks sresp) (query request)
      (max_context_tokens settings) in
  let attribute mres :=
    _extract_source_attribution validate_str (selected_chunks mres) in
  let complete mres :=
    stream_llm_response chat_completions_create_stream
      (mkLLMRequest (_build_prompt (query request) (merged_context mres))
         (merged_context mres) (default_model settings)
         0x1.999999999999ap-4%float 1000 true) in
  fst (process request (w, [])) = inr tt
  /\ ((exists sources fragments retrieved used,
          snd (snd (process request (w, [])))
          = success_trace sources fragments retrieved used)
      \/ (exists e pre,
             snd (snd (process request (w, []))) = pre ++ [error_chunk e]
             /\ forallb is_progress pre = true))
  /\ (exists pre last,
         snd (snd (process request (w, []))) = pre ++ [last]
         /\ is_terminal last = true
         /\ forallb (fun c => negb (is_terminal c)) pre = true)
  /\ (forall w' yielded,
         body request (w, []) = (inr tt, (w', yielded)) ->
         process request (w, []) = (inr tt, (w', yielded))
         /\ exists sources fragments retrieved used,
              yielded = success_trace sources fragments retrieved used)
  /\ (forall e w' yielded,
         body request (w, []) = (inl e, (w', yielded)) ->
         process request (w, []) = (inr tt, (w', yielded ++ [error_chunk e]))
         /\ forallb is_progress yielded = true)
  /\ (forall e w1,
      embed w = (inl e, w1) ->
      process request (w, [])
      = (inr tt, (w1, [status_chunk Any "generating_embedding"; error_chunk e])))
  /\ (forall emb w1,
        embed w = (inr emb, w1) ->
        (forall e,
            search_request_of emb = inl e ->
            process request (w, [])
            = (inr tt, (w1, [status_chunk Any "generating_embedding";
                             status_chunk Any "searching_vectors";
                             error_chunk e])))
        /\ (forall sreq,
              search_request_of emb = inr sreq ->
              (forall e w2,
                  search sreq w1 = (inl e, w2) ->
                  process request (w, [])
                  = (inr tt, (w2, [status_chunk Any "generating_embedding";
                                   status_chunk Any "searching_vectors";
                                   error_chunk e])))
              /\ (forall sresp w2,
                    search sreq w1 = (inr sresp, w2) ->
                    (forall e,
                        merge sresp = inl e ->
                        process request (w, [])
                        = (inr tt, (w2, [status_chunk Any "generating_embedding";
                                         status_chunk Any "searching_vectors";
                                         status_chunk Any "merging_context";
                                         error_chunk e])))
                    /\ (forall mres,
                          merge sresp = inr mres ->
                          (forall e,
                              attribute mres = inl e ->
                              process request (w, [])
                              = (inr tt,
                                 (w2, [status_chunk Any "generating_embedding";
                                       status_chunk Any "searching_vectors";
                                       status_chunk Any "merging_context";
                                       error_chunk e])))
                          /\ (forall sources,
                                attribute mres = inr sources ->
                                exists fragments failure w3,
                                  complete mres w2 = (inr (fragments, failure), w3)
                                  /\ process request (w, [])
                                     = (inr tt,
                                        (w3,
                                         match failure with
                                         | None =>
                                             success_trace sources fragments
                                               (len (chunks sresp))
                                               (len (selected_chunks mres))
                                         | Some e =>
                                             [status_chunk Any "generating_embedding";
                                              status_chunk Any "searching_vectors";
                                              status_chunk Any "merging_context"]
                                             ++ List.map source_chunk sources
                                             ++ [status_chunk Any "generating_response"]
                                             ++ List.map content_chunk fragments
                                             ++ [error_chunk e]
                                         end))))))).
Proof.
  cbv zeta.
  assert (Hproc : forall st,
             process request st
             = try_except (body request)
                 (fun e => yield_ (error_chunk e)) st) by reflexivity.
  split; [|split; [|split; [|split; [|split]]]].
  1-5: rewrite ?Hproc; unfold try_except;
       destruct (streaming_body_run request w)
         as [(w' & sources & fragments & retrieved & used & Hrun)
            |(e & w' & pre & Hrun & Hpre)];
       rewrite Hrun; cbn [fst snd yield_].
  - reflexivity.
  - reflexivity.
  - left. now exists sources, fragments, retrieved, used.
  - right. now exists e, pre.
  - exists ([ status_chunk Any "generating_embedding";
              status_chunk Any "searching_vectors";
              status_chunk Any "merging_context" ]
            ++ List.map source_chunk sources
            ++ [ status_chunk Any "generating_response" ]
            ++ List.map content_chunk fragments
            ++ [ mkStreamingChunk (lit "metadata")
                   (MetadataData Any retrieved used (len sources)) ]),
           (mkStreamingChunk (lit "done") (StatusData Any (lit "completed"))).
    split; [|split].
    + unfold success_trace. rewrite <- !app_assoc. reflexivity.
    + reflexivity.
    + rewrite !forallb_app. cbn [forallb].
      rewrite (progress_not_terminal _ (progress_sources sources)).
      rewrite (progress_not_terminal _ (progress_contents fragments)).
      reflexivity.
  - exists pre, (error_chunk e). split; [reflexivity|]. split; [reflexivity|].
    now apply progress_not_terminal.
  - intros w'' yielded H. injection H as <- <-.
    split; [reflexivity|]. now exists sources, fragments, retrieved, used.
  - intros w'' yielded H. discriminate H.
  - intros e w'' yielded H. discriminate H.
  - intros e' w'' yielded H. injection H as <- <- <-.
    split; [reflexivity | exact Hpre].
  - split; [|intros emb w1 H1; split;
              [|intros sreq H2; split;
                 [|intros sresp w2 H3; split;
                    [|intros mres H4; split]]]].
    all: intros; rewrite Hproc;
         unfold try_except, streaming_body, mbind, yield_, call, lift_exn;
         cbn [fst snd].
    all: repeat match goal with
         | H : ?l = _ |- context [?l] => rewrite H; cbn [fst snd]
         end.
    all: try reflexivity.
    rewrite yield_each_run. cbn [fst snd].
    destruct (stream_llm_response chat_completions_create_stream _ w2)
      as [[e|[fragments failure]] w3] eqn:Es.
    { unfold stream_llm_response in Es.
      destruct (chat_completions_create_stream _ w2) as [[?|?] ?]; discriminate. }
    exists fragments, failure, w3. split; [reflexivity|].
    cbn [fst snd]. rewrite yield_each_run.
    destruct failure as [e|]; unfold raise, success_trace, yield_;
      cbn [fst snd app]; rewrite <- ?app_assoc; reflexivity.
Qed.

End Facts.

Lemma streaming_one_terminal_event_witness :
  exists yielded,
    streaming_body demo_settings demo_embeddings_create
      RetrievalSpec.demo_qdrant_search (fun v => inr v) (fun v => inr [v])
      (fun _ => inr []) (demo_stream true) (demo_rag_request [2%N]) (tt, [])
    = (inl (OtherException (lit "connection reset")), (tt, yielded))
    /\ process_streaming_rag_request demo_settings demo_embeddings_create
         RetrievalSpec.demo_qdrant_search (fun v => inr v) (fun v => inr [v])
         (fun _ => inr []) (demo_stream true) (demo_rag_request [2%N]) (tt, [])
       = (inr tt,
          (tt, yielded ++ [error_chunk (OtherException (lit "connection reset"))]))
    /\ forallb is_progress yielded = true.
Proof.
  eexists. split; [vm_compute; reflexivity|].
  pose proof (streaming_one_terminal_event demo_settings demo_embeddings_create
                RetrievalSpec.demo_qdrant_search (fun v => inr v) (fun v => inr [v])
                (fun _ => inr []) (demo_stream true) (demo_rag_request [2%N]) tt) as H.
  cbv zeta in H. destruct H as (_ & _ & _ & _ & Hfail & _).
  apply Hfail. vm_compute. reflexivity.
Defined.

Example streaming_success_run :
  demo_run false [2%N]
  = [ lit "status"; lit "status"; lit "status"; lit "source"; lit "status";
      lit "content"; lit "content"; lit "metadata"; lit "done" ].
Proof. vm_compute. reflexivity. Qed.

Example streaming_completion_failure_run :
  demo_run true [2%N]
  = [ lit "status"; lit "status"; lit "status"; lit "source"; lit "status";
      lit "content"; lit "content"; lit "error" ].
Proof. vm_compute. reflexivity. Qed.

Example streaming_search_failure_run :
  demo_run false [1%N; 2%N] = [ lit "status"; lit "status"; lit "error" ].
Proof. vm_compute. reflexivity. Qed.

End StreamingFacts.

(** ** Retrieval across collections *)

Module RetrievalFacts.
Import Fusion RetrievalSpec.
Local Open Scope st_scope.

Section RagSearch.
Import RagService.
Context {W Any : Type}.
Variable qdrant_search :
  UUID -> list float -> Z -> float -> option (Dict Any) -> M W (list (ScoredPoint Any)).
Variable parse_uuid : Any -> exn + UUID.
Variable validate_str : Any -> exn + str.
Variable validate_dict : Any -> exn + Dict Any.

Local Notation "'loop'" :=
  (search_loop qdrant_search parse_uuid validate_str validate_dict).

Lemma search_loop_app (request : VectorSearchRequest Any) ids1 ids2 acc (w : W) :
  loop request (ids1 ++ ids2) acc w =
  match loop request ids1 acc w with
  | (inr found, w1) => loop request ids2 found w1
  | (inl e, w1) => (inl e, w1)
  end.
Proof.
  revert acc w. induction ids1 as [|cid ids1 IH]; intros acc w; simpl; auto.
  unfold mbind, lift_exn.
  destruct (qdrant_search cid _ _ _ _ w) as [[e|results] w1]; auto.
  destruct (convert_results _ _ _ _ _) as [e|found]; auto.
Qed.

(** The error of one collection's search is the error of [vector_search]. *)
Lemma vector_search_propagates (request : VectorSearchRequest Any)
  ids1 cid ids2 found (w w1 w2 : W) e :
  vs_collection_ids request = ids1 ++ cid :: ids2 ->
  loop request ids1 [] w = (inr found, w1) ->
  qdrant_search cid (query_embedding request) (vs_top_k request)
    (score_threshold request)
    (if truthy (filters request) then Some (filters request) else None) w1
  = (inl e, w2) ->
  vector_search qdrant_search parse_uuid validate_str validate_dict request w
  = (inl e, w2).
Proof.
  intros Hids Hpre Hfail. unfold vector_search, try_except, mbind at 1.
  rewrite Hids, search_loop_app, Hpre. simpl. unfold mbind at 1.
  now rewrite Hfail.
Qed.

End RagSearch.

Section FileSearch.
Import VectorIntegration.
Context {W Any : Type}.
Variable str_value : str -> Any.
Variable get_vector_service : M W unit.
Variable search_vectors :
  str -> list float -> Z -> float -> Dict Any -> M W (list (VectorSearchResult Any)).

Local Notation "'across'" := (across_loop str_value get_vector_service search_vectors).

(** The loop of [search_across_collections] never raises: a collection
    whose search raises adds nothing. *)
Lemma across_loop_returns q ids limit thr filters : forall acc (s : S W),
  exists results s', across q ids limit thr filters acc s = (inr results, s').
Proof.
  induction ids as [|cid ids IH]; intros acc s; simpl.
  - now exists acc, s.
  - unfold mbind at 1, try_except.
    destruct (mbind (search_similar_chunks _ _ _ _ _ _ _ _) _ s) as [[e|r] s1];
      unfold ret; apply IH.
Qed.

Lemma across_loop_skips q cid ids limit thr filters acc (s s1 : S W) e :
  search_similar_chunks str_value get_vector_service search_vectors
    q cid limit thr filters s = (inl e, s1) ->
  across q (cid :: ids) limit thr filters acc s
  = across q ids limit thr filters acc s1.
Proof.
  intros H. simpl. unfold mbind at 1, try_except, mbind at 1. now rewrite H.
Qed.

End FileSearch.

(** C7: when the search of one collection raises, [RAGService.vector_search]
    raises that error and returns nothing of the other collections, whereas
    [FileVectorService.search_across_collections] returns the results of the
    other collections. *)
Theorem collection_failure_fails_retrieval :
  RagService.vector_search demo_qdrant_search
    (fun v => inr v) (fun v => inr [v]) (fun _ => inr []) demo_request tt
  = (inl down, tt)
  /\ VectorIntegration.search_across_collections
       (fun _ => 0%N) (ret tt) demo_search_vectors
       [0.5%float] [lit "c1"; lit "c2"] 10 0 None (tt, false)
     = (inr [demo_result], (tt, true)).
Proof. split; vm_compute; reflexivity. Qed.

End RetrievalFacts.

(** ** The ingestion pipeline *)

Module PipelineFacts.
Import Pipeline PipelineSpec.

Section Facts.
Context {W Any FileType : Type}.
Variable get_file_by_id : str -> M W (option (FileRecord FileType)).
Variable db_commit : M W unit.
Variable db_refresh : M W unit.
Variable extract_text : str -> FileType -> M W (ExtractionResult Any).
Variable update_extracted_text : str -> str -> M W unit.
Variable create_chunks :
  str -> list (Chunker.Chunk Any) -> Chunker.ChunkingStrategy -> M W (list FileChunk).
Variable update_chunk_embedding :
  str -> option (list float) -> str -> option str -> M W unit.
Variable get_file_vector_service : M W unit.
Variable store_chunk_embeddings :
  list FileChunk -> list (option (list float)) -> str -> M W (list str).
Variable embedding_service : Embedder.EmbeddingService W.

Local Notation "'PW'" := (P W).

Lemma triple_pret {A} (X : FileStatus -> Prop) (a : A)
  (Post : result A -> FileStatus -> Prop) :
  (forall st, X st -> Post (Ok a) st) -> triple X (pret a : PW A) Post.
Proof. intros H s Hs. simpl. auto. Qed.

Lemma triple_bind {A B} (X : FileStatus -> Prop) (m : PW A) (k : A -> PW B)
  (Post : result B -> FileStatus -> Prop) :
  inv X m ->
  (forall a, triple X (k a) Post) ->
  (forall e st, X st -> Post (Raise e) st) ->
  (forall st, X st -> Post OutOfFuel st) ->
  triple X (pbind m k) Post.
Proof.
  intros Hm Hk Hraise Hfuel s Hs. unfold pbind.
  specialize (Hm s Hs). destruct (m s) as [[a|e|] s1]; simpl in *; auto.
  now apply Hk.
Qed.

Lemma inv_pret {A} (X : FileStatus -> Prop) (a : A) : inv X (pret a : PW A).
Proof. apply triple_pret. auto. Qed.

Lemma inv_on_world {A} (X : FileStatus -> Prop) (m : M W A) : inv X (on_world m).
Proof.
  intros s Hs. unfold on_world. now destruct (m (ext s)) as [[e|a] w].
Qed.

Lemma inv_pure_result {A} (X : FileStatus -> Prop) (r : result A) :
  inv X (pure_result r : PW A).
Proof. intros s Hs. exact Hs. Qed.

Lemma inv_bind {A B} (X : FileStatus -> Prop) (m : PW A) (k : A -> PW B) :
  inv X m -> (forall a, inv X (k a)) -> inv X (pbind m k).
Proof. intros Hm Hk. apply triple_bind; auto. Qed.

Lemma inv_ptry {A} (X : FileStatus -> Prop) (body : PW A) (handler : exn -> PW A) :
  inv X body -> (forall e, inv X (handler e)) -> inv X (ptry body handler).
Proof.
  intros Hb Hh s Hs. unfold ptry. specialize (Hb s Hs).
  destruct (body s) as [[a|e|] s1]; simpl in *; auto. now apply Hh.
Qed.

Lemma ends_pret {A} (a : A) : ends (pret a : PW A).
Proof. intros s. discriminate. Qed.

Lemma ends_on_world {A} (m : M W A) : ends (on_world m).
Proof.
  intros s. unfold on_world. destruct (m (ext s)) as [[e|a] w]; discriminate.
Qed.

Lemma ends_bind {A B} (m : PW A) (k : A -> PW B) :
  ends m -> (forall a, ends (k a)) -> ends (pbind m k).
Proof.
  intros Hm Hk s. unfold pbind. specialize (Hm s).
  destruct (m s) as [[a|e|] s1]; simpl in *; try discriminate; auto.
  apply Hk.
Qed.

Local Notation "'set_status'" := (update_file_status get_file_by_id db_commit db_refresh).

(** A status update leaves the old status or the new one. *)
Lemma inv_update_file_status (X : FileStatus -> Prop) file_id st msg :
  X st -> inv X (set_status file_id st msg).
Proof.
  intros Hst. unfold update_file_status.
  apply inv_bind; [apply inv_on_world|]. intros [file|]; [|apply inv_pret].
  apply inv_bind; [apply inv_on_world|]. intros _.
  apply inv_bind; [intros s Hs; exact Hst|]. intros _.
  apply inv_bind; [apply inv_on_world|]. intros _. apply inv_pret.
Qed.

Lemma ends_update_file_status file_id st msg : ends (set_status file_id st msg).
Proof.
  unfold update_file_status.
  apply ends_bind; [apply ends_on_world|]. intros [file|]; [|apply ends_pret].
  apply ends_bind; [apply ends_on_world|]. intros _.
  apply ends_bind; [intros s; discriminate|]. intros _.
  apply ends_bind; [apply ends_on_world|]. intros _. apply ends_pret.
Qed.

(** A status update that reports the file found has persisted the status. *)
Lemma update_file_status_done file_id st msg (s s' : PState W) :
  set_status file_id st msg s = (Ok true, s') -> file_status s' = st.
Proof.
  unfold update_file_status, pbind, on_world, pret.
  destruct (get_file_by_id file_id (ext s)) as [[e|[file|]] w1]; simpl;
    try discriminate.
  destruct (db_commit w1) as [[e|[]] w2]; simpl; try discriminate.
  destruct (db_refresh w2) as [[e|[]] w3]; simpl; try discriminate.
  intros H. inversion H; subst. reflexivity.
Qed.

Local Notation "'collect'" := (collect_successful (Any := Any) update_chunk_embedding).

Lemma inv_collect_successful (X : FileStatus -> Prop) records enriched : forall es cs,
  inv X (collect records enriched es cs).
Proof.
  induction records as [|[i record] records IH]; intros es cs; simpl.
  - apply inv_pret.
  - destruct (nth_error enriched i) as [en|]; [|apply IH].
    destruct (Embedder.chunk_success en); [|apply IH].
    apply inv_bind; [apply inv_on_world|]. intros _. apply IH.
Qed.

Local Notation "'set_vector_ids'" := (update_vector_ids update_chunk_embedding).

Lemma inv_update_vector_ids (X : FileStatus -> Prop) pairs :
  inv X (set_vector_ids pairs).
Proof.
  induction pairs as [|[record vid] pairs IH]; simpl.
  - apply inv_pret.
  - apply inv_bind; [apply inv_on_world|]. intros _. apply IH.
Qed.

Lemma ends_update_vector_ids pairs : ends (set_vector_ids pairs).
Proof.
  induction pairs as [|[record vid] pairs IH]; simpl.
  - apply ends_pret.
  - apply ends_bind; [apply ends_on_world|]. intros _. apply IH.
Qed.

Local Notation "'vector_step'" :=
  (vector_storage_step (Any := Any) update_chunk_embedding get_file_vector_service
     store_chunk_embeddings).

(** The vector storage step always returns and leaves the file status as it
    was, whatever the vector index does. *)
Lemma vector_storage_step_harmless (prepared : Prepared Any FileType) (s : PState W) :
  fst (vector_step prepared s) = Ok tt
  /\ file_status (snd (vector_step prepared s)) = file_status s.
Proof.
  unfold vector_storage_step.
  destruct (truthy _ && truthy _); [|split; reflexivity].
  match goal with |- context [ptry ?b ?h] => set (body := b); set (handler := h) end.
  assert (inv (eq (file_status s)) (ptry body handler)) as Hinv.
  { apply inv_ptry; [|intros e; apply inv_pret].
    apply inv_bind; [apply inv_on_world|]. intros _.
    apply inv_bind; [apply inv_on_world|]. intros ids.
    apply inv_update_vector_ids. }
  assert (ends body) as Hends.
  { apply ends_bind; [apply ends_on_world|]. intros _.
    apply ends_bind; [apply ends_on_world|]. intros ids.
    apply ends_update_vector_ids. }
  split; [|symmetry; now apply Hinv].
  unfold ptry. specialize (Hends s).
  destruct (body s) as [[[]|e|] s1]; simpl in *; auto. congruence.
Qed.

Local Notation "'prep'" :=
  (prepare get_file_by_id db_commit db_refresh extract_text update_extracted_text
     create_chunks update_chunk_embedding embedding_service).

(** Unless the steps before vector storage raise or end at the extraction
    failure, they keep the file status in any set that holds [PROCESSING]. *)
Lemma prepare_post (X : FileStatus -> Prop) fuel file_id strategy chunk_size chunk_overlap :
  X PROCESSING ->
  triple X (prep fuel file_id strategy chunk_size chunk_overlap)
    (fun r st => (exists e, r = Raise e)
                 \/ r = Ok (ExtractionFailed Any FileType) \/ X st).
Proof.
  intros HX.
  set (Post := fun (r : result (Preparation Any FileType)) st =>
                 (exists e, r = Raise e)
                 \/ r = Ok (ExtractionFailed Any FileType) \/ X st).
  assert (forall e st, X st -> Post (Raise e) st) as Hraise
    by (intros e st _; left; now exists e).
  assert (forall st, X st -> Post OutOfFuel st) as Hfuel
    by (intros st Hst; right; right; exact Hst).
  unfold prepare.
  apply triple_bind; auto; [apply inv_on_world|]. intros [file|].
  2:{ apply triple_pret. intros st Hst. right; right; exact Hst. }
  apply triple_bind; auto; [now apply inv_update_file_status|].
  intros _. apply triple_bind; auto; [apply inv_on_world|]. intros res.
  destruct (negb (extraction_success res)).
  - intros s0 Hs0. unfold pbind.
    pose proof (ends_update_file_status file_id FAILED
                  (Some (lit "Text extraction failed: " ++ extraction_error res)) s0)
      as He.
    destruct (set_status file_id FAILED _ s0) as [[b|e|] s1]; simpl in *.
    + right; left; reflexivity.
    + left; now exists e.
    + congruence.
  - apply triple_bind; auto; [apply inv_on_world|]. intros _.
    apply triple_bind; auto; [apply inv_pure_result|]. intros chunks.
    apply triple_bind; auto; [apply inv_on_world|]. intros records.
    apply triple_bind; auto; [apply inv_on_world|]. intros enriched.
    apply triple_bind; auto; [apply inv_collect_successful|]. intros successful.
    apply triple_pret. intros st Hst. right; right; exact Hst.
Qed.

Local Notation "'body'" :=
  (pipeline_body get_file_by_id db_commit db_refresh extract_text
     update_extracted_text create_chunks update_chunk_embedding
     get_file_vector_service store_chunk_embeddings embedding_service).

Local Notation "'process'" :=
  (process_file_pipeline get_file_by_id db_commit db_refresh extract_text
     update_extracted_text create_chunks update_chunk_embedding
     get_file_vector_service store_chunk_embeddings embedding_service).

Lemma inv_vector_storage_step (X : FileStatus -> Prop) (prepared : Prepared Any FileType) :
  inv X (vector_step prepared).
Proof.
  intros s Hs.
  now rewrite (proj2 (vector_storage_step_harmless prepared s)).
Qed.

(** A status update for which the file record is found and the commit and
    the refresh succeed. *)
Lemma update_file_status_run file_id st msg (s : PState W) file w1 w2 w3 :
  get_file_by_id file_id (ext s) = (inr (Some file), w1) ->
  db_commit w1 = (inr tt, w2) ->
  db_refresh w2 = (inr tt, w3) ->
  set_status file_id st msg s
  = (Ok true,
     mkPState w3 st
       (match msg with
        | Some m => if truthy m then Some m else error_message s
        | None => error_message s
        end)).
Proof.
  intros Hg Hc Hr. unfold update_file_status, pbind, on_world, pret.
  rewrite Hg. cbn. rewrite Hc. cbn. rewrite Hr. reflexivity.
Qed.

(** C5: the vector storage step always returns and leaves the file status
    alone, whatever the vector index does.  Once extraction, chunking and
    embedding are through, and whatever the vector storage step met, the
    pipeline returns with the status [PROCESSED] as soon as the database
    answers the last status update: the file record is found, the commit and
    the refresh succeed.  The status becomes [FAILED] only when the [try]
    block raises, which the vector storage step never does, or at the
    extraction failure. *)
Theorem vector_failure_keeps_processed
  (fuel : nat) (file_id : str) (strategy : Chunker.ChunkingStrategy)
  (chunk_size chunk_overlap : Z) :
  (forall (prepared : Prepared Any FileType) (s : PState W),
      fst (vector_step prepared s) = Ok tt
      /\ file_status (snd (vector_step prepared s)) = file_status s)
  /\ (forall (s s1 : PState W) prepared file w1 w2 w3,
        prep fuel file_id strategy chunk_size chunk_overlap s
          = (Ok (Ready prepared), s1) ->
        get_file_by_id file_id (ext (snd (vector_step prepared s1)))
          = (inr (Some file), w1) ->
        db_commit w1 = (inr tt, w2) ->
        db_refresh w2 = (inr tt, w3) ->
        process fuel file_id strategy chunk_size chunk_overlap s
        = (Ok tt,
           mkPState w3 PROCESSED
             (error_message (snd (vector_step prepared s1)))))
  /\ (forall s : PState W,
        file_status (snd (process fuel file_id strategy chunk_size chunk_overlap s))
          = FAILED ->
        file_status s <> FAILED ->
        (exists e s1,
            body fuel file_id strategy chunk_size chunk_overlap s = (Raise e, s1))
        \/ (exists s1,
               prep fuel file_id strategy chunk_size chunk_overlap s
               = (Ok (ExtractionFailed Any FileType), s1))).
Proof.
  split; [apply vector_storage_step_harmless|]. split.
  - intros s s1 prepared file w1 w2 w3 Hprep Hg Hc Hr.
    unfold process_file_pipeline, ptry, pipeline_body, pbind at 1. rewrite Hprep.
    unfold pbind at 1.
    destruct (vector_storage_step_harmless prepared s1) as [Hok _].
    destruct (vector_step prepared s1) as [r s2]. cbn [fst snd] in *. subst r.
    unfold pbind.
    now rewrite (update_file_status_run file_id PROCESSED None s2 file w1 w2 w3 Hg Hc Hr).
  - intros s Hfailed Hinit.
    set (X := fun st => st <> FAILED).
    pose proof (prepare_post X fuel file_id strategy chunk_size chunk_overlap
                  (ltac:(discriminate)) s Hinit) as Hprep.
    unfold process_file_pipeline, ptry in Hfailed.
    destruct (body fuel file_id strategy chunk_size chunk_overlap s)
      as [[[]|e|] s1] eqn:Hbody; [| left; now exists e, s1 |].
    all: right; simpl in Hfailed.
    all: unfold pipeline_body, pbind at 1 in Hbody.
    all: destruct (prep fuel file_id strategy chunk_size chunk_overlap s)
           as [[[| |prepared]|e|] s0]; simpl in Hprep; try discriminate.
    all: try (exists s0; reflexivity).
    all: try (inversion Hbody; subst;
              destruct Hprep as [[e He]|[He|He]]; try discriminate;
              now elim He).
    all: destruct Hprep as [[e He]|[He|He]]; try discriminate.
    all: assert (inv X (pbind (vector_step prepared)
                   (fun _ => pbind (set_status file_id PROCESSED None)
                               (fun _ => pret tt)))) as Hrest
           by (apply inv_bind; [apply inv_vector_storage_step|]; intros _;
               apply inv_bind; [apply inv_update_file_status; discriminate|];
               intros _; apply inv_pret).
    all: specialize (Hrest s0 He); rewrite Hbody in Hrest; simpl in Hrest;
         now elim Hrest.
Qed.

End Facts.
Example vector_failure_run :
  process_file_pipeline
    (fun _ => ret (Some demo_file)) (ret tt) (ret tt) demo_extract
    (fun _ _ => ret tt) demo_create_chunks (fun _ _ _ _ => ret tt)
    (ret tt) (fun _ _ _ => raise index_down) EmbedderSpec.demo_service
    0 (lit "file-1") Chunker.PARAGRAPH 1000 100 (mkPState tt UPLOADED None)
  = (Ok tt, mkPState tt PROCESSED None).
Proof. vm_compute. reflexivity. Qed.

Lemma vector_failure_keeps_processed_witness :
  process_file_pipeline
    (fun _ => ret (Some demo_file)) (ret tt) (ret tt) demo_extract
    (fun _ _ => ret tt) demo_create_chunks (fun _ _ _ _ => ret tt)
    (ret tt) (fun _ _ _ => raise index_down) EmbedderSpec.demo_service
    0 (lit "file-1") Chunker.PARAGRAPH 1000 100 (mkPState tt UPLOADED None)
  = (Ok tt, mkPState tt PROCESSED None).
Proof.
  pose proof (vector_failure_keeps_processed
                (fun _ => ret (Some demo_file)) (ret tt) (ret tt) demo_extract
                (fun _ _ => ret tt) demo_create_chunks (fun _ _ _ _ => ret tt)
                (ret tt) (fun _ _ _ => raise index_down) EmbedderSpec.demo_service
                0 (lit "file-1") Chunker.PARAGRAPH 1000 100) as (_ & Hprocessed & _).
  etransitivity.
  - eapply Hprocessed; vm_compute; reflexivity.
  - vm_compute. reflexivity.
Defined.

End PipelineFacts.

(** ** More on strings *)

Lemma lstrip_idem s : lstrip (lstrip s) = lstrip s.
Proof.
  induction s as [|c s IH]; simpl; auto.
  destruct (isspace c) eqn:E; auto. simpl. now rewrite E.
Qed.

Lemma lstrip_app_nonspace l c :
  isspace c = false -> lstrip (l ++ [c]) = lstrip l ++ [c].
Proof.
  intros Hc. induction l as [|x l IH]; simpl.
  - now rewrite Hc.
  - destruct (isspace x); auto.
Qed.

Lemma rstrip_cons_nonspace c s :
  isspace c = false -> rstrip (c :: s) = c :: rstrip s.
Proof.
  intros Hc. unfold rstrip. simpl.
  rewrite lstrip_app_nonspace by assumption.
  now rewrite rev_app_distr.
Qed.

Lemma rstrip_idem s : rstrip (rstrip s) = rstrip s.
Proof. unfold rstrip. now rewrite rev_involutive, lstrip_idem. Qed.

(** What is left of a string that does not start with whitespace still does
    not start with whitespace after its end was stripped. *)
Lemma lstrip_rstrip_lstrip s : lstrip (rstrip (lstrip s)) = rstrip (lstrip s).
Proof.
  induction s as [|c s IH]; simpl; auto.
  destruct (isspace c) eqn:E; auto.
  rewrite rstrip_cons_nonspace by assumption. simpl. now rewrite E.
Qed.

Lemma strip_idem s : strip (strip s) = strip s.
Proof.
  unfold strip. now rewrite lstrip_rstrip_lstrip, rstrip_idem.
Qed.

Lemma lstrip_nonspace s :
  forallb (fun c => negb (isspace c)) s = true -> lstrip s = s.
Proof.
  destruct s as [|c s]; simpl; auto.
  intros H. apply andb_true_iff in H as [Hc _].
  now destruct (isspace c).
Qed.

Lemma strip_nonspace s :
  forallb (fun c => negb (isspace c)) s = true -> strip s = s.
Proof.
  intros H. unfold strip, rstrip. rewrite (lstrip_nonspace s H).
  rewrite lstrip_nonspace; [apply rev_involutive|].
  apply forallb_forall. intros c Hc. apply in_rev in Hc.
  now apply (proj1 (forallb_forall _ _) H).
Qed.

Lemma re_sub_ws_nonspace s : forall b,
  forallb (fun c => negb (isspace c)) s = true -> re_sub_ws b s = s.
Proof.
  induction s as [|c s IH]; simpl; intros b H; auto.
  apply andb_true_iff in H as [Hc Hs].
  destruct (isspace c); [discriminate|]. now rewrite IH.
Qed.

Lemma startswith_incl p : forall s c,
  startswith p s = true -> In c p -> In c s.
Proof.
  induction p as [|a p IH]; simpl; intros s c H Hin; [contradiction|].
  destruct s as [|b s]; [discriminate|].
  apply andb_true_iff in H as [Hab Hp]. apply N.eqb_eq in Hab. subst b.
  destruct Hin as [<-|Hin]; [now left | right; eauto].
Qed.

(** A string that occurs in another has all its characters there. *)
Lemma contains_incl sep s c : contains sep s = true -> In c sep -> In c s.
Proof.
  induction s as [|x s IH]; intros H Hin.
  - destruct sep; simpl in *; [contradiction | discriminate].
  - cbn [contains] in H. apply orb_true_iff in H as [H|H].
    + eapply startswith_incl; eauto.
    + right. auto.
Qed.

Lemma contains_empty s : contains [] s = true.
Proof. destruct s; reflexivity. Qed.

(** ** The chunker, beyond the scenarios *)

Module ChunkerLaws.
Import Chunker ChunkerFacts.

Section Laws.
Context {Any : Type}.
Local Notation "'CH'" := (Chunk Any).

(** *** Cleaned text *)

Lemma clean_text_stripped txt : strip (_clean_text txt) = _clean_text txt.
Proof. unfold _clean_text. apply strip_idem. Qed.

Lemma clean_text_whitespace txt c :
  In c (_clean_text txt) -> isspace c = true -> c = SP.
Proof.
  unfold _clean_text. intros H Hc. apply strip_incl in H.
  eapply re_sub_ws_spaces; eauto.
Qed.

Lemma clean_text_nonspace txt :
  forallb (fun c => negb (isspace c)) txt = true -> _clean_text txt = txt.
Proof.
  intros H. unfold _clean_text.
  rewrite re_sub_ws_nonspace by assumption. now apply strip_nonspace.
Qed.

(** *** The separators of the recursive chunker *)

Lemma separators_split :
  separators
  = [ [NL; NL]; [NL]; lit ". "; lit "! "; lit "? "; lit "; "; lit ", "; lit " " ]
    ++ [[]].
Proof. reflexivity. Qed.

(** Every separator but the last holds a space or a newline. *)
Lemma separators_have_whitespace sep :
  In sep [ [NL; NL]; [NL]; lit ". "; lit "! "; lit "? "; lit "; "; lit ", "; lit " " ] ->
  In NL sep \/ In SP sep.
Proof.
  intros H. repeat (destruct H as [<-|H]; [vm_compute; tauto|]). contradiction.
Qed.

Lemma split_by_empty_separator (self : BaseChunker) txt off (meta : option (Dict Any)) :
  _split_by_separator self txt [] off meta = Raise (ValueError (lit "empty separator")).
Proof. reflexivity. Qed.

Lemma split_by_separator_returns (self : BaseChunker) txt c sep off
  (meta : option (Dict Any)) :
  exists chunks, _split_by_separator self txt (c :: sep) off meta = Ok chunks.
Proof.
  unfold _split_by_separator, split. cbn [bind].
  destruct (fold_left _ _ _) as [[chunks cur] start]. eauto.
Qed.

(** The loop over the separators ends at the empty separator, which every
    text contains and [str.split] refuses: the fallback after the loop is
    never reached. *)
Lemma try_separators_ends (self : BaseChunker) txt off (meta : option (Dict Any)) seps :
  forall fuel,
    try_separators fuel self txt off meta (seps ++ [[]])
    = try_separators 0 self txt off meta (seps ++ [[]])
    /\ ((exists chunks, try_separators fuel self txt off meta (seps ++ [[]]) = Ok chunks
                        /\ chunks <> [])
        \/ try_separators fuel self txt off meta (seps ++ [[]])
           = Raise (ValueError (lit "empty separator"))).
Proof.
  intros fuel. induction seps as [|sep seps [IH1 IH2]].
  - cbn [app try_separators]. rewrite contains_empty, split_by_empty_separator.
    cbn [bind]. auto.
  - cbn [app try_separators]. destruct (contains sep txt); [|auto].
    destruct sep as [|c sep].
    + rewrite split_by_empty_separator. cbn [bind]. auto.
    + destruct (split_by_separator_returns self txt c sep off meta) as [chunks ->].
      cbn [bind]. destruct chunks as [|ch chunks]; cbn [truthy]; [auto|].
      split; [reflexivity|]. left. eexists; split; [reflexivity|discriminate].
Qed.

Lemma try_separators_single_word (self : BaseChunker) txt off (meta : option (Dict Any))
  fuel seps :
  (forall sep, In sep seps -> contains sep txt = false) ->
  try_separators fuel self txt off meta (seps ++ [[]])
  = Raise (ValueError (lit "empty separator")).
Proof.
  induction seps as [|sep seps IH]; intros H.
  - cbn [app try_separators]. now rewrite contains_empty, split_by_empty_separator.
  - cbn [app try_separators]. rewrite (H sep) by now left.
    apply IH. intros s Hs. apply H. now right.
Qed.

Lemma recursive_split_single_word (self : BaseChunker) txt off (meta : option (Dict Any))
  fuel :
  ~ In NL txt -> ~ In SP txt -> chunk_size self < len txt ->
  _recursive_split fuel self txt off meta = Raise (ValueError (lit "empty separator")).
Proof.
  intros Hnl Hsp Hlen. unfold _recursive_split.
  destruct (len txt <=? chunk_size self) eqn:E; [apply Z.leb_le in E; lia|].
  rewrite separators_split. apply try_separators_single_word.
  intros sep Hsep. destruct (contains sep txt) eqn:C; [|reflexivity].
  exfalso. destruct (separators_have_whitespace sep Hsep) as [Hin|Hin].
  - apply Hnl. eapply contains_incl; eauto.
  - apply Hsp. eapply contains_incl; eauto.
Qed.

(** A text longer than the chunk size that is one word after cleaning makes
    the recursive chunker raise. *)
Lemma recursive_single_word (self : BaseChunker) txt (meta : option (Dict Any)) fuel :
  ~ In SP (_clean_text txt) -> chunk_size self < len (_clean_text txt) ->
  RecursiveChunker_chunk_text fuel self txt meta
  = Raise (ValueError (lit "empty separator")).
Proof.
  intros Hsp Hlen. unfold RecursiveChunker_chunk_text.
  apply recursive_split_single_word; auto. apply clean_text_no_newline.
Qed.

Lemma chunk_text_single_word fuel txt strategy chunk_size overlap
  (meta : option (Dict Any)) :
  strategy = RECURSIVE \/ strategy = SEMANTIC ->
  ~ In SP (_clean_text txt) -> chunk_size < len (_clean_text txt) ->
  chunk_text fuel txt strategy chunk_size overlap meta
  = Raise (ValueError (lit "empty separator")).
Proof.
  intros Hs Hsp Hlen. unfold chunk_text, chunker_chunk_text, SemanticChunker_chunk_text.
  destruct Hs as [-> | ->]; rewrite recursive_single_word; auto.
Qed.

(** *** Reindexing *)

Lemma reindex_from (chunks : list CH) : forall n,
  List.map (@index Any)
    (List.map (fun ic : nat * CH =>
                 let '(i, c) := ic in
                 mkChunk (text c) (Z.of_nat i) (start_position c) (end_position c)
                         (metadata c))
              (enumerate n chunks))
  = List.map Z.of_nat (seq n (List.length chunks)).
Proof.
  induction chunks as [|c chunks IH]; simpl; intros n; f_equal; auto.
Qed.

Lemma reindex_indexes (chunks : list CH) :
  List.map (@index Any) (reindex chunks)
  = List.map Z.of_nat (seq 0 (List.length chunks)).
Proof. apply reindex_from. Qed.

Lemma reindex_keeps {B} (f : CH -> B) (chunks : list CH) :
  (forall c i, f (mkChunk (text c) i (start_position c) (end_position c) (metadata c))
               = f c) ->
  List.map f (reindex chunks) = List.map f chunks.
Proof.
  intros Hf. unfold reindex. generalize 0%nat.
  induction chunks as [|c chunks IH]; simpl; intros n; f_equal; auto.
Qed.

Lemma reindex_length (chunks : list CH) :
  List.length (reindex chunks) = List.length chunks.
Proof.
  unfold reindex. generalize 0%nat.
  induction chunks as [|c chunks IH]; simpl; intros n; f_equal; auto.
Qed.

End Laws.

(** X1: [estimate_chunks] answers with a count of at least one, except that
    it divides by zero exactly when the overlap equals the chunk size and the
    text is longer than a chunk. *)
Theorem estimate_chunks_at_least_one (text_length chunk_size overlap : Z) :
  match estimate_chunks text_length chunk_size overlap with
  | inr n => 1 <= n /\ ~ (chunk_size < text_length /\ overlap = chunk_size)
             /\ (text_length <= chunk_size -> n = 1)
  | inl e => (exists msg, e = ZeroDivisionError msg)
             /\ chunk_size < text_length /\ overlap = chunk_size
  end.
Proof.
  unfold estimate_chunks.
  destruct (text_length <=? chunk_size) eqn:E.
  - apply Z.leb_le in E. repeat split; try lia.
  - apply Z.leb_gt in E.
    destruct (chunk_size - overlap =? 0) eqn:D.
    + apply Z.eqb_eq in D. split; [eauto | lia].
    + apply Z.eqb_neq in D. repeat split; lia.
Qed.

(** X2: without a positive overlap the fixed-size strategy returns the first
    window of a long text only: one chunk of the first [chunk_size]
    characters, the rest of the text is dropped. *)
Theorem fixed_without_overlap_keeps_first_window
  (Any : Type) (fuel : nat) (txt : str) (chunk_size overlap : Z)
  (meta : option (Dict Any)) :
  overlap <= 0 ->
  0 <= chunk_size < len (_clean_text txt) ->
  chunk_text (S fuel) txt FIXED chunk_size overlap meta
  = Ok [mkChunk (strip (slice (_clean_text txt) 0 chunk_size)) 0 0 chunk_size
          (or_empty meta)].
Proof.
  intros Hov Hlen. unfold chunk_text, chunker_chunk_text, FixedSizeChunker_chunk_text.
  cbn [Chunker.chunk_size Chunker.overlap].
  destruct (len (_clean_text txt) <=? chunk_size) eqn:E;
    [apply Z.leb_le in E; lia|].
  cbn [fixed_while Chunker.chunk_size Chunker.overlap].
  destruct (0 <? len (_clean_text txt)) eqn:E0; [|apply Z.ltb_ge in E0; lia].
  replace (Z.min (0 + chunk_size) (len (_clean_text txt))) with chunk_size by lia.
  destruct (chunk_size - overlap >=? chunk_size) eqn:G;
    [|rewrite Z.geb_leb in G; apply Z.leb_gt in G; lia].
  reflexivity.
Qed.

Lemma fixed_without_overlap_keeps_first_window_witness :
  chunk_text 1 (lit "one two three four") FIXED 7 0 (@None (Dict unit))
  = Ok [mkChunk (lit "one two") 0 0 7 []].
Proof.
  apply (fixed_without_overlap_keeps_first_window unit 0 (lit "one two three four")
           7 0 None); [lia | vm_compute; split; [discriminate | reflexivity]].
Defined.

(** X3: the recursive strategy (and the semantic one, which delegates to it)
    never reaches its fixed-size fallback: it returns a non-empty list of
    chunks or raises [ValueError("empty separator")], and the outcome does
    not depend on how long the fallback loop would be allowed to run. *)
Theorem recursive_chunking_never_falls_back
  (Any : Type) (fuel : nat) (txt : str) (strategy : ChunkingStrategy)
  (chunk_size overlap : Z) (meta : option (Dict Any)) :
  strategy = RECURSIVE \/ strategy = SEMANTIC ->
  chunk_text fuel txt strategy chunk_size overlap meta
  = chunk_text 0 txt strategy chunk_size overlap meta
  /\ ((exists chunks,
          chunk_text fuel txt strategy chunk_size overlap meta = Ok chunks
          /\ chunks <> [])
      \/ chunk_text fuel txt strategy chunk_size overlap meta
         = Raise (ValueError (lit "empty separator"))).
Proof.
  intros Hs.
  assert (H : forall self : BaseChunker,
             RecursiveChunker_chunk_text fuel self txt meta
             = RecursiveChunker_chunk_text 0 self txt meta
             /\ ((exists chunks, RecursiveChunker_chunk_text fuel self txt meta = Ok chunks
                                 /\ chunks <> [])
                 \/ RecursiveChunker_chunk_text fuel self txt meta
                    = Raise (ValueError (lit "empty separator")))).
  { intros self. unfold RecursiveChunker_chunk_text, _recursive_split.
    destruct (len (_clean_text txt) <=? Chunker.chunk_size self).
    - split; [reflexivity|]. left. eexists; split; [reflexivity|discriminate].
    - rewrite separators_split. apply try_separators_ends. }
  unfold chunk_text, chunker_chunk_text, SemanticChunker_chunk_text.
  destruct Hs as [-> | ->];
    (match goal with
     | |- context [RecursiveChunker_chunk_text fuel ?s txt meta] =>
         destruct (H s) as [H1 [[chunks [H2 H3]]|H2]]
     end;
     [ rewrite <- H1, H2; cbn [bind]; split; [reflexivity|]; left;
       eexists; split; [reflexivity|];
       intros Hn; apply H3; apply (f_equal (@List.length _)) in Hn;
       rewrite reindex_length in Hn; now destruct chunks
     | rewrite <- H1, H2; cbn [bind]; auto ]).
Qed.

Lemma recursive_chunking_never_falls_back_witness :
  chunk_text 5 (lit "ab cd, ef. gh") RECURSIVE 5 0 (@None (Dict unit))
  = chunk_text 0 (lit "ab cd, ef. gh") RECURSIVE 5 0 (@None (Dict unit))
  /\ ((exists chunks,
          chunk_text 5 (lit "ab cd, ef. gh") RECURSIVE 5 0 (@None (Dict unit)) = Ok chunks
          /\ chunks <> [])
      \/ chunk_text 5 (lit "ab cd, ef. gh") RECURSIVE 5 0 (@None (Dict unit))
         = Raise (ValueError (lit "empty separator"))).
Proof.
  apply (recursive_chunking_never_falls_back unit 5 (lit "ab cd, ef. gh") RECURSIVE
           5 0 None). left. reflexivity.
Defined.

(** X4: a text that is a single word after cleaning and longer than the
    chunk size makes the recursive and the semantic strategy raise
    [ValueError("empty separator")]. *)
Theorem long_word_breaks_recursive_chunking
  (Any : Type) (fuel : nat) (txt : str) (strategy : ChunkingStrategy)
  (chunk_size overlap : Z) (meta : option (Dict Any)) :
  strategy = RECURSIVE \/ strategy = SEMANTIC ->
  ~ In SP (_clean_text txt) ->
  chunk_size < len (_clean_text txt) ->
  chunk_text fuel txt strategy chunk_size overlap meta
  = Raise (ValueError (lit "empty separator")).
Proof. intros. now apply chunk_text_single_word. Qed.

Lemma long_word_breaks_recursive_chunking_witness :
  chunk_text 0 (lit " https://example.org/a/long/path ") RECURSIVE 10 2
    (@None (Dict unit))
  = Raise (ValueError (lit "empty separator")).
Proof.
  apply (long_word_breaks_recursive_chunking unit 0
           (lit " https://example.org/a/long/path ") RECURSIVE 10 2 None).
  - left. reflexivity.
  - vm_compute. intuition discriminate.
  - vm_compute. reflexivity.
Defined.

(** X5: whatever the strategy, the chunks the service returns are numbered
    0, 1, 2, ... in order; text, positions and metadata are those the
    strategy's chunker produced. *)
Theorem chunk_text_indexes_sequential
  (Any : Type) (fuel : nat) (txt : str) (strategy : ChunkingStrategy)
  (chunk_size overlap : Z) (meta : option (Dict Any)) (chunks : list (Chunk Any)) :
  chunk_text fuel txt strategy chunk_size overlap meta = Ok chunks ->
  List.map (@index Any) chunks = List.map Z.of_nat (seq 0 (List.length chunks))
  /\ exists raw,
       chunker_chunk_text strategy fuel (mkChunker chunk_size overlap) txt meta = Ok raw
       /\ List.map (@text Any) chunks = List.map (@text Any) raw
       /\ List.map (@start_position Any) chunks = List.map (@start_position Any) raw
       /\ List.map (@end_position Any) chunks = List.map (@end_position Any) raw
       /\ List.map (@metadata Any) chunks = List.map (@metadata Any) raw.
Proof.
  unfold chunk_text. intros H.
  destruct (chunker_chunk_text strategy fuel (mkChunker chunk_size overlap) txt meta)
    as [raw| |]; try discriminate.
  cbn [bind] in H. injection H as <-.
  split.
  - rewrite reindex_indexes, reindex_length. reflexivity.
  - exists raw. split; [reflexivity|].
    repeat split; apply reindex_keeps; reflexivity.
Qed.

Lemma chunk_text_indexes_sequential_witness :
  List.map (@index unit)
    [ mkChunk (lit "ab cd, ef.") 0 0 11 []; mkChunk (lit "gh") 1 11 13 [] ]
  = [0; 1].
Proof.
  apply (chunk_text_indexes_sequential unit 0 (lit "ab cd, ef. gh") RECURSIVE 5 0 None
           [ mkChunk (lit "ab cd, ef.") 0 0 11 []; mkChunk (lit "gh") 1 11 13 [] ]).
  reflexivity.
Defined.

(** X6: the paragraph strategy never splits: for every text, chunk size and
    overlap it returns the whole cleaned text as one chunk, or no chunk when
    the text is blank. *)
Theorem paragraph_chunking_never_splits
  (Any : Type) (fuel : nat) (txt : str) (chunk_size overlap : Z)
  (meta : option (Dict Any)) :
  chunk_text fuel txt PARAGRAPH chunk_size overlap meta
  = Ok (if truthy (_clean_text txt)
        then [mkChunk (_clean_text txt) 0 0 (len (_clean_text txt)) (or_empty meta)]
        else []).
Proof.
  unfold chunk_text, chunker_chunk_text.
  rewrite paragraph_chunker_one_chunk. rewrite !clean_text_stripped.
  unfold _create_chunk. rewrite clean_text_stripped.
  destruct (_clean_text txt); reflexivity.
Qed.

End ChunkerLaws.

(** ** Cleaned text is in normal form *)

Module CleanTextLaws.
Import Chunker CleanSpec.

Lemma re_sub_ws_single_spaced s : forall b, single_spaced b (re_sub_ws b s) = true.
Proof.
  induction s as [|c s IH]; intros b; simpl; auto.
  destruct (isspace c) eqn:E.
  - destruct b; [apply IH|].
    change (single_spaced false (SP :: re_sub_ws true s))
      with (single_spaced true (re_sub_ws true s)).
    apply IH.
  - simpl. rewrite E. apply IH.
Qed.

Lemma single_spaced_fixed s : forall b,
  single_spaced b s = true -> re_sub_ws b s = s.
Proof.
  induction s as [|c s IH]; intros b; simpl; auto.
  destruct (isspace c) eqn:E.
  - intros H. apply andb_true_iff in H as [H Hs].
    apply andb_true_iff in H as [Hc Hb]. apply N.eqb_eq in Hc.
    destruct b; [discriminate|]. subst c. now rewrite (IH true Hs).
  - intros H. now rewrite (IH false H).
Qed.

Lemma single_spaced_weaken s b :
  single_spaced b s = true -> single_spaced false s = true.
Proof.
  destruct s as [|c s]; simpl; auto.
  destruct (isspace c); auto.
  intros H. apply andb_true_iff in H as [H Hs].
  apply andb_true_iff in H as [Hc _]. now rewrite Hc, Hs.
Qed.

Lemma single_spaced_lstrip s : forall b,
  single_spaced b s = true -> single_spaced false (lstrip s) = true.
Proof.
  induction s as [|c s IH]; intros b; simpl; auto.
  destruct (isspace c) eqn:E.
  - intros H. apply andb_true_iff in H as [_ Hs]. now apply (IH true).
  - intros H. simpl. now rewrite E.
Qed.

Lemma single_spaced_prefix l r : forall b,
  single_spaced b (l ++ r) = true -> single_spaced b l = true.
Proof.
  induction l as [|c l IH]; intros b; simpl; auto.
  destruct (isspace c).
  - intros H. apply andb_true_iff in H as [H Hs]. rewrite H. now apply IH.
  - apply IH.
Qed.

Lemma lstrip_suffix s : exists l, s = l ++ lstrip s.
Proof.
  induction s as [|c s [l IH]]; simpl.
  - now exists [].
  - destruct (isspace c).
    + exists (c :: l). simpl. now rewrite <- IH.
    + now exists [].
Qed.

Lemma rstrip_prefix s : exists r, s = rstrip s ++ r.
Proof.
  unfold rstrip. destruct (lstrip_suffix (rev s)) as [l Hl].
  exists (rev l). rewrite <- rev_app_distr, <- Hl. symmetry. apply rev_involutive.
Qed.

Lemma single_spaced_strip s b :
  single_spaced b s = true -> single_spaced false (strip s) = true.
Proof.
  intros H. apply single_spaced_lstrip in H. unfold strip.
  destruct (rstrip_prefix (lstrip s)) as [r Hr]. rewrite Hr in H.
  now apply single_spaced_prefix in H.
Qed.

Lemma clean_text_single_spaced txt : single_spaced false (_clean_text txt) = true.
Proof.
  unfold _clean_text. apply single_spaced_strip with (b := false).
  apply re_sub_ws_single_spaced.
Qed.

Lemma single_spaced_adjacent l c d r : forall b,
  single_spaced b (l ++ c :: d :: r) = true -> isspace c = true -> isspace d = false.
Proof.
  induction l as [|x l IH]; intros b; simpl.
  - intros H Hc. rewrite Hc in H. apply andb_true_iff in H as [_ H].
    destruct (isspace d); auto. simpl in H.
    now rewrite andb_false_r in H.
  - destruct (isspace x).
    + intros H. apply andb_true_iff in H as [_ H]. exact (IH true H).
    + apply IH.
Qed.

Lemma lstrip_head s c r : lstrip s = c :: r -> isspace c = false.
Proof.
  induction s as [|x s IH]; simpl; [discriminate|].
  destruct (isspace x) eqn:E; auto. intros H. now injection H as <- _.
Qed.

Lemma strip_head s c r : strip s = c :: r -> isspace c = false.
Proof.
  unfold strip. rewrite <- lstrip_rstrip_lstrip. apply lstrip_head.
Qed.

Lemma strip_last s l c : strip s = l ++ [c] -> isspace c = false.
Proof.
  unfold strip, rstrip. intros H.
  apply (f_equal (@rev _)) in H. rewrite rev_involutive, rev_app_distr in H.
  simpl in H. now apply lstrip_head in H.
Qed.

(** X29: [_clean_text] brings a text into a normal form and leaves a text in
    that form as it is: cleaning twice is cleaning once; in the cleaned text
    the only whitespace character is the space, no two spaces are adjacent,
    and the text neither starts nor ends with a space. *)
Theorem clean_text_normal_form (txt : str) :
  _clean_text (_clean_text txt) = _clean_text txt
  /\ (forall c, In c (_clean_text txt) -> isspace c = true -> c = SP)
  /\ (forall l c d r,
        _clean_text txt = l ++ c :: d :: r -> isspace c = true -> isspace d = false)
  /\ (forall c r, _clean_text txt = c :: r -> isspace c = false)
  /\ (forall l c, _clean_text txt = l ++ [c] -> isspace c = false).
Proof.
  repeat split.
  - unfold _clean_text at 1.
    rewrite (single_spaced_fixed _ false (clean_text_single_spaced txt)).
    unfold _clean_text. apply strip_idem.
  - intros c H Hc. unfold _clean_text in H. apply strip_incl in H.
    eapply re_sub_ws_spaces; eauto.
  - intros l c d r H. apply (single_spaced_adjacent l c d r false).
    rewrite <- H. apply clean_text_single_spaced.
  - intros c r. apply strip_head.
  - intros l c. apply strip_last.
Qed.

End CleanTextLaws.

(** ** Rank fusion: what is selected *)

Module FusionLaws.
Import Fusion FusionSpec FusionFacts.

Section Laws.
Context {Any : Type}.
Variable rrf_k : float.
Local Notation "'RC'" := (RetrievedChunk Any).
Local Notation "'SC'" := (Scored Any).

(** Every ranked chunk is one of the chunks given. *)
Lemma all_ranked_in (chunks : list RC) rc :
  In rc (all_ranked (group_by_collection chunks)) -> In (snd rc) chunks.
Proof.
  unfold all_ranked. rewrite in_flat_map. intros ([cid l] & Hg & Hin).
  destruct (group_by_collection_spec chunks) as (_ & Hgroups & _).
  destruct (Hgroups _ _ Hg) as [Hl _]. simpl in Hin.
  apply (in_map snd) in Hin. rewrite rank_collection_chunks in Hin.
  eapply Permutation_in in Hin; [|symmetry; apply sorted_reverse_perm].
  rewrite Hl in Hin. now apply filter_In in Hin.
Qed.

(** Every fused candidate carries one of the chunks given. *)
Lemma fuse_candidates_in (chunks : list RC) items it :
  fuse rrf_k chunks = inr items -> In it items -> In (sc_chunk it) chunks.
Proof.
  intros Hf Hin. apply fuse_inr in Hf as (d & (_ & Hd & _) & ->).
  apply fused_order_in in Hin. apply in_map_iff in Hin as ([key e] & <- & Hin).
  destruct (Hd _ _ Hin) as (_ & _ & rnk & Hr).
  apply (all_ranked_in chunks (rnk, sc_chunk e) Hr).
Qed.

Lemma NoDup_app_l {A} (l1 l2 : list A) : NoDup (l1 ++ l2) -> NoDup l1.
Proof.
  induction l1 as [|x l1 IH]; simpl; intros H; [constructor|].
  inversion H; subst. constructor; auto. intros Hx. apply H2. apply in_or_app. auto.
Qed.

Lemma merge_contexts_selected (chunks : list RC) query max_tokens r :
  merge_contexts rrf_k chunks query max_tokens = inr r ->
  exists taken rest,
    fuse rrf_k chunks = inr (taken ++ rest)
    /\ selected_chunks r = List.map (@sc_chunk Any) taken.
Proof.
  unfold merge_contexts. destruct (fuse rrf_k chunks) as [e|items] eqn:Hf; [discriminate|].
  destruct (select_within_budget max_tokens items [] 0) as [sel tot] eqn:Hs.
  intros H. injection H as <-.
  apply select_within_budget_spec in Hs as (taken & rest & -> & -> & _).
  exists taken, rest. auto.
Qed.

End Laws.

(** X7: the chunks [merge_contexts] selects are chunks of its input, no
    chunk id is selected twice, and so no more chunks are selected than were
    given. *)
Theorem merge_contexts_selects_distinct_inputs
  (Any : Type) (rrf_k : float) (chunks : list (RetrievedChunk Any))
  (query : str) (max_tokens : Z) (r : ContextMergeResult Any) :
  merge_contexts rrf_k chunks query max_tokens = inr r ->
  NoDup (List.map (@chunk_id Any) (selected_chunks r))
  /\ incl (selected_chunks r) chunks
  /\ (List.length (selected_chunks r) <= List.length chunks)%nat.
Proof.
  intros H. apply merge_contexts_selected in H as (taken & rest & Hf & Hsel).
  assert (Hnd : NoDup (List.map (@chunk_id Any) (selected_chunks r))).
  { destruct (fuse_scores rrf_k chunks _ Hf) as (Hnd & _).
    rewrite Hsel, map_map. rewrite map_app in Hnd. now apply NoDup_app_l in Hnd. }
  assert (Hincl : incl (selected_chunks r) chunks).
  { rewrite Hsel. intros c Hc. apply in_map_iff in Hc as (it & <- & Hit).
    apply (fuse_candidates_in rrf_k chunks _ it Hf). apply in_or_app. auto. }
  repeat split; auto.
  apply NoDup_incl_length; auto. eapply NoDup_map_inv; eauto.
Qed.

Lemma merge_contexts_selects_distinct_inputs_witness :
  exists r,
    merge_contexts 60 scenario (lit "q") 2 = inr r
    /\ NoDup (List.map (@chunk_id unit) (selected_chunks r))
    /\ incl (selected_chunks r) scenario
    /\ (List.length (selected_chunks r) <= List.length scenario)%nat.
Proof.
  eexists. split; [vm_compute; reflexivity|].
  apply (merge_contexts_selects_distinct_inputs unit 60 scenario (lit "q") 2).
  vm_compute. reflexivity.
Defined.

End FusionLaws.

(** ** Words, joins and slices *)

Lemma lstrip_nil_blank s : lstrip s = [] -> forallb isspace s = true.
Proof.
  induction s as [|c s IH]; simpl; auto.
  destruct (isspace c); [auto | discriminate].
Qed.

Lemma strip_nil_blank s : strip s = [] -> forallb isspace s = true.
Proof.
  unfold strip, rstrip. intros H.
  apply (f_equal (@rev char)) in H. rewrite rev_involutive in H. simpl in H.
  apply lstrip_nil_blank in H.
  apply lstrip_nil_blank. rewrite <- lstrip_idem. apply lstrip_blank.
  apply forallb_forall. intros c Hc. apply in_rev in Hc.
  now apply (proj1 (forallb_forall _ _) H).
Qed.

Lemma firstn_incl {A} n (l : list A) x : In x (firstn n l) -> In x l.
Proof. intros H. rewrite <- (firstn_skipn n l). apply in_or_app. auto. Qed.

Lemma skipn_incl {A} n (l : list A) x : In x (skipn n l) -> In x l.
Proof. intros H. rewrite <- (firstn_skipn n l). apply in_or_app. auto. Qed.

Lemma slice_incl {A} (l : list A) i j x : In x (slice l i j) -> In x l.
Proof. unfold slice. intros H. apply firstn_incl in H. now apply skipn_incl in H. Qed.

(** The words of [s.split()] are non-empty and free of whitespace. *)
Lemma split_ws_words s : forall cur w,
  (forall c, In c cur -> isspace c = false) ->
  In w (split_ws cur s) ->
  w <> [] /\ forall c, In c w -> isspace c = false.
Proof.
  induction s as [|x s IH]; intros cur w Hcur Hw.
  - cbn [split_ws] in Hw. destruct cur as [|c cur]; [contradiction|].
    cbn [truthy] in Hw. destruct Hw as [<-|[]]. split.
    + intros H. apply (f_equal (@List.length char)) in H.
      rewrite length_rev in H. discriminate.
    + intros c' Hc'. apply in_rev in Hc'. auto.
  - cbn [split_ws] in Hw. destruct (isspace x) eqn:Ex.
    + destruct cur as [|c cur]; cbn [truthy] in Hw.
      * apply (IH [] w); auto; intros ? [].
      * destruct Hw as [<-|Hw].
        -- split.
           ++ intros H. apply (f_equal (@List.length char)) in H.
              rewrite length_rev in H. discriminate.
           ++ intros c' Hc'. apply in_rev in Hc'. auto.
        -- apply (IH [] w); auto; intros ? [].
    + apply (IH (x :: cur) w); auto.
      intros c [<-|Hc]; auto.
Qed.

Lemma split_ws_nil s : forall cur,
  split_ws cur s = [] -> cur = [] /\ forallb isspace s = true.
Proof.
  induction s as [|x s IH]; intros cur H; cbn [split_ws] in H.
  - destruct cur; [auto | discriminate].
  - simpl. destruct (isspace x) eqn:Ex.
    + destruct cur as [|c cur]; cbn [truthy] in H; [|discriminate].
      destruct (IH [] H). auto.
    + destruct (IH (x :: cur) H). discriminate.
Qed.

Lemma join_incl sep parts c :
  In c (join sep parts) -> In c sep \/ exists p, In p parts /\ In c p.
Proof.
  induction parts as [|p parts IH]; [intros []|].
  destruct parts as [|q parts].
  - simpl. intros H. right. exists p. auto.
  - change (join sep (p :: q :: parts)) with (p ++ sep ++ join sep (q :: parts)).
    intros H. apply in_app_or in H as [H|H]; [right; exists p; simpl; auto|].
    apply in_app_or in H as [H|H]; [auto|].
    destruct (IH H) as [Hs|(p' & Hp' & Hc)]; [auto|].
    right. exists p'. split; [now right | auto].
Qed.

Lemma join_nonempty sep p parts : p <> [] -> join sep (p :: parts) <> [].
Proof.
  intros Hp. destruct parts as [|q parts]; [exact Hp|].
  change (join sep (p :: q :: parts)) with (p ++ sep ++ join sep (q :: parts)).
  destruct p; [congruence | discriminate].
Qed.

Lemma slice_prefix {A} (l : list A) j : exists r, l = slice l 0 j ++ r.
Proof.
  unfold slice. assert (H : norm_index (len l) 0 = 0).
  { unfold norm_index, len. simpl. lia. }
  rewrite H. simpl. eexists. symmetry. apply firstn_skipn.
Qed.

(** A word put before a string hides what came before it. *)
Lemma single_spaced_word w s : forall b,
  (forall c, In c w -> isspace c = false) -> w <> [] ->
  CleanSpec.single_spaced b (w ++ s) = CleanSpec.single_spaced false s.
Proof.
  induction w as [|c w IH]; intros b Hw Hne; [congruence|].
  simpl. rewrite (Hw c) by now left.
  destruct w as [|d w]; [reflexivity|].
  apply IH; [|discriminate]. intros x Hx. apply Hw. now right.
Qed.

(** Words joined by single spaces. *)
Lemma single_spaced_join words :
  (forall w, In w words -> w <> [] /\ forall c, In c w -> isspace c = false) ->
  forall b, CleanSpec.single_spaced b (join [SP] words) = true.
Proof.
  induction words as [|p words IH]; intros Hw b; [reflexivity|].
  destruct (Hw p (or_introl eq_refl)) as [Hne Hp].
  destruct words as [|q words].
  - simpl. rewrite <- (app_nil_r p). now rewrite single_spaced_word.
  - change (join [SP] (p :: q :: words)) with (p ++ SP :: join [SP] (q :: words)).
    rewrite single_spaced_word by assumption.
    change (CleanSpec.single_spaced false (SP :: join [SP] (q :: words)))
      with (CleanSpec.single_spaced true (join [SP] (q :: words))).
    apply IH. intros w Hin. apply Hw. now right.
Qed.

Lemma app_last_of {A} (x y l : list A) c :
  y <> [] -> x ++ y = l ++ [c] -> exists l', y = l' ++ [c].
Proof.
  intros Hy H. destruct (exists_last Hy) as (y' & d & ->).
  rewrite app_assoc in H. apply app_inj_tail in H as [_ ->]. now exists y'.
Qed.

(** The last character of joined words is the last character of a word. *)
Lemma join_last words : forall l c,
  (forall w, In w words -> w <> [] /\ forall c, In c w -> isspace c = false) ->
  join [SP] words = l ++ [c] -> isspace c = false.
Proof.
  induction words as [|p words IH]; intros l c Hw H.
  - destruct l; discriminate.
  - destruct words as [|q words].
    + simpl in H. apply (proj2 (Hw p (or_introl eq_refl))).
      rewrite H. apply in_or_app. right. now left.
    + change (join [SP] (p :: q :: words))
        with (p ++ SP :: join [SP] (q :: words)) in H.
      change (p ++ SP :: join [SP] (q :: words))
        with (p ++ [SP] ++ join [SP] (q :: words)) in H.
      rewrite app_assoc in H.
      apply app_last_of in H as [l' H].
      * apply (IH l' c); auto. intros w Hin. apply Hw. now right.
      * apply join_nonempty. apply (Hw q). right. now left.
Qed.

(** ** The embedder, beyond the scenarios *)

Module EmbedderLaws.
Import Embedder EmbedderSpec EmbedderFacts.
Local Open Scope st_scope.

Lemma validate_text_returns text v :
  _validate_text text = inr v ->
  forallb isspace text = false
  /\ 0 < len v <= 8000
  /\ (forall c, In c v -> isspace c = true -> c = SP)
  /\ CleanSpec.single_spaced true v = true
  /\ (len v < 8000 -> forall l c, v = l ++ [c] -> isspace c = false).
Proof.
  unfold _validate_text.
  destruct (negb (truthy text) || negb (truthy (strip text))) eqn:E; [discriminate|].
  apply orb_false_iff in E as [_ E]. apply negb_false_iff in E.
  assert (Hnb : forallb isspace text = false).
  { destruct (forallb isspace text) eqn:B; auto.
    rewrite (strip_blank text B) in E. discriminate. }
  set (joined := join [SP] (split_ws [] text)).
  assert (Hj : joined <> []).
  { unfold joined. destruct (split_ws [] text) as [|w ws] eqn:Ew.
    - apply split_ws_nil in Ew as [_ Ew]. congruence.
    - apply join_nonempty.
      apply (split_ws_words text [] w); [intros ? [] | rewrite Ew; now left]. }
  assert (Hc : forall c, In c joined -> isspace c = true -> c = SP).
  { intros c Hin Hs. apply join_incl in Hin as [[<-|[]]|(p & Hp & Hin)]; auto.
    apply (split_ws_words text [] p) in Hp as [_ Hp]; [|intros ? []].
    rewrite (Hp c Hin) in Hs. discriminate. }
  assert (Hpos : 0 < len joined).
  { destruct joined; [congruence|]. unfold len. simpl. lia. }
  assert (Hwords : forall w, In w (split_ws [] text) ->
                     w <> [] /\ forall c, In c w -> isspace c = false).
  { intros w Hw. apply (split_ws_words text [] w); [intros ? [] | exact Hw]. }
  assert (Hs : CleanSpec.single_spaced true joined = true)
    by (apply single_spaced_join; exact Hwords).
  intros H. injection H as <-. split; [exact Hnb|].
  destruct (len joined >? 8000) eqn:G.
  - apply Z.gtb_lt in G. rewrite slice_prefix_length by lia.
    split; [lia|]. split; [|split].
    + intros c Hin. apply slice_incl in Hin. auto.
    + destruct (slice_prefix joined 8000) as [r Hr]. rewrite Hr in Hs.
      now apply CleanTextLaws.single_spaced_prefix in Hs.
    + lia.
  - rewrite Z.gtb_ltb in G. apply Z.ltb_ge in G. split; [lia|].
    split; [exact Hc|]. split; [exact Hs|].
    intros _ l c Hl. now apply (join_last (split_ws [] text) l c Hwords).
Qed.

(** [_validate_text] fails on blank text only. *)
Lemma validate_text_cases (text : str) :
  match _validate_text text with
  | inl e => e = ValueError (lit "Text cannot be empty")
             /\ forallb isspace text = true
  | inr v => forallb isspace text = false
             /\ 0 < len v <= 8000
             /\ forall c, In c v -> isspace c = true -> c = SP
  end.
Proof.
  destruct (_validate_text text) as [e|v] eqn:E.
  - split; [now apply validate_error in E|].
    unfold _validate_text in E.
    destruct (negb (truthy text) || negb (truthy (strip text))) eqn:B; [|discriminate].
    apply orb_true_iff in B as [B|B]; apply negb_true_iff in B.
    + destruct text; [reflexivity | discriminate].
    + apply strip_nil_blank. destruct (strip text); [reflexivity | discriminate].
  - apply validate_text_returns in E. tauto.
Qed.

Lemma validate_all_blank texts t :
  In t texts -> forallb isspace t = true -> validate_all texts = inl blank_error.
Proof.
  induction texts as [|x texts IH]; intros Hin Hb; [contradiction|].
  cbn [validate_all]. destruct (_validate_text x) as [e|v] eqn:Ev.
  - now rewrite (validate_error x e Ev).
  - destruct Hin as [->|Hin].
    + rewrite (validate_blank t Hb) in Ev. discriminate.
    + now rewrite (IH Hin Hb).
Qed.

Section Laws.
Context {W : Type}.
Variable embeddings_create : str -> EmbeddingInput -> M W (list (list float)).
Variable md5_digest : str -> N * list N.

Lemma OpenAI_batch_blank model texts t (w : W) :
  In t texts -> forallb isspace t = true ->
  OpenAI_generate_embeddings embeddings_create model texts w = (inl blank_error, w).
Proof.
  intros Hin Hb. unfold OpenAI_generate_embeddings.
  destruct texts as [|x texts]; [contradiction|]. cbn [truthy negb].
  unfold mbind, lift_exn. now rewrite (validate_all_blank (x :: texts) t Hin Hb).
Qed.

(** The mock embedder does not touch the state. *)
Lemma Mock_generate_embedding_state dim text (w : W) :
  snd (Mock_generate_embedding md5_digest dim text w) = w.
Proof.
  unfold Mock_generate_embedding, mbind, lift_exn, raise, ret.
  destruct (_validate_text text) as [e|v]; [reflexivity|].
  destruct (utf8_encodable v); simpl; [|reflexivity].
  now destruct (md5_digest v).
Qed.

Lemma Mock_batch_blank dim texts t (w : W) :
  In t texts -> forallb isspace t = true ->
  exists e, Mock_generate_embeddings md5_digest dim texts w = (inl e, w).
Proof.
  intros Hin Hb. induction texts as [|x texts IH]; [contradiction|].
  cbn [Mock_generate_embeddings]. unfold mbind at 1.
  destruct Hin as [->|Hin].
  - assert (H : Mock_generate_embedding md5_digest dim t w = (inl blank_error, w)).
    { unfold Mock_generate_embedding, mbind, lift_exn.
      now rewrite (validate_blank t Hb). }
    rewrite H. eauto.
  - pose proof (Mock_generate_embedding_state dim x w) as Hw.
    destruct (Mock_generate_embedding md5_digest dim x w) as [[e|v] w1];
      simpl in Hw; subst w1; [eauto|].
    destruct (IH Hin) as [e He]. unfold mbind. rewrite He. eauto.
Qed.

Lemma provider_batch_blank prov model dim emb texts t (w : W) :
  _create_embedder embeddings_create md5_digest prov model dim = inr emb ->
  In t texts -> forallb isspace t = true ->
  exists e, generate_embeddings emb texts w = (inl e, w).
Proof.
  unfold _create_embedder. intros Hc Hin Hb.
  destruct (str_eqb prov (lit "openai")).
  - inversion Hc; subst. simpl. eexists. now apply (OpenAI_batch_blank model texts t).
  - destruct (str_eqb prov (lit "mock")); inversion Hc; subst. simpl.
    now apply (Mock_batch_blank dim texts t).
Qed.

Section Chunks.
Context {Any : Type}.
Local Notation "'CH'" := (Chunker.Chunk Any).

Lemma individually_blank prov model dim emb name (chunks : list CH) msg :
  _create_embedder embeddings_create md5_digest prov model dim = inr emb ->
  forall (w : W) enriched w',
    _embed_chunks_individually (mkService name emb) chunks msg w = (inr enriched, w') ->
    Forall blank_failed enriched.
Proof.
  intros Hc. induction chunks as [|c chunks IH]; intros w enriched w' H.
  - cbn in H. injection H as <- <-. constructor.
  - cbn [_embed_chunks_individually] in H. unfold mbind, try_except, ret in H.
    cbn [embedder get_model_name] in H.
    destruct (forallb isspace (Chunker.text c)) eqn:Eb.
    + rewrite (provider_rejects_blank embeddings_create md5_digest prov model dim emb
                 (Chunker.text c) w Hc Eb) in H.
      destruct (_embed_chunks_individually (mkService name emb) chunks msg w)
        as [[e|rest] w2] eqn:Er; [discriminate|].
      injection H as <- <-. constructor; [|eapply IH; eauto].
      intros _. repeat split.
    + destruct (generate_embedding emb (Chunker.text c) w) as [[e|v] w1];
        destruct (_embed_chunks_individually (mkService name emb) chunks msg w1)
          as [[e'|rest] w2] eqn:Er; try discriminate;
        injection H as <- <-;
        (constructor; [intros Hb; cbn [chunk] in Hb; congruence | eapply IH; eauto]).
Qed.

End Chunks.
End Laws.

(** X8: [_validate_text] fails exactly on blank text, with
    [ValueError("Text cannot be empty")]; what it returns is not empty and at
    most 8000 characters long; its only whitespace characters are spaces, no
    space is followed by another, it does not start with a space, and it
    does not end with one unless it was cut at 8000 characters. *)
Theorem validate_text_normalises (text : str) :
  match _validate_text text with
  | inl e => e = ValueError (lit "Text cannot be empty")
             /\ forallb isspace text = true
  | inr v => forallb isspace text = false
             /\ 0 < len v <= 8000
             /\ (forall c, In c v -> isspace c = true -> c = SP)
             /\ (forall l c d r,
                   v = l ++ c :: d :: r -> isspace c = true -> isspace d = false)
             /\ (forall c r, v = c :: r -> isspace c = false)
             /\ (len v < 8000 -> forall l c, v = l ++ [c] -> isspace c = false)
  end.
Proof.
  pose proof (validate_text_cases text) as Hc.
  destruct (_validate_text text) as [e|v] eqn:E; [exact Hc|].
  apply validate_text_returns in E as (Hnb & Hlen & Hsp & Hs & Hlast).
  split; [exact Hnb|]. split; [exact Hlen|]. split; [exact Hsp|].
  split; [|split; [|exact Hlast]].
  - intros l c d r ->. now apply (CleanTextLaws.single_spaced_adjacent l c d r true).
  - intros c r ->. simpl in Hs. destruct (isspace c); [|reflexivity].
    rewrite andb_false_r in Hs. discriminate.
Qed.

(** X9: for a non-negative dimension the mock embedder returns a vector of
    exactly that many values; it fails only on blank text or on text that
    cannot be encoded, and it never touches the outside state. *)
Theorem mock_embedding_has_dimension
  (W : Type) (md5_digest : str -> N * list N) (dimension : Z) (text : str) (w : W) :
  0 <= dimension ->
  match Mock_generate_embedding md5_digest dimension text w with
  | (inr v, w') => len v = dimension /\ w' = w
  | (inl e, w') =>
      w' = w
      /\ ((e = ValueError (lit "Text cannot be empty") /\ forallb isspace text = true)
          \/ e = UnicodeEncodeError)
  end.
Proof.
  intros Hd. pose proof (validate_text_cases text) as Hv.
  unfold Mock_generate_embedding, mbind, lift_exn, raise, ret.
  destruct (_validate_text text) as [e|v]; [tauto|].
  destruct (utf8_encodable v); cbn [negb]; [|auto].
  destruct (md5_digest v) as [b0 bs].
  set (e0 := List.map _ (b0 :: bs)).
  split; [|reflexivity].
  apply slice_prefix_length. split; [lia|].
  apply pad_while_reaches; [discriminate|].
  assert (0 < len e0) by (unfold e0, len; simpl; lia). lia.
Qed.

Lemma mock_embedding_has_dimension_witness :
  0 <= 40
  /\ match Mock_generate_embedding demo_md5 40 (lit "some text") tt with
     | (inr v, w') => len v = 40 /\ w' = tt
     | (inl e, w') =>
         w' = tt
         /\ ((e = ValueError (lit "Text cannot be empty")
              /\ forallb isspace (lit "some text") = true)
             \/ e = UnicodeEncodeError)
     end.
Proof.
  split; [lia|].
  apply (mock_embedding_has_dimension unit demo_md5 40 (lit "some text") tt). lia.
Defined.

(** X10: the OpenAI embedder answers an empty batch with an empty list
    without calling the provider, and it refuses a batch that holds a blank
    text, with [ValueError("Text cannot be empty")], before the provider is
    called. *)
Theorem openai_batch_rejects_blank
  (W : Type) (embeddings_create : str -> EmbeddingInput -> M W (list (list float)))
  (model : OpenAIModel) (w : W) :
  OpenAI_generate_embeddings embeddings_create model [] w = (inr [], w)
  /\ forall texts t,
       In t texts -> forallb isspace t = true ->
       OpenAI_generate_embeddings embeddings_create model texts w
       = (inl (ValueError (lit "Text cannot be empty")), w).
Proof.
  split; [reflexivity|]. intros texts t. apply OpenAI_batch_blank.
Qed.

(** X11: with either provider, [embed_chunks] gives every chunk whose text
    is blank a record that failed, without a vector and with the error
    "Individual embedding failed: Text cannot be empty"; the records stand
    for the chunks given, in order. *)
Theorem blank_chunks_fail_embedding
  (W Any : Type) (embeddings_create : str -> EmbeddingInput -> M W (list (list float)))
  (md5_digest : str -> N * list N)
  (prov : str) (model : OpenAIModel) (dim : Z) (emb : BaseEmbedder W) (name : str)
  (chunks : list (Chunker.Chunk Any)) (w : W) :
  _create_embedder embeddings_create md5_digest prov model dim = inr emb ->
  exists enriched w',
    embed_chunks (mkService name emb) chunks w = (inr enriched, w')
    /\ List.map (@chunk Any) enriched = chunks
    /\ forall en, In en enriched ->
         forallb isspace (Chunker.text (chunk en)) = true ->
         chunk_success en = false
         /\ chunk_embedding en = None
         /\ chunk_error en
            = Some (lit "Individual embedding failed: Text cannot be empty").
Proof.
  intros Hc.
  destruct (embed_chunks_total (mkService name emb) chunks w)
    as (enriched & w' & Hrun & Hmap).
  exists enriched, w'. split; [exact Hrun|]. split; [exact Hmap|].
  intros en Hen Hb.
  assert (Hin : In (Chunker.text (chunk en)) (List.map (@Chunker.text Any) chunks)).
  { rewrite <- Hmap, map_map. now apply (in_map (fun x => Chunker.text (chunk x))). }
  unfold embed_chunks in Hrun. destruct chunks as [|c chunks]; [contradiction|].
  cbn [truthy negb] in Hrun. unfold try_except, mbind in Hrun.
  cbn [embedder] in Hrun.
  destruct (provider_batch_blank embeddings_create md5_digest prov model dim emb
              _ _ w Hc Hin Hb) as [e He].
  rewrite He in Hrun.
  pose proof (individually_blank embeddings_create md5_digest prov model dim emb name
                (c :: chunks) (str_of_exn e) Hc w enriched w' Hrun) as Hall.
  rewrite Forall_forall in Hall. exact (Hall en Hen Hb).
Qed.

Lemma blank_chunks_fail_embedding_witness :
  exists enriched w',
    embed_chunks (mkService (lit "mock") (MockEmbedder unit demo_md5 8))
      [Chunker.mkChunk [] 0 0 0 (@nil (str * unit))] tt = (inr enriched, w')
    /\ List.map (@chunk unit) enriched = [Chunker.mkChunk [] 0 0 0 []]
    /\ forall en, In en enriched ->
         forallb isspace (Chunker.text (chunk en)) = true ->
         chunk_success en = false
         /\ chunk_embedding en = None
         /\ chunk_error en
            = Some (lit "Individual embedding failed: Text cannot be empty").
Proof.
  apply (blank_chunks_fail_embedding unit unit demo_create demo_md5
           (lit "mock") text_embedding_3_small 8 (MockEmbedder unit demo_md5 8)
           (lit "mock") [Chunker.mkChunk [] 0 0 0 (@nil (str * unit))] tt).
  reflexivity.
Defined.

End EmbedderLaws.

(** ** The RAG service, beyond the scenarios *)

Module RagLaws.
Import Fusion FusionSpec FusionFacts RagService StreamingSpec RagSpec.
Local Open Scope st_scope.

Section Laws.
Context {W Any : Type}.
Variable settings : Settings.
Variable embeddings_create : str -> str -> M W CreateEmbeddingResponse.
Variable qdrant_search :
  UUID -> list float -> Z -> float -> option (Dict Any) -> M W (list (ScoredPoint Any)).
Variable parse_uuid : Any -> exn + UUID.
Variable validate_str : Any -> exn + str.
Variable validate_dict : Any -> exn + Dict Any.
Variable chat_completions_create_stream : LLMRequest -> M W CompletionStream.
Variable chat_completions_create : LLMRequest -> M W ChatCompletion.

Local Notation "'RC'" := (RetrievedChunk Any).
Local Notation "'SA'" := (SourceAttribution Any).
Local Notation "'SCk'" := (StreamingChunk Any).

(** *** Retrieval *)

Lemma to_retrieved_chunk_validated cid i (result : ScoredPoint Any) (c : RC) :
  to_retrieved_chunk parse_uuid validate_str validate_dict cid i result = inr c ->
  collection_id c = cid
  /\ in_unit_interval (similarity_score c) = true
  /\ 1 <= rank c
  /\ Fusion.embedding c = None.
Proof.
  unfold to_retrieved_chunk, ebind.
  destruct (dict_item (lit "chunk_id") (payload result)) as [e|v1]; [discriminate|].
  destruct (parse_uuid v1) as [e|id1]; [discriminate|].
  destruct (dict_item (lit "document_id") (payload result)) as [e|v2]; [discriminate|].
  destruct (parse_uuid v2) as [e|id2]; [discriminate|].
  destruct (dict_item (lit "chunk_text") (payload result)) as [e|v3]; [discriminate|].
  destruct (validate_str v3) as [e|txt]; [discriminate|].
  destruct (in_unit_interval (score result)) eqn:Eu; [|discriminate].
  cbn [negb].
  destruct (match dict_get (lit "metadata") (payload result) with
            | Some m => validate_dict m
            | None => inr []
            end) as [e|md]; [discriminate|].
  intros H. injection H as <-. cbn. repeat split; auto; lia.
Qed.

Lemma convert_results_validated cid results : forall (found : list RC),
  convert_results parse_uuid validate_str validate_dict cid results = inr found ->
  Forall (validated_chunk [cid]) found.
Proof.
  induction results as [|[i r] results IH]; intros found H.
  - injection H as <-. constructor.
  - cbn [convert_results] in H. unfold ebind in H.
    destruct (to_retrieved_chunk _ _ _ cid i r) as [e|c] eqn:Ec; [discriminate|].
    destruct (convert_results _ _ _ cid results) as [e|more]; [discriminate|].
    injection H as <-. constructor; [|now apply IH].
    apply to_retrieved_chunk_validated in Ec as (Hc & Hu & Hr & He).
    repeat split; auto. now left.
Qed.

Lemma validated_chunk_more ids1 ids2 (c : RC) :
  incl ids1 ids2 -> validated_chunk ids1 c -> validated_chunk ids2 c.
Proof. intros Hi (H1 & H2). split; auto. Qed.

Lemma search_loop_validated (request : VectorSearchRequest Any) ids :
  forall acc (w : W) all w',
    search_loop qdrant_search parse_uuid validate_str validate_dict request ids acc w
    = (inr all, w') ->
    exists found, all = acc ++ found /\ Forall (validated_chunk ids) found.
Proof.
  induction ids as [|cid ids IH]; intros acc w all w' H.
  - injection H as <- <-. exists []. split; [now rewrite app_nil_r | constructor].
  - cbn [search_loop] in H. unfold mbind, lift_exn in H.
    destruct (qdrant_search cid _ _ _ _ w) as [[e|results] w1]; [discriminate|].
    destruct (convert_results _ _ _ cid (enumerate 0 results)) as [e|found] eqn:Ec;
      [discriminate|].
    apply IH in H as (more & -> & Hmore).
    exists (found ++ more). split; [now rewrite app_assoc|].
    apply Forall_app. split.
    + apply convert_results_validated in Ec.
      eapply Forall_impl; [|exact Ec]. intros c.
      apply validated_chunk_more. intros x [<-|[]]. now left.
    + eapply Forall_impl; [|exact Hmore]. intros c.
      apply validated_chunk_more. intros x Hx. now right.
Qed.

Lemma vector_search_returns (request : VectorSearchRequest Any) (w : W) resp w' :
  vector_search qdrant_search parse_uuid validate_str validate_dict request w
  = (inr resp, w') ->
  total_found resp = len (chunks resp)
  /\ Forall (validated_chunk (vs_collection_ids request)) (chunks resp).
Proof.
  unfold vector_search, try_except, mbind, ret, raise.
  destruct (search_loop _ _ _ _ request (vs_collection_ids request) [] w)
    as [[e|all] w1] eqn:El; [discriminate|].
  intros H. injection H as <- <-. cbn. split; [reflexivity|].
  apply search_loop_validated in El as (found & -> & Hf). exact Hf.
Qed.

(** *** Source attribution *)

Lemma extract_source_attribution_attributes (chunks : list RC) : forall sources,
  _extract_source_attribution validate_str chunks = inr sources ->
  Forall2 attributes chunks sources.
Proof.
  induction chunks as [|c chunks IH]; intros sources H.
  - injection H as <-. constructor.
  - cbn [_extract_source_attribution] in H. unfold ebind in H.
    destruct (match dict_get (lit "filename") (Fusion.metadata c) with
              | Some v => validate_str v
              | None => inr (lit "Unknown")
              end) as [e|fname]; [discriminate|].
    destruct (in_unit_interval (similarity_score c)) eqn:Eu; [|discriminate].
    cbn [negb] in H.
    destruct (_extract_source_attribution validate_str chunks) as [e|rest];
      [discriminate|].
    injection H as <-. constructor; [|now apply IH].
    unfold attributes. cbn.
    repeat split; auto.
    + destruct (len (content c) >? 200) eqn:G.
      * apply Z.gtb_lt in G. unfold len at 1. rewrite length_app.
        rewrite Nat2Z.inj_add. fold (len (slice (content c) 0 200)).
        rewrite EmbedderFacts.slice_prefix_length by lia. cbn. lia.
      * rewrite Z.gtb_ltb in G. apply Z.ltb_ge in G. lia.
    + intros Hl. destruct (len (content c) >? 200) eqn:G; [|reflexivity].
      apply Z.gtb_lt in G. lia.
    + intros Hl. destruct (len (content c) >? 200) eqn:G; [reflexivity|].
      rewrite Z.gtb_ltb in G. apply Z.ltb_ge in G. lia.
Qed.

Lemma attributes_ids (chunks : list RC) (sources : list SA) :
  Forall2 attributes chunks sources ->
  List.map (@sa_chunk_id Any) sources = List.map (@chunk_id Any) chunks.
Proof.
  induction 1 as [|c s chunks sources (Hid & _) _ IH]; simpl; [reflexivity|].
  now rewrite Hid, IH.
Qed.

Lemma attributes_collections (chunks : list RC) (sources : list SA) :
  Forall2 attributes chunks sources ->
  List.map (@sa_collection_id Any) sources = List.map (@collection_id Any) chunks.
Proof.
  induction 1 as [|c s chunks sources (_ & _ & Hid & _) _ IH]; simpl; [reflexivity|].
  now rewrite Hid, IH.
Qed.

(** The chunks selected from validated chunks are cited one by one, without
    a repetition, and there are no more of them than chunks retrieved. *)
Lemma cited_sources (rrf_k : float) (retrieved : list RC) ids query max_tokens
  (mres : ContextMergeResult Any) (sources : list SA) :
  Forall (validated_chunk ids) retrieved ->
  merge_contexts rrf_k retrieved query max_tokens = inr mres ->
  _extract_source_attribution validate_str (selected_chunks mres) = inr sources ->
  len sources = len (selected_chunks mres)
  /\ len (selected_chunks mres) <= len retrieved
  /\ NoDup (List.map (@sa_chunk_id Any) sources)
  /\ Forall (fun s => In (sa_collection_id s) ids) sources.
Proof.
  intros Hv Hm Hs.
  apply extract_source_attribution_attributes in Hs.
  apply FusionLaws.merge_contexts_selected in Hm as (taken & rest & Hf & Hsel).
  assert (Hincl : incl (selected_chunks mres) retrieved).
  { rewrite Hsel. intros c Hc. apply in_map_iff in Hc as (it & <- & Hit).
    apply (FusionLaws.fuse_candidates_in rrf_k retrieved _ it Hf).
    apply in_or_app. auto. }
  assert (Hnd : NoDup (List.map (@chunk_id Any) (selected_chunks mres))).
  { destruct (fuse_scores rrf_k retrieved _ Hf) as (Hnd & _).
    rewrite Hsel, map_map. rewrite map_app in Hnd.
    now apply NoDup_app_remove_r in Hnd. }
  split; [|split; [|split]].
  - unfold len. f_equal. symmetry. eapply Forall2_length; eauto.
  - unfold len. apply inj_le. apply NoDup_incl_length; auto.
    eapply NoDup_map_inv; eauto.
  - now rewrite (attributes_ids _ _ Hs).
  - apply Forall_forall. intros s Hin.
    apply (in_map (@sa_collection_id Any)) in Hin.
    rewrite (attributes_collections _ _ Hs) in Hin.
    apply in_map_iff in Hin as (c & <- & Hc).
    rewrite Forall_forall in Hv. apply (Hv c). now apply Hincl.
Qed.

Lemma make_search_request_ids emb ids top_k thr (sreq : VectorSearchRequest Any) :
  make_search_request Any emb ids top_k thr = inr sreq ->
  vs_collection_ids sreq = ids /\ 1 <= top_k <= 100.
Proof.
  unfold make_search_request.
  destruct ((1 <=? top_k) && (top_k <=? 100)) eqn:E; [|discriminate]. cbn [negb].
  destruct (in_unit_interval thr); [|discriminate]. cbn [negb].
  intros H. injection H as <-. split; [reflexivity|].
  apply andb_true_iff in E as [E1 E2]. apply Z.leb_le in E1, E2. lia.
Qed.

(** *** The streamed fragments *)

Lemma stream_llm_response_fragments (request : LLMRequest) (w : W) fragments err w' :
  stream_llm_response chat_completions_create_stream request w
  = (inr (fragments, err), w') ->
  Forall (fun f => f <> []) fragments.
Proof.
  unfold stream_llm_response.
  destruct (chat_completions_create_stream request w) as [[e|s] w1]; intros H.
  - injection H as <- <- <-. constructor.
  - injection H as <- <- <-. apply Forall_forall. intros f Hf.
    apply in_flat_map in Hf as (d & _ & Hf).
    destruct d as [c|]; [|contradiction].
    destruct c; cbn in Hf; [contradiction|]. destruct Hf as [<-|[]]. discriminate.
Qed.

(** The [try] block of the generator either runs through, with sources
    and counts that agree, or raises after progress chunks only. *)
Lemma streaming_body_counts (request : RAGRequest Any) (w : W) :
  (exists w' sources fragments retrieved,
      streaming_body settings embeddings_create qdrant_search parse_uuid
        validate_str validate_dict chat_completions_create_stream request (w, [])
      = (inr tt, (w', success_trace sources fragments retrieved (len sources)))
      /\ len sources <= retrieved
      /\ NoDup (List.map (@sa_chunk_id Any) sources)
      /\ Forall (fun s => In (sa_collection_id s) (collection_ids request)) sources
      /\ Forall (fun f => f <> []) fragments)
  \/ (exists e w' pre,
         streaming_body settings embeddings_create qdrant_search parse_uuid
           validate_str validate_dict chat_completions_create_stream request (w, [])
         = (inl e, (w', pre))
         /\ forallb is_progress pre = true).
Proof.
  unfold streaming_body, mbind, yield_, call, lift_exn. simpl.
  destruct (generate_embedding embeddings_create _ w) as [[e|resp] w1].
  { right. exists e, w1, [status_chunk Any "generating_embedding"]. split; reflexivity. }
  simpl.
  destruct (make_search_request _ _ _ _ _) as [e|sreq] eqn:Esr.
  { right. eexists e, w1, _. split; reflexivity. }
  destruct (vector_search qdrant_search parse_uuid validate_str validate_dict sreq w1)
    as [[e|sresp] w2] eqn:Evs.
  { right. eexists e, w2, _. split; reflexivity. }
  simpl.
  destruct (merge_contexts _ _ _ _) as [e|mres] eqn:Em.
  { right. eexists e, w2, _. split; reflexivity. }
  destruct (_extract_source_attribution validate_str (selected_chunks mres))
    as [e|sources] eqn:Es.
  { right. eexists e, w2, _. split; reflexivity. }
  rewrite StreamingFacts.yield_each_run. simpl.
  destruct (stream_llm_response chat_completions_create_stream _ w2)
    as [[e|[fragments err]] w3] eqn:El.
  { unfold stream_llm_response in El.
    destruct (chat_completions_create_stream _ w2) as [[?|?] ?]; discriminate. }
  simpl. rewrite StreamingFacts.yield_each_run.
  destruct err as [e|]; simpl.
  - right. eexists e, w3, _. split; [reflexivity|].
    simpl.
    change (forallb is_progress
              ((List.map source_chunk sources
                ++ [status_chunk Any "generating_response"])
               ++ List.map content_chunk fragments) = true).
    rewrite !forallb_app, StreamingFacts.progress_sources,
      StreamingFacts.progress_contents. reflexivity.
  - left. apply make_search_request_ids in Esr as [Hids _].
    apply vector_search_returns in Evs as [_ Hv]. rewrite Hids in Hv.
    destruct (cited_sources _ _ _ _ _ _ _ Hv Em Es) as (H1 & H2 & H3 & H4).
    exists w3, sources, fragments, (len (chunks sresp)).
    split; [|split; [|split; [|split]]]; auto.
    + unfold success_trace, yield_. rewrite H1. simpl. rewrite <- !app_assoc.
      reflexivity.
    + lia.
    + eapply stream_llm_response_fragments; eauto.
Qed.

End Laws.

(** X12: the chunks [vector_search] returns all come from the collections
    asked for, carry a similarity score between 0 and 1 and a rank of at
    least 1, and [total_found] is their number; without collections nothing
    is searched and the answer is empty. *)
Theorem vector_search_validated
  (W Any : Type)
  (qdrant_search :
     UUID -> list float -> Z -> float -> option (Dict Any) -> M W (list (ScoredPoint Any)))
  (parse_uuid : Any -> exn + UUID) (validate_str : Any -> exn + str)
  (validate_dict : Any -> exn + Dict Any)
  (request : VectorSearchRequest Any) (w : W) :
  (vs_collection_ids request = [] ->
   vector_search qdrant_search parse_uuid validate_str validate_dict request w
   = (inr (mkVectorSearchResponse [] 0), w))
  /\ forall resp w',
       vector_search qdrant_search parse_uuid validate_str validate_dict request w
       = (inr resp, w') ->
       total_found resp = len (chunks resp)
       /\ forall c, In c (chunks resp) ->
            In (collection_id c) (vs_collection_ids request)
            /\ in_unit_interval (similarity_score c) = true
            /\ 1 <= rank c.
Proof.
  split.
  - intros Hids. unfold vector_search. rewrite Hids. reflexivity.
  - intros resp w' H. apply vector_search_returns in H as [Ht Hv].
    split; [exact Ht|]. intros c Hc. rewrite Forall_forall in Hv.
    destruct (Hv c Hc) as (H1 & H2 & H3 & _). auto.
Qed.

(** X13: [_extract_source_attribution] gives one source per chunk, in
    order, with the chunk's ids, score, rank and metadata; the quoted text is
    the content when that has at most 200 characters and otherwise its first
    200 characters followed by "...", so never more than 203 characters. *)
Theorem source_attribution_follows_chunks
  (Any : Type) (validate_str : Any -> exn + str)
  (chunks : list (RetrievedChunk Any)) (sources : list (SourceAttribution Any)) :
  _extract_source_attribution validate_str chunks = inr sources ->
  Forall2 attributes chunks sources.
Proof. apply extract_source_attribution_attributes. Qed.

Lemma source_attribution_follows_chunks_witness :
  Forall2 attributes
    [scenario_chunk 10 1 0.875 1]
    [mkSourceAttribution 0%N 10%N 1%N (lit "Unknown") (lit "text") 0.875%float 1
       (@nil (str * unit))].
Proof.
  apply (source_attribution_follows_chunks unit (fun _ => inr [])
           [scenario_chunk 10 1 0.875 1]).
  reflexivity.
Defined.

(** X14: when [process_rag_request] returns, its response cites exactly the
    chunks that were used: one source per selected chunk, no chunk twice,
    every source from a collection of the request, and [chunks_used] is the
    number of sources and at most [chunks_retrieved]. *)
Theorem rag_response_cites_what_it_used
  (W Any : Type) (settings : Settings)
  (embeddings_create : str -> str -> M W CreateEmbeddingResponse)
  (qdrant_search :
     UUID -> list float -> Z -> float -> option (Dict Any) -> M W (list (ScoredPoint Any)))
  (parse_uuid : Any -> exn + UUID) (validate_str : Any -> exn + str)
  (validate_dict : Any -> exn + Dict Any)
  (chat_completions_create : LLMRequest -> M W ChatCompletion)
  (request : RAGRequest Any) (w w' : W) (r : RAGResponse Any) :
  process_rag_request settings embeddings_create qdrant_search parse_uuid
    validate_str validate_dict chat_completions_create request w = (inr r, w') ->
  len (sources r) = chunks_used (rr_metadata r)
  /\ chunks_used (rr_metadata r) <= chunks_retrieved (rr_metadata r)
  /\ NoDup (List.map (@sa_chunk_id Any) (sources r))
  /\ Forall (fun s => In (sa_collection_id s) (collection_ids request)) (sources r)
  /\ rr_query r = query request.
Proof.
  unfold process_rag_request, try_except, mbind, lift_exn, ret, raise.
  destruct (generate_embedding embeddings_create _ w) as [[e|resp] w1]; [discriminate|].
  destruct (make_search_request _ _ _ _ _) as [e|sreq] eqn:Esr; [discriminate|].
  destruct (vector_search qdrant_search parse_uuid validate_str validate_dict sreq w1)
    as [[e|sresp] w2] eqn:Evs; [discriminate|].
  destruct (merge_contexts _ _ _ _) as [e|mres] eqn:Em; [discriminate|].
  destruct (generate_llm_response chat_completions_create _ w2) as [[e|llm] w3];
    [discriminate|].
  destruct (_extract_source_attribution validate_str (selected_chunks mres))
    as [e|srcs] eqn:Es; [discriminate|].
  intros H. injection H as <- <-. cbn.
  apply make_search_request_ids in Esr as [Hids _].
  apply vector_search_returns in Evs as [_ Hv]. rewrite Hids in Hv.
  destruct (cited_sources validate_str _ _ _ _ _ _ _ Hv Em Es) as (H1 & H2 & H3 & H4).
  repeat split; auto.
Qed.

Lemma rag_response_cites_what_it_used_witness :
  exists r,
    process_rag_request demo_settings demo_embeddings_create
      RetrievalSpec.demo_qdrant_search (fun v => inr v) (fun v => inr [v])
      (fun _ => inr []) demo_completion (demo_rag_request [2%N]) tt = (inr r, tt)
    /\ len (sources r) = chunks_used (rr_metadata r)
    /\ chunks_used (rr_metadata r) <= chunks_retrieved (rr_metadata r)
    /\ NoDup (List.map (@sa_chunk_id N) (sources r))
    /\ Forall (fun s => In (sa_collection_id s) [2%N]) (sources r)
    /\ rr_query r = lit "q".
Proof.
  eexists. split; [vm_compute; reflexivity|].
  apply (rag_response_cites_what_it_used unit N demo_settings demo_embeddings_create
           RetrievalSpec.demo_qdrant_search (fun v => inr v) (fun v => inr [v])
           (fun _ => inr []) demo_completion (demo_rag_request [2%N]) tt tt).
  vm_compute. reflexivity.
Defined.

(** X15: a stream that ends well sent one source chunk per chunk used, for
    distinct chunks of the collections asked for; its metadata chunk counts
    them, and no more chunks were used than retrieved; no content chunk is
    empty.  Otherwise the stream is progress chunks and one error chunk. *)
Theorem streaming_metadata_counts
  (W Any : Type) (settings : Settings)
  (embeddings_create : str -> str -> M W CreateEmbeddingResponse)
  (qdrant_search :
     UUID -> list float -> Z -> float -> option (Dict Any) -> M W (list (ScoredPoint Any)))
  (parse_uuid : Any -> exn + UUID) (validate_str : Any -> exn + str)
  (validate_dict : Any -> exn + Dict Any)
  (chat_completions_create_stream : LLMRequest -> M W CompletionStream)
  (request : RAGRequest Any) (w : W) :
  let trace :=
    snd (snd (process_streaming_rag_request settings embeddings_create qdrant_search
                parse_uuid validate_str validate_dict chat_completions_create_stream
                request (w, []))) in
  (exists sources fragments retrieved,
      trace = success_trace sources fragments retrieved (len sources)
      /\ len sources <= retrieved
      /\ NoDup (List.map (@sa_chunk_id Any) sources)
      /\ Forall (fun s => In (sa_collection_id s) (collection_ids request)) sources
      /\ Forall (fun f => f <> []) fragments)
  \/ (exists e pre,
         trace = pre ++ [error_chunk e] /\ forallb is_progress pre = true).
Proof.
  cbv zeta. unfold process_streaming_rag_request, try_except.
  destruct (streaming_body_counts settings embeddings_create qdrant_search parse_uuid
              validate_str validate_dict chat_completions_create_stream request w)
    as [(w' & sources & fragments & retrieved & Hrun & H1 & H2 & H3 & H4)
       |(e & w' & pre & Hrun & Hpre)];
    rewrite Hrun; cbn [fst snd yield_].
  - left. exists sources, fragments, retrieved. auto.
  - right. exists e, pre. auto.
Qed.

End RagLaws.

(** ** Slices from the start *)

Lemma slice_from_start {A} (l : list A) j :
  slice l 0 j = firstn (Z.to_nat (norm_index (len l) j)) l.
Proof.
  unfold slice. assert (H : norm_index (len l) 0 = 0).
  { unfold norm_index, len. simpl. lia. }
  rewrite H, Z.sub_0_r. reflexivity.
Qed.

Lemma slice_from_start_length {A} (l : list A) j :
  0 <= j -> len (slice l 0 j) <= j.
Proof.
  intros Hj. rewrite slice_from_start. unfold len, norm_index.
  destruct (j <? 0) eqn:E; [apply Z.ltb_lt in E; lia|].
  rewrite length_firstn. lia.
Qed.

Lemma Sorted_firstn {A} (R : A -> A -> Prop) (l : list A) : forall k,
  Sorted R l -> Sorted R (firstn k l).
Proof.
  induction l as [|x l IH]; intros k H; [now rewrite firstn_nil|].
  destruct k as [|k]; [constructor|]. simpl.
  inversion H as [|? ? Hs Hh]; subst. constructor; [auto|].
  destruct l as [|y l]; [rewrite firstn_nil; constructor|].
  destruct k; simpl; constructor. now inversion Hh.
Qed.

(** ** The file service's vector index, beyond the scenarios *)

Module VectorLaws.
Import Fusion FusionSpec VectorIntegration RetrievalFacts.
Local Open Scope st_scope.

Section Laws.
Context {W Any : Type}.
Variable str_value : str -> Any.
Variable get_vector_service : M W unit.
Variable search_vectors :
  str -> list float -> Z -> float -> Dict Any -> M W (list (VectorSearchResult Any)).
Variable str_of_uuid : UUID -> str.
Variable ensure_collection : str -> Z -> M W bool.
Variable upsert_points : str -> list (VectorPoint Any) -> M W bool.
Variable delete_points : str -> list str -> M W bool.

Local Notation "'ready'" := (ensure_initialized get_vector_service).

(** *** Lazy initialisation *)

Lemma ensure_initialized_ready (s : S W) :
  snd s = true -> ready s = (inr tt, s).
Proof. intros H. unfold ensure_initialized. now rewrite H. Qed.

Lemma ensure_initialized_connects (s : S W) w' :
  snd s = false -> get_vector_service (fst s) = (inr tt, w') ->
  ready s = (inr tt, (w', true)).
Proof.
  intros H Hg. unfold ensure_initialized, initialize. now rewrite H, Hg.
Qed.

Lemma ensure_initialized_fails (s : S W) e w' :
  snd s = false -> get_vector_service (fst s) = (inl e, w') ->
  ready s = (inl e, (w', false)).
Proof.
  intros H Hg. unfold ensure_initialized, initialize. now rewrite H, Hg.
Qed.

Lemma on_index_flag {A} (m : M W A) (s : S W) :
  snd (snd (on_index m s)) = snd s.
Proof. unfold on_index. now destruct (m (fst s)) as [r w']. Qed.

Lemma search_similar_chunks_flag q cid limit thr filters (s : S W) :
  snd s = true ->
  snd (snd (search_similar_chunks str_value get_vector_service search_vectors
              q cid limit thr filters s)) = true.
Proof.
  intros H. unfold search_similar_chunks, mbind.
  rewrite (ensure_initialized_ready s H). now rewrite on_index_flag.
Qed.

Lemma across_loop_flag q ids limit thr filters : forall acc (s : S W),
  snd s = true ->
  snd (snd (across_loop str_value get_vector_service search_vectors
              q ids limit thr filters acc s)) = true.
Proof.
  induction ids as [|cid ids IH]; intros acc s H; [exact H|].
  cbn [across_loop]. unfold mbind at 1, try_except, mbind at 1.
  pose proof (search_similar_chunks_flag q cid limit thr filters s H) as Hf.
  destruct (search_similar_chunks _ _ _ q cid limit thr filters s) as [[e|r] s1];
    cbn [snd] in Hf; unfold ret; now apply IH.
Qed.

Lemma search_across_ready q ids limit thr filters (s : S W) :
  snd s = true ->
  exists results s',
    search_across_collections str_value get_vector_service search_vectors
      q ids limit thr filters s = (inr results, s')
    /\ snd s' = true
    /\ Sorted (not_below (@score Any)) results
    /\ (0 <= limit -> len results <= limit).
Proof.
  intros H. unfold search_across_collections, mbind at 1.
  rewrite (ensure_initialized_ready s H). unfold mbind, ret.
  pose proof (across_loop_flag q ids limit thr filters [] s H) as Hf.
  destruct (across_loop_returns str_value get_vector_service search_vectors
              q ids limit thr filters [] s) as (all & s1 & Hrun).
  rewrite Hrun in *. cbn [snd] in Hf.
  eexists _, s1. split; [reflexivity|]. split; [exact Hf|]. split.
  - rewrite slice_from_start. apply Sorted_firstn. apply sorted_reverse_sorted.
  - apply slice_from_start_length.
Qed.

(** *** Storing embeddings *)

Lemma combine_map_fst {A B} (l : list A) (l' : list B) :
  List.length l = List.length l' -> List.map fst (combine l l') = l.
Proof.
  revert l'. induction l as [|x l IH]; intros [|y l'] H; simpl in *;
    try discriminate; [reflexivity|]. f_equal. apply IH. lia.
Qed.

End Laws.

(** X16: [search_across_collections] raises only when the vector service
    cannot be obtained, and then with that error; otherwise it returns, even
    if searches of single collections fail, a list in descending score order
    of at most [limit] results (for a non-negative limit), and the service
    stays initialised. *)
Theorem search_across_collections_sorted_and_limited
  (W Any : Type) (str_value : str -> Any) (get_vector_service : M W unit)
  (search_vectors :
     str -> list float -> Z -> float -> Dict Any -> M W (list (VectorSearchResult Any)))
  (q : list float) (ids : list str) (limit : Z) (thr : float)
  (filters : option (Dict Any)) (s : S W) :
  (forall e w',
      snd s = false -> get_vector_service (fst s) = (inl e, w') ->
      search_across_collections str_value get_vector_service search_vectors
        q ids limit thr filters s = (inl e, (w', false)))
  /\ (snd s = true \/ (exists w', get_vector_service (fst s) = (inr tt, w')) ->
      exists results s',
        search_across_collections str_value get_vector_service search_vectors
          q ids limit thr filters s = (inr results, s')
        /\ snd s' = true
        /\ Sorted (not_below (@score Any)) results
        /\ (0 <= limit -> len results <= limit)).
Proof.
  split.
  - intros e w' H Hg. unfold search_across_collections, mbind at 1.
    now rewrite (ensure_initialized_fails get_vector_service s e w' H Hg).
  - intros Hs. destruct (snd s) eqn:Ef.
    + now apply search_across_ready.
    + destruct Hs as [Hs|[w' Hg]]; [discriminate|].
      destruct (search_across_ready str_value get_vector_service search_vectors
                  q ids limit thr filters (w', true) eq_refl)
        as (results & s' & Hrun & Hrest).
      exists results, s'. split; [|exact Hrest].
      unfold search_across_collections in Hrun |- *.
      unfold mbind at 1 in Hrun. unfold mbind at 1.
      rewrite (ensure_initialized_connects get_vector_service s w' Ef Hg).
      rewrite (ensure_initialized_ready get_vector_service (w', true) eq_refl) in Hrun.
      exact Hrun.
Qed.

(** X17: [store_chunk_embeddings] returns only for non-empty lists of equal
    length, and then with the id of every chunk, in order; lists of different
    lengths are refused with a [ValueError] before anything is written, and
    two empty lists end in an [IndexError]. *)
Theorem store_chunk_embeddings_returns_ids
  (W Any : Type) (get_vector_service : M W unit) (str_of_uuid : UUID -> str)
  (ensure_collection : str -> Z -> M W bool)
  (upsert_points : str -> list (VectorPoint Any) -> M W bool)
  (chunks : list (DocumentChunk Any)) (embeddings : list (list float))
  (collection_id : str) (s : S W) :
  (forall ids s',
      store_chunk_embeddings get_vector_service str_of_uuid ensure_collection
        upsert_points chunks embeddings collection_id s = (inr ids, s') ->
      ids = List.map (fun c => str_of_uuid (dc_id c)) chunks
      /\ List.length chunks = List.length embeddings
      /\ chunks <> []
      /\ snd s' = true)
  /\ (snd s = true -> List.length chunks <> List.length embeddings ->
      store_chunk_embeddings get_vector_service str_of_uuid ensure_collection
        upsert_points chunks embeddings collection_id s
      = (inl (ValueError (lit "Number of chunks must match number of embeddings")), s))
  /\ (snd s = true -> chunks = [] -> embeddings = [] ->
      store_chunk_embeddings get_vector_service str_of_uuid ensure_collection
        upsert_points chunks embeddings collection_id s
      = (inl (IndexError (lit "list index out of range")), s)).
Proof.
  split; [|split].
  - intros ids s'. unfold store_chunk_embeddings, mbind at 1.
    destruct (ensure_initialized get_vector_service s) as [[e|[]] s1] eqn:Ei;
      [discriminate|].
    assert (Hs1 : snd s1 = true).
    { unfold ensure_initialized, initialize in Ei. destruct (snd s) eqn:Ef.
      - injection Ei as <-. exact Ef.
      - destruct (get_vector_service (fst s)) as [[e|[]] w1]; [discriminate|].
        injection Ei as <-. reflexivity. }
    destruct (len chunks =? len embeddings) eqn:El; cbn [negb]; [|discriminate].
    apply Z.eqb_eq in El. unfold len in El. apply Nat2Z.inj in El.
    destruct embeddings as [|first rest]; [discriminate|].
    unfold ensure_collection_exists, mbind.
    rewrite (ensure_initialized_ready get_vector_service s1 Hs1).
    pose proof (on_index_flag (ensure_collection (get_collection_name collection_id)
                                 (len first)) s1) as Hf1.
    destruct (on_index _ s1) as [[e|b] s2]; [discriminate|]. cbn [snd] in Hf1.
    pose proof (on_index_flag
                  (upsert_points (get_collection_name collection_id)
                     (List.map (to_vector_point str_of_uuid collection_id)
                        (combine chunks (first :: rest)))) s2) as Hf2.
    destruct (on_index _ s2) as [[e|ok] s3]; [discriminate|]. cbn [snd] in Hf2.
    destruct ok; [|discriminate]. unfold ret. intros H. injection H as <- <-.
    split; [|split; [exact El | split]].
    + rewrite <- (combine_map_fst chunks (first :: rest) El) at 2.
      now rewrite map_map.
    + destruct chunks; [discriminate El | discriminate].
    + congruence.
  - intros Hs Hne. unfold store_chunk_embeddings, mbind at 1.
    rewrite (ensure_initialized_ready get_vector_service s Hs).
    destruct (len chunks =? len embeddings) eqn:El; [|reflexivity].
    apply Z.eqb_eq in El. unfold len in El. apply Nat2Z.inj in El. contradiction.
  - intros Hs -> ->. unfold store_chunk_embeddings, mbind at 1.
    rewrite (ensure_initialized_ready get_vector_service s Hs). reflexivity.
Qed.

(** X18: every operation of the file service's vector index first makes
    sure the vector service is there: when it cannot be obtained, the
    operation raises that error, writes nothing and leaves the service
    unset, so that the next call tries again. *)
Theorem vector_operations_need_the_service
  (W Any : Type) (str_value : str -> Any) (get_vector_service : M W unit)
  (search_vectors :
     str -> list float -> Z -> float -> Dict Any -> M W (list (VectorSearchResult Any)))
  (str_of_uuid : UUID -> str)
  (ensure_collection : str -> Z -> M W bool)
  (upsert_points : str -> list (VectorPoint Any) -> M W bool)
  (delete_points : str -> list str -> M W bool)
  (s : S W) (e : exn) (w' : W) :
  snd s = false ->
  get_vector_service (fst s) = (inl e, w') ->
  (forall cid size,
      ensure_collection_exists get_vector_service ensure_collection cid size s
      = (inl e, (w', false)))
  /\ (forall chunks embeddings cid,
        store_chunk_embeddings get_vector_service str_of_uuid ensure_collection
          upsert_points chunks embeddings cid s = (inl e, (w', false)))
  /\ (forall q cid limit thr filters,
        search_similar_chunks str_value get_vector_service search_vectors
          q cid limit thr filters s = (inl e, (w', false)))
  /\ (forall ids cid,
        delete_chunk_embeddings get_vector_service delete_points ids cid s
        = (inl e, (w', false)))
  /\ (forall file_id cid,
        delete_file_embeddings str_value get_vector_service search_vectors
          delete_points file_id cid s = (inl e, (w', false))).
Proof.
  intros H Hg.
  pose proof (ensure_initialized_fails get_vector_service s e w' H Hg) as Hi.
  repeat split; intros;
    unfold ensure_collection_exists, store_chunk_embeddings, search_similar_chunks,
      delete_chunk_embeddings, delete_file_embeddings, mbind at 1;
    now rewrite Hi.
Qed.

Lemma vector_operations_need_the_service_witness :
  search_similar_chunks (fun _ => 0%N) (raise RetrievalSpec.down)
    RetrievalSpec.demo_search_vectors [0.5%float] (lit "c2") 10 0 None (tt, false)
  = (inl RetrievalSpec.down, (tt, false)).
Proof.
  apply (vector_operations_need_the_service unit N (fun _ => 0%N)
           (raise RetrievalSpec.down) RetrievalSpec.demo_search_vectors
           (fun _ => []) (fun _ _ => ret true) (fun _ _ => ret true)
           (fun _ _ => ret true) (tt, false) RetrievalSpec.down tt);
    reflexivity.
Defined.

End VectorLaws.

(** ** The ingestion pipeline, beyond the scenarios *)

Module PipelineLaws.
Import Pipeline PipelineSpec PipelineFacts.

Section Laws.
Context {W Any FileType : Type}.
Variable get_file_by_id : str -> M W (option (FileRecord FileType)).
Variable db_commit : M W unit.
Variable db_refresh : M W unit.
Variable extract_text : str -> FileType -> M W (ExtractionResult Any).
Variable update_extracted_text : str -> str -> M W unit.
Variable create_chunks :
  str -> list (Chunker.Chunk Any) -> Chunker.ChunkingStrategy -> M W (list FileChunk).
Variable update_chunk_embedding :
  str -> option (list float) -> str -> option str -> M W unit.
Variable get_file_vector_service : M W unit.
Variable store_chunk_embeddings :
  list FileChunk -> list (option (list float)) -> str -> M W (list str).
Variable embedding_service : Embedder.EmbeddingService W.

Local Notation "'PW'" := (P W).
Local Notation "'set_status'" := (update_file_status get_file_by_id db_commit db_refresh).
Local Notation "'collect'" := (collect_successful (Any := Any) update_chunk_embedding).
Local Notation "'vector_step'" :=
  (vector_storage_step (Any := Any) update_chunk_embedding get_file_vector_service
     store_chunk_embeddings).
Local Notation "'prep'" :=
  (prepare get_file_by_id db_commit db_refresh extract_text update_extracted_text
     create_chunks update_chunk_embedding embedding_service).
Local Notation "'body'" :=
  (pipeline_body get_file_by_id db_commit db_refresh extract_text
     update_extracted_text create_chunks update_chunk_embedding
     get_file_vector_service store_chunk_embeddings embedding_service).
Local Notation "'process'" :=
  (process_file_pipeline get_file_by_id db_commit db_refresh extract_text
     update_extracted_text create_chunks update_chunk_embedding
     get_file_vector_service store_chunk_embeddings embedding_service).

(** *** The file record is missing *)

Lemma prepare_missing_file fuel file_id strategy chunk_size chunk_overlap
  (s : PState W) w' :
  get_file_by_id file_id (ext s) = (inr None, w') ->
  prep fuel file_id strategy chunk_size chunk_overlap s
  = (Ok (NoFileRecord Any FileType),
     mkPState w' (file_status s) (error_message s)).
Proof.
  intros Hg. unfold prepare, pbind, on_world. now rewrite Hg.
Qed.

(** *** The embeddings that are collected *)

Lemma collect_successful_lengths records enriched : forall es cs (s s' : PState W) es' cs',
  collect records enriched es cs s = (Ok (es', cs'), s') ->
  (List.length es' + List.length cs = List.length cs' + List.length es)%nat
  /\ forall Q : option (list float) -> Prop,
       Forall Q es ->
       (forall en, In en enriched -> Embedder.chunk_success en = true ->
                   Q (Embedder.chunk_embedding en)) ->
       Forall Q es'.
Proof.
  induction records as [|[i record] records IH]; intros es cs s s' es' cs' H.
  - cbn in H. injection H as <- <- <-. split; [lia | auto].
  - cbn [collect_successful] in H.
    destruct (nth_error enriched i) as [en|] eqn:En; [|now apply IH in H].
    destruct (Embedder.chunk_success en) eqn:Es; [|now apply IH in H].
    unfold pbind at 1 in H.
    destruct (on_world _ s) as [[[]|e|] s1]; try discriminate.
    apply IH in H as [Hl HQ]. rewrite !length_app in Hl. cbn in Hl.
    split; [lia|]. intros Q Hes Hen. apply HQ; [|exact Hen].
    apply Forall_app. split; [exact Hes|]. constructor; [|constructor].
    apply Hen; [|exact Es]. eapply nth_error_In; eauto.
Qed.

Lemma ends_collect_successful records enriched : forall es cs,
  ends (collect records enriched es cs).
Proof.
  induction records as [|[i record] records IH]; intros es cs; simpl.
  - apply ends_pret.
  - destruct (nth_error enriched i) as [en|]; [|apply IH].
    destruct (Embedder.chunk_success en); [|apply IH].
    apply ends_bind; [apply ends_on_world|]. intros _. apply IH.
Qed.

(** A record of [embed_chunks] that reports success carries a vector. *)
Lemma enrich_batch_vectors (self : Embedder.EmbeddingService W) ichunks embeddings :
  forall enriched,
    Embedder.enrich_batch (Any := Any) self ichunks embeddings = inr enriched ->
    Forall (fun en => Embedder.chunk_embedding en <> None) enriched.
Proof.
  induction ichunks as [|[i c] rest IH]; simpl; intros enriched H.
  - injection H as <-. constructor.
  - destruct (nth_error embeddings i); [|discriminate].
    destruct (Embedder.enrich_batch self rest embeddings) as [ex|l0]; [discriminate|].
    injection H as <-. constructor; [discriminate | now apply IH].
Qed.

Lemma individually_vectors (self : Embedder.EmbeddingService W)
  (chunks : list (Chunker.Chunk Any)) msg : forall w enriched w',
  Embedder._embed_chunks_individually self chunks msg w = (inr enriched, w') ->
  Forall (fun en => Embedder.chunk_success en = true ->
                    Embedder.chunk_embedding en <> None) enriched.
Proof.
  induction chunks as [|c chunks IH]; intros w enriched w' H.
  - cbn in H. injection H as <- <-. constructor.
  - cbn [Embedder._embed_chunks_individually] in H.
    unfold mbind, try_except, ret in H.
    destruct (Embedder.generate_embedding (Embedder.embedder self) (Chunker.text c) w)
      as [[e|v] w1];
      destruct (Embedder._embed_chunks_individually self chunks msg w1)
        as [[e'|rest] w2] eqn:Er; try discriminate;
      injection H as <- <-;
      (constructor; [cbn; intros; discriminate | eapply IH; eauto]).
Qed.

Lemma embed_chunks_vectors (self : Embedder.EmbeddingService W)
  (chunks : list (Chunker.Chunk Any)) w enriched w' :
  Embedder.embed_chunks self chunks w = (inr enriched, w') ->
  Forall (fun en => Embedder.chunk_success en = true ->
                    Embedder.chunk_embedding en <> None) enriched.
Proof.
  unfold Embedder.embed_chunks. destruct chunks as [|c chunks].
  - intros H. injection H as <- <-. constructor.
  - cbn [truthy negb]. set (cs := c :: chunks).
    unfold try_except, mbind, lift_exn.
    destruct (Embedder.generate_embeddings _ _ w) as [[e|embs] w1].
    + apply individually_vectors.
    + destruct (Embedder.enrich_batch self (enumerate 0 cs) embs) as [ex|en] eqn:Eb.
      * apply individually_vectors.
      * intros H. injection H as <- <-.
        apply enrich_batch_vectors in Eb.
        eapply Forall_impl; [|exact Eb]. auto.
Qed.

Lemma prepare_ready_lists fuel file_id strategy chunk_size chunk_overlap
  (s s1 : PState W) prepared :
  prep fuel file_id strategy chunk_size chunk_overlap s = (Ok (Ready prepared), s1) ->
  List.length (successful_embeddings prepared)
  = List.length (successful_chunks prepared)
  /\ Forall (fun e => e <> None) (successful_embeddings prepared).
Proof.
  unfold prepare, pbind at 1.
  destruct (on_world (get_file_by_id file_id) s) as [[[file|]|e|] s2]; try discriminate.
  unfold pbind at 1.
  destruct (set_status file_id PROCESSING None s2) as [[b|e|] s3]; try discriminate.
  unfold pbind at 1.
  destruct (on_world (extract_text _ _) s3) as [[res|e|] s4]; try discriminate.
  destruct (negb (extraction_success res)).
  { unfold pbind. destruct (set_status _ _ _ s4) as [[b'|e|] s5]; discriminate. }
  unfold pbind at 1.
  destruct (on_world (update_extracted_text _ _) s4) as [[[]|e|] s5]; try discriminate.
  unfold pbind at 1, pure_result.
  destruct (Chunker.chunk_text _ _ _ _ _ _) as [chunks|e|]; try discriminate.
  unfold pbind at 1.
  destruct (on_world (create_chunks _ _ _) s5) as [[records|e|] s6]; try discriminate.
  unfold pbind at 1, on_world at 1.
  destruct (Embedder.embed_chunks embedding_service chunks (ext s6))
    as [[e|enriched] w7] eqn:Ee; try discriminate.
  unfold pbind at 1.
  destruct (collect (enumerate 0 records) enriched [] [] _) as [[[es cs]|e|] s8] eqn:Ec;
    try discriminate.
  unfold pret. intros H. injection H as <- <-. cbn.
  apply collect_successful_lengths in Ec as [Hl HQ]. cbn in Hl.
  split; [lia|].
  apply HQ; [constructor|].
  apply embed_chunks_vectors in Ee. rewrite Forall_forall in Ee. exact Ee.
Qed.

(** *** A database that answers *)

Section Answering.
Variable file_id : str.
Hypothesis Hfile : finds_file get_file_by_id file_id.
Hypothesis Hcommit : answers db_commit.
Hypothesis Hrefresh : answers db_refresh.

Lemma update_file_status_answers st msg (s : PState W) :
  exists s',
    set_status file_id st msg s = (Ok true, s')
    /\ file_status s' = st
    /\ error_message s'
       = match msg with
         | Some m => if truthy m then Some m else error_message s
         | None => error_message s
         end.
Proof.
  unfold update_file_status, pbind, on_world, pret.
  destruct (Hfile (ext s)) as (f & w1 & Hg). rewrite Hg. cbn.
  destruct (Hcommit w1) as ([] & w2 & Hc). rewrite Hc. cbn.
  destruct (Hrefresh w2) as ([] & w3 & Hr). rewrite Hr. cbn.
  eexists. repeat split.
Qed.

(** How the steps before vector storage can end. *)
Lemma prepare_cases fuel strategy chunk_size chunk_overlap (s : PState W) :
  match prep fuel file_id strategy chunk_size chunk_overlap s with
  | (Ok (Ready _), _) | (Raise _, _) => True
  | (Ok (NoFileRecord _ _), _) => False
  | (Ok (ExtractionFailed _ _), s1) =>
      file_status s1 = FAILED
      /\ exists error, error_message s1 = Some (lit "Text extraction failed: " ++ error)
  | (OutOfFuel, s1) => file_status s1 = PROCESSING
  end.
Proof.
  unfold prepare, pbind at 1, on_world at 1.
  destruct (Hfile (ext s)) as (f & w1 & Hg). rewrite Hg.
  destruct (update_file_status_answers PROCESSING None
              (mkPState w1 (file_status s) (error_message s)))
    as (s2 & Hu & Hst & _).
  unfold pbind at 1. rewrite Hu.
  unfold pbind at 1, on_world at 1.
  destruct (extract_text _ _ (ext s2)) as [[e|res] w3]; [exact I|].
  destruct (extraction_success res); cbn [negb].
  - set (s3 := mkPState w3 (file_status s2) (error_message s2)).
    match goal with |- match ?m s3 with _ => _ end => set (rest := m) end.
    assert (Hinv : triple (eq PROCESSING) rest
                     (fun r st => st = PROCESSING
                                  /\ match r with
                                     | Ok (Ready _) | Raise _ | OutOfFuel => True
                                     | Ok _ => False
                                     end)).
    { unfold rest.
      apply triple_bind; auto; [apply inv_on_world|]. intros _.
      apply triple_bind; auto; [apply inv_pure_result|]. intros chunks.
      apply triple_bind; auto; [apply inv_on_world|]. intros records.
      apply triple_bind; auto; [apply inv_on_world|]. intros enriched.
      apply triple_bind; auto; [apply inv_collect_successful|]. intros successful.
      apply triple_pret. intros st Hs. auto. }
    specialize (Hinv s3 (eq_sym Hst)).
    destruct (rest s3) as [[[| |p]|e|] s4]; cbn in Hinv; tauto.
  - destruct (update_file_status_answers FAILED
                (Some (lit "Text extraction failed: " ++ extraction_error res))
                (mkPState w3 (file_status s2) (error_message s2)))
      as (s4 & Hu4 & Hst4 & Hmsg4).
    unfold pbind. rewrite Hu4. split; [exact Hst4|].
    exists (extraction_error res). exact Hmsg4.
Qed.

Lemma pipeline_outcome fuel strategy chunk_size chunk_overlap (s : PState W) :
  exists o,
    outcome_of o
      (fst (process fuel file_id strategy chunk_size chunk_overlap s))
      (snd (process fuel file_id strategy chunk_size chunk_overlap s))
    /\ match o with
       | Processed =>
           exists prepared s1,
             prep fuel file_id strategy chunk_size chunk_overlap s
             = (Ok (Ready prepared), s1)
       | ExtractionRejected _ =>
           exists s1,
             prep fuel file_id strategy chunk_size chunk_overlap s
             = (Ok (ExtractionFailed Any FileType), s1)
       | PipelineFailed e =>
           exists s1,
             body fuel file_id strategy chunk_size chunk_overlap s = (Raise e, s1)
             /\ prep fuel file_id strategy chunk_size chunk_overlap s = (Raise e, s1)
       | StillChunking =>
           exists s1,
             prep fuel file_id strategy chunk_size chunk_overlap s = (OutOfFuel, s1)
       end.
Proof.
  pose proof (prepare_cases fuel strategy chunk_size chunk_overlap s) as Hp.
  unfold process_file_pipeline, ptry.
  destruct (body fuel file_id strategy chunk_size chunk_overlap s)
    as [[[]|e|] s1] eqn:Hb.
  - unfold pipeline_body, pbind at 1 in Hb.
    destruct (prep fuel file_id strategy chunk_size chunk_overlap s)
      as [[[| |prepared]|e|] s0]; try discriminate; try contradiction.
    + injection Hb as <-. destruct Hp as [Hst [error Hmsg]].
      exists (ExtractionRejected error). cbn. eauto.
    + exists Processed. cbn. split; [|eauto].
      split; [reflexivity|].
      unfold pbind at 1 in Hb.
      destruct (vector_storage_step_harmless update_chunk_embedding
                  get_file_vector_service store_chunk_embeddings prepared s0)
        as [Hok _].
      destruct (vector_step prepared s0) as [r s2]. cbn in Hok. subst r.
      destruct (update_file_status_answers PROCESSED None s2) as (s3 & Hu & Hst & _).
      unfold pbind in Hb. rewrite Hu in Hb. injection Hb as <-. exact Hst.
  - destruct (update_file_status_answers FAILED
                (Some (lit "Processing pipeline failed: " ++ str_of_exn e)) s1)
      as (s2 & Hu & Hst & Hmsg).
    exists (PipelineFailed e). unfold pbind. rewrite Hu. cbn.
    split; [repeat split; auto|].
    exists s1. split; [reflexivity|].
    unfold pipeline_body, pbind at 1 in Hb.
    destruct (prep fuel file_id strategy chunk_size chunk_overlap s)
      as [[[| |prepared]|e0|] s0]; try discriminate; try contradiction.
    + exfalso. unfold pbind at 1 in Hb.
      destruct (vector_storage_step_harmless update_chunk_embedding
                  get_file_vector_service store_chunk_embeddings prepared s0)
        as [Hok _].
      destruct (vector_step prepared s0) as [r s3]. cbn in Hok. subst r.
      destruct (update_file_status_answers PROCESSED None s3) as (s4 & Hu4 & _).
      unfold pbind in Hb. rewrite Hu4 in Hb. discriminate.
    + injection Hb as <- <-. reflexivity.
  - exists StillChunking. cbn.
    unfold pipeline_body, pbind at 1 in Hb.
    destruct (prep fuel file_id strategy chunk_size chunk_overlap s)
      as [[[| |prepared]|e|] s0]; try discriminate; try contradiction.
    + exfalso. unfold pbind at 1 in Hb.
      destruct (vector_storage_step_harmless update_chunk_embedding
                  get_file_vector_service store_chunk_embeddings prepared s0)
        as [Hok _].
      destruct (vector_step prepared s0) as [r s2]. cbn in Hok. subst r.
      destruct (update_file_status_answers PROCESSED None s2) as (s3 & Hu & _).
      unfold pbind in Hb. rewrite Hu in Hb. discriminate.
    + injection Hb as <-. split; [|eauto]. split; [reflexivity | exact Hp].
Qed.

(** The outcome is fixed by how the steps before vector storage end. *)
Lemma pipeline_outcome_of_prepare fuel strategy chunk_size chunk_overlap (s : PState W) :
  let r := fst (process fuel file_id strategy chunk_size chunk_overlap s) in
  let s' := snd (process fuel file_id strategy chunk_size chunk_overlap s) in
  match prep fuel file_id strategy chunk_size chunk_overlap s with
  | (Ok (Ready _), _) => outcome_of Processed r s'
  | (Ok (ExtractionFailed _ _), _) => exists error, outcome_of (ExtractionRejected error) r s'
  | (Raise e, _) => outcome_of (PipelineFailed e) r s'
  | (OutOfFuel, _) => outcome_of StillChunking r s'
  | (Ok (NoFileRecord _ _), _) => False
  end.
Proof.
  cbv zeta.
  destruct (pipeline_outcome fuel strategy chunk_size chunk_overlap s) as (o & Ho & Hwhen).
  pose proof (prepare_cases fuel strategy chunk_size chunk_overlap s) as Hp.
  destruct (prep fuel file_id strategy chunk_size chunk_overlap s)
    as [[[| |prepared]|e|] s0]; [contradiction| | | |].
  all: destruct o as [|error|e'|];
       repeat match goal with
       | H : exists _, _ |- _ => destruct H
       | H : _ /\ _ |- _ => destruct H
       end; try discriminate; eauto.
  match goal with H : (Raise _, _) = (Raise _, _) |- _ => injection H as <- <- end.
  exact Ho.
Qed.

(** The steps before vector storage up to the chunker, when extraction
    answers with a text. *)
Lemma prepare_chunker_outcome fuel strategy chunk_size chunk_overlap (s : PState W)
  txt meta error :
  (forall path type, answers_with (extract_text path type)
                       (mkExtractionResult txt meta true error)) ->
  (forall text, answers (update_extracted_text file_id text)) ->
  forall e,
    Chunker.chunk_text fuel txt strategy chunk_size chunk_overlap (Some meta) = Raise e ->
    exists s1,
      body fuel file_id strategy chunk_size chunk_overlap s = (Raise e, s1).
Proof.
  intros Hext Hupd e Hchunk.
  unfold pipeline_body, pbind at 1, prepare, pbind at 1, on_world at 1.
  destruct (Hfile (ext s)) as (f & w1 & Hg). rewrite Hg.
  destruct (update_file_status_answers PROCESSING None
              (mkPState w1 (file_status s) (error_message s)))
    as (s2 & Hu & Hst & _).
  unfold pbind at 1. rewrite Hu.
  unfold pbind at 1, on_world at 1.
  destruct (Hext (file_path f) (file_type f) (ext s2)) as (w3 & He). rewrite He.
  cbn [extraction_success negb extracted_text extraction_metadata].
  unfold pbind at 1, on_world at 1. cbn [ext].
  destruct (Hupd txt w3) as ([] & w4 & Hx). rewrite Hx.
  unfold pbind at 1, pure_result. rewrite Hchunk. eauto.
Qed.

Lemma prepare_chunker_runs_on fuel strategy chunk_size chunk_overlap (s : PState W)
  txt meta error :
  (forall path type, answers_with (extract_text path type)
                       (mkExtractionResult txt meta true error)) ->
  (forall text, answers (update_extracted_text file_id text)) ->
  Chunker.chunk_text fuel txt strategy chunk_size chunk_overlap (Some meta) = OutOfFuel ->
  exists s1,
    process fuel file_id strategy chunk_size chunk_overlap s = (OutOfFuel, s1)
    /\ file_status s1 = PROCESSING.
Proof.
  intros Hext Hupd Hchunk.
  unfold process_file_pipeline, ptry, pipeline_body, pbind at 1, prepare,
    pbind at 1, on_world at 1.
  destruct (Hfile (ext s)) as (f & w1 & Hg). rewrite Hg.
  destruct (update_file_status_answers PROCESSING None
              (mkPState w1 (file_status s) (error_message s)))
    as (s2 & Hu & Hst & _).
  unfold pbind at 1. rewrite Hu.
  unfold pbind at 1, on_world at 1.
  destruct (Hext (file_path f) (file_type f) (ext s2)) as (w3 & He). rewrite He.
  cbn [extraction_success negb extracted_text extraction_metadata].
  unfold pbind at 1, on_world at 1. cbn [ext].
  destruct (Hupd txt w3) as ([] & w4 & Hx). rewrite Hx.
  unfold pbind at 1, pure_result. rewrite Hchunk.
  eexists. split; [reflexivity|]. exact Hst.
Qed.

Lemma process_after_raise fuel strategy chunk_size chunk_overlap (s s1 : PState W) e :
  body fuel file_id strategy chunk_size chunk_overlap s = (Raise e, s1) ->
  exists s',
    process fuel file_id strategy chunk_size chunk_overlap s = (Ok tt, s')
    /\ file_status s' = FAILED
    /\ error_message s' = Some (lit "Processing pipeline failed: " ++ str_of_exn e).
Proof.
  intros Hb. unfold process_file_pipeline, ptry. rewrite Hb.
  destruct (update_file_status_answers FAILED
              (Some (lit "Processing pipeline failed: " ++ str_of_exn e)) s1)
    as (s2 & Hu & Hst & Hmsg).
  exists s2. unfold pbind. rewrite Hu. auto.
Qed.

End Answering.

(** The pipeline on a file whose extraction is rejected. *)
Lemma process_rejected_extraction (Q : str -> Prop) file_id
  fuel strategy chunk_size chunk_overlap (s : PState W) :
  (forall w, exists file w',
      get_file_by_id file_id w = (inr (Some file), w')
      /\ forall w2, exists res w3,
           extract_text (file_path file) (file_type file) w2 = (inr res, w3)
           /\ extraction_success res = false
           /\ Q (extraction_error res)) ->
  answers db_commit -> answers db_refresh ->
  exists s' error,
    process fuel file_id strategy chunk_size chunk_overlap s = (Ok tt, s')
    /\ file_status s' = FAILED
    /\ error_message s' = Some (lit "Text extraction failed: " ++ error)
    /\ Q error.
Proof.
  intros Hfile Hc Hr.
  assert (Hf : finds_file get_file_by_id file_id).
  { intros w. destruct (Hfile w) as (f & w' & Hg & _). eauto. }
  unfold process_file_pipeline, ptry, pipeline_body, pbind at 1, prepare,
    pbind at 1, on_world at 1.
  destruct (Hfile (ext s)) as (f & w1 & Hg & Hext). rewrite Hg.
  destruct (update_file_status_answers file_id Hf Hc Hr PROCESSING None
              (mkPState w1 (file_status s) (error_message s)))
    as (s2 & Hu & Hst & _).
  unfold pbind at 1. rewrite Hu.
  unfold pbind at 1, on_world at 1.
  destruct (Hext (ext s2)) as (res & w3 & He & Hfail & HQ). rewrite He, Hfail.
  cbn [negb].
  destruct (update_file_status_answers file_id Hf Hc Hr FAILED
              (Some (lit "Text extraction failed: " ++ extraction_error res))
              (mkPState w3 (file_status s2) (error_message s2)))
    as (s4 & Hu4 & Hst4 & Hmsg4).
  unfold pbind. rewrite Hu4. exists s4, (extraction_error res). auto.
Qed.

End Laws.

(** X19: when the file record is missing the pipeline returns at once: the
    status and the error message of the file stay as they were, and nothing
    but the lookup has touched the outside state. *)
Theorem missing_file_is_left_alone
  (W Any FileType : Type)
  (get_file_by_id : str -> M W (option (FileRecord FileType)))
  (db_commit db_refresh : M W unit)
  (extract_text : str -> FileType -> M W (ExtractionResult Any))
  (update_extracted_text : str -> str -> M W unit)
  (create_chunks :
     str -> list (Chunker.Chunk Any) -> Chunker.ChunkingStrategy -> M W (list FileChunk))
  (update_chunk_embedding : str -> option (list float) -> str -> option str -> M W unit)
  (get_file_vector_service : M W unit)
  (store_chunk_embeddings :
     list FileChunk -> list (option (list float)) -> str -> M W (list str))
  (embedding_service : Embedder.EmbeddingService W)
  (fuel : nat) (file_id : str) (strategy : Chunker.ChunkingStrategy)
  (chunk_size chunk_overlap : Z) (s : PState W) (w' : W) :
  get_file_by_id file_id (ext s) = (inr None, w') ->
  process_file_pipeline get_file_by_id db_commit db_refresh extract_text
    update_extracted_text create_chunks update_chunk_embedding
    get_file_vector_service store_chunk_embeddings embedding_service
    fuel file_id strategy chunk_size chunk_overlap s
  = (Ok tt, mkPState w' (file_status s) (error_message s)).
Proof.
  intros Hg. unfold process_file_pipeline, ptry, pipeline_body, pbind at 1.
  now rewrite (prepare_missing_file _ _ _ _ _ _ _ _ fuel file_id strategy chunk_size
                 chunk_overlap s w' Hg).
Qed.

Lemma missing_file_is_left_alone_witness :
  process_file_pipeline
    (fun _ => ret None) (ret tt) (ret tt) demo_extract
    (fun _ _ => ret tt) demo_create_chunks (fun _ _ _ _ => ret tt)
    (ret tt) (fun _ _ _ => raise index_down) EmbedderSpec.demo_service
    0 (lit "file-1") Chunker.PARAGRAPH 1000 100 (mkPState tt UPLOADED None)
  = (Ok tt, mkPState tt UPLOADED None).
Proof.
  apply (missing_file_is_left_alone unit unit unit
           (fun _ => ret None) (ret tt) (ret tt) demo_extract
           (fun _ _ => ret tt) demo_create_chunks (fun _ _ _ _ => ret tt)
           (ret tt) (fun _ _ _ => raise index_down) EmbedderSpec.demo_service
           0 (lit "file-1") Chunker.PARAGRAPH 1000 100 (mkPState tt UPLOADED None) tt).
  reflexivity.
Defined.

(** X20: the two lists the pipeline hands to the vector store always have
    the same length, and every embedding among them is a vector: a chunk
    record is collected only together with the embedding of a record that
    reports success. *)
Theorem stored_embeddings_match_chunks
  (W Any FileType : Type)
  (get_file_by_id : str -> M W (option (FileRecord FileType)))
  (db_commit db_refresh : M W unit)
  (extract_text : str -> FileType -> M W (ExtractionResult Any))
  (update_extracted_text : str -> str -> M W unit)
  (create_chunks :
     str -> list (Chunker.Chunk Any) -> Chunker.ChunkingStrategy -> M W (list FileChunk))
  (update_chunk_embedding : str -> option (list float) -> str -> option str -> M W unit)
  (embedding_service : Embedder.EmbeddingService W)
  (fuel : nat) (file_id : str) (strategy : Chunker.ChunkingStrategy)
  (chunk_size chunk_overlap : Z) (s s1 : PState W) (prepared : Prepared Any FileType) :
  prepare get_file_by_id db_commit db_refresh extract_text update_extracted_text
    create_chunks update_chunk_embedding embedding_service
    fuel file_id strategy chunk_size chunk_overlap s = (Ok (Ready prepared), s1) ->
  List.length (successful_embeddings prepared)
  = List.length (successful_chunks prepared)
  /\ Forall (fun e => e <> None) (successful_embeddings prepared).
Proof. apply prepare_ready_lists. Qed.

Lemma stored_embeddings_match_chunks_witness :
  exists prepared s1,
    prepare (fun _ => ret (Some demo_file)) (ret tt) (ret tt) demo_extract
      (fun _ _ => ret tt) demo_create_chunks (fun _ _ _ _ => ret tt)
      EmbedderSpec.demo_service
      0 (lit "file-1") Chunker.PARAGRAPH 1000 100 (mkPState tt UPLOADED None)
    = (Ok (Ready prepared), s1)
    /\ List.length (successful_embeddings prepared)
       = List.length (successful_chunks prepared)
    /\ Forall (fun e => e <> None) (successful_embeddings prepared).
Proof.
  eexists _, _. split; [vm_compute; reflexivity|].
  eapply (stored_embeddings_match_chunks unit unit unit
           (fun _ => ret (Some demo_file)) (ret tt) (ret tt) demo_extract
           (fun _ _ => ret tt) demo_create_chunks (fun _ _ _ _ => ret tt)
           EmbedderSpec.demo_service
           0 (lit "file-1") Chunker.PARAGRAPH 1000 100 (mkPState tt UPLOADED None)).
  vm_compute. reflexivity.
Defined.

(** X21: with a database that answers (the file record is found, commit and
    refresh succeed) a run of the pipeline ends in one of four ways, fixed by
    how extraction, chunking and embedding end.  The file is [PROCESSED]
    exactly when they got through, whatever the vector storage step met
    afterwards.  It is [FAILED] with the message "Text extraction failed:
    ..." exactly when the extraction was rejected.  It is [FAILED] with the
    message "Processing pipeline failed: ..." and the text of the exception
    exactly when one of them raised it; nothing after them raises.  Or the
    chunker is still running and the file is left [PROCESSING].  In the
    first three the pipeline itself returns without raising. *)
Theorem pipeline_ends_in_a_final_status
  (W Any FileType : Type)
  (get_file_by_id : str -> M W (option (FileRecord FileType)))
  (db_commit db_refresh : M W unit)
  (extract_text : str -> FileType -> M W (ExtractionResult Any))
  (update_extracted_text : str -> str -> M W unit)
  (create_chunks :
     str -> list (Chunker.Chunk Any) -> Chunker.ChunkingStrategy -> M W (list FileChunk))
  (update_chunk_embedding : str -> option (list float) -> str -> option str -> M W unit)
  (get_file_vector_service : M W unit)
  (store_chunk_embeddings :
     list FileChunk -> list (option (list float)) -> str -> M W (list str))
  (embedding_service : Embedder.EmbeddingService W)
  (fuel : nat) (file_id : str) (strategy : Chunker.ChunkingStrategy)
  (chunk_size chunk_overlap : Z) (s : PState W) :
  finds_file get_file_by_id file_id -> answers db_commit -> answers db_refresh ->
  let run :=
    process_file_pipeline get_file_by_id db_commit db_refresh extract_text
      update_extracted_text create_chunks update_chunk_embedding
      get_file_vector_service store_chunk_embeddings embedding_service
      fuel file_id strategy chunk_size chunk_overlap s in
  let prepared :=
    prepare get_file_by_id db_commit db_refresh extract_text
      update_extracted_text create_chunks update_chunk_embedding
      embedding_service fuel file_id strategy chunk_size chunk_overlap s in
  let tried :=
    pipeline_body get_file_by_id db_commit db_refresh extract_text
      update_extracted_text create_chunks update_chunk_embedding
      get_file_vector_service store_chunk_embeddings embedding_service
      fuel file_id strategy chunk_size chunk_overlap s in
  (exists o,
      outcome_of o (fst run) (snd run)
      /\ match o with
         | Processed => exists p s1, prepared = (Ok (Ready p), s1)
         | ExtractionRejected _ =>
             exists s1, prepared = (Ok (ExtractionFailed Any FileType), s1)
         | PipelineFailed e =>
             exists s1, tried = (Raise e, s1) /\ prepared = (Raise e, s1)
         | StillChunking => exists s1, prepared = (OutOfFuel, s1)
         end)
  /\ (forall p s1,
         prepared = (Ok (Ready p), s1) -> outcome_of Processed (fst run) (snd run))
  /\ (forall s1,
         prepared = (Ok (ExtractionFailed Any FileType), s1) ->
         exists error, outcome_of (ExtractionRejected error) (fst run) (snd run))
  /\ (forall e s1,
         prepared = (Raise e, s1) -> outcome_of (PipelineFailed e) (fst run) (snd run))
  /\ (forall s1,
         prepared = (OutOfFuel, s1) -> outcome_of StillChunking (fst run) (snd run))
  /\ (forall s1, prepared <> (Ok (NoFileRecord Any FileType), s1)).
Proof.
  intros Hf Hc Hr. cbv zeta.
  pose proof (pipeline_outcome_of_prepare get_file_by_id db_commit db_refresh
                extract_text update_extracted_text create_chunks
                update_chunk_embedding get_file_vector_service
                store_chunk_embeddings embedding_service file_id Hf Hc Hr
                fuel strategy chunk_size chunk_overlap s) as Hconv.
  cbv zeta in Hconv.
  split; [now apply pipeline_outcome|].
  repeat apply conj; intros; match goal with
    | H : _ = _ |- _ => rewrite H in Hconv; exact Hconv
    | |- _ <> _ => intros H; rewrite H in Hconv; exact Hconv
    end.
Qed.

Lemma pipeline_ends_in_a_final_status_witness :
  outcome_of Processed
    (fst (process_file_pipeline
            (fun _ => ret (Some demo_file)) (ret tt) (ret tt) demo_extract
            (fun _ _ => ret tt) demo_create_chunks (fun _ _ _ _ => ret tt)
            (ret tt) (fun _ _ _ => raise index_down) EmbedderSpec.demo_service
            0 (lit "file-1") Chunker.PARAGRAPH 1000 100 (mkPState tt UPLOADED None)))
    (snd (process_file_pipeline
            (fun _ => ret (Some demo_file)) (ret tt) (ret tt) demo_extract
            (fun _ _ => ret tt) demo_create_chunks (fun _ _ _ _ => ret tt)
            (ret tt) (fun _ _ _ => raise index_down) EmbedderSpec.demo_service
            0 (lit "file-1") Chunker.PARAGRAPH 1000 100 (mkPState tt UPLOADED None))).
Proof.
  destruct (pipeline_ends_in_a_final_status unit unit unit
              (fun _ => ret (Some demo_file)) (ret tt) (ret tt) demo_extract
              (fun _ _ => ret tt) demo_create_chunks (fun _ _ _ _ => ret tt)
              (ret tt) (fun _ _ _ => raise index_down) EmbedderSpec.demo_service
              0 (lit "file-1") Chunker.PARAGRAPH 1000 100 (mkPState tt UPLOADED None))
    as (_ & Hready & _).
  - intros w. exists demo_file, w. reflexivity.
  - intros w. exists tt, w. reflexivity.
  - intros w. exists tt, w. reflexivity.
  - eapply Hready. vm_compute. reflexivity.
Defined.

(** X22: with a database and an extractor that answer, a document whose
    text is one long word (longer than the chunk size, without a space after
    cleaning) fails under the recursive and the semantic strategy: the
    pipeline returns, and the file is [FAILED] with the message "Processing
    pipeline failed: empty separator". *)
Theorem long_word_document_fails
  (W Any FileType : Type)
  (get_file_by_id : str -> M W (option (FileRecord FileType)))
  (db_commit db_refresh : M W unit)
  (extract_text : str -> FileType -> M W (ExtractionResult Any))
  (update_extracted_text : str -> str -> M W unit)
  (create_chunks :
     str -> list (Chunker.Chunk Any) -> Chunker.ChunkingStrategy -> M W (list FileChunk))
  (update_chunk_embedding : str -> option (list float) -> str -> option str -> M W unit)
  (get_file_vector_service : M W unit)
  (store_chunk_embeddings :
     list FileChunk -> list (option (list float)) -> str -> M W (list str))
  (embedding_service : Embedder.EmbeddingService W)
  (fuel : nat) (file_id : str) (strategy : Chunker.ChunkingStrategy)
  (chunk_size chunk_overlap : Z) (s : PState W)
  (txt : str) (meta : Dict Any) (error : str) :
  finds_file get_file_by_id file_id -> answers db_commit -> answers db_refresh ->
  (forall path type,
      answers_with (extract_text path type) (mkExtractionResult txt meta true error)) ->
  (forall text, answers (update_extracted_text file_id text)) ->
  strategy = Chunker.RECURSIVE \/ strategy = Chunker.SEMANTIC ->
  ~ In SP (Chunker._clean_text txt) ->
  chunk_size < len (Chunker._clean_text txt) ->
  exists s',
    process_file_pipeline get_file_by_id db_commit db_refresh extract_text
      update_extracted_text create_chunks update_chunk_embedding
      get_file_vector_service store_chunk_embeddings embedding_service
      fuel file_id strategy chunk_size chunk_overlap s = (Ok tt, s')
    /\ file_status s' = FAILED
    /\ error_message s' = Some (lit "Processing pipeline failed: empty separator").
Proof.
  intros Hf Hc Hr Hext Hupd Hs Hsp Hlen.
  destruct (prepare_chunker_outcome get_file_by_id db_commit db_refresh extract_text
              update_extracted_text create_chunks update_chunk_embedding
              get_file_vector_service store_chunk_embeddings embedding_service
              file_id Hf Hc Hr fuel strategy chunk_size chunk_overlap s txt meta error
              Hext Hupd (ValueError (lit "empty separator"))
              (ChunkerLaws.chunk_text_single_word fuel txt strategy chunk_size
                 chunk_overlap (Some meta) Hs Hsp Hlen))
    as (s1 & Hb).
  destruct (process_after_raise get_file_by_id db_commit db_refresh extract_text
              update_extracted_text create_chunks update_chunk_embedding
              get_file_vector_service store_chunk_embeddings embedding_service
              file_id Hf Hc Hr fuel strategy chunk_size chunk_overlap s s1 _ Hb)
    as (s' & Hrun & Hst & Hmsg).
  exists s'. auto.
Qed.

Lemma long_word_document_fails_witness :
  exists s',
    process_file_pipeline
      (fun _ => ret (Some demo_file)) (ret tt) (ret tt)
      (demo_extract_text (lit "https://example.org/a/long/path"))
      (fun _ _ => ret tt) demo_create_chunks (fun _ _ _ _ => ret tt)
      (ret tt) (fun _ _ _ => raise index_down) EmbedderSpec.demo_service
      0 (lit "file-1") Chunker.RECURSIVE 10 2 (mkPState tt UPLOADED None) = (Ok tt, s')
    /\ file_status s' = FAILED
    /\ error_message s' = Some (lit "Processing pipeline failed: empty separator").
Proof.
  apply (long_word_document_fails unit unit unit
           (fun _ => ret (Some demo_file)) (ret tt) (ret tt)
           (demo_extract_text (lit "https://example.org/a/long/path"))
           (fun _ _ => ret tt) demo_create_chunks (fun _ _ _ _ => ret tt)
           (ret tt) (fun _ _ _ => raise index_down) EmbedderSpec.demo_service
           0 (lit "file-1") Chunker.RECURSIVE 10 2 (mkPState tt UPLOADED None)
           (lit "https://example.org/a/long/path") [] []).
  - intros w. exists demo_file, w. reflexivity.
  - intros w. exists tt, w. reflexivity.
  - intros w. exists tt, w. reflexivity.
  - intros path type w. exists w. reflexivity.
  - intros text w. exists tt, w. reflexivity.
  - left. reflexivity.
  - vm_compute. intuition discriminate.
  - vm_compute. reflexivity.
Defined.

(** X23: with a database and an extractor that answer, the fixed-size
    strategy with a positive overlap never gets through a document whose
    cleaned text is longer than the chunk size: however long the chunker is
    run, the pipeline is still in it and the file is left [PROCESSING]. *)
Theorem fixed_strategy_hangs_the_pipeline
  (W Any FileType : Type)
  (get_file_by_id : str -> M W (option (FileRecord FileType)))
  (db_commit db_refresh : M W unit)
  (extract_text : str -> FileType -> M W (ExtractionResult Any))
  (update_extracted_text : str -> str -> M W unit)
  (create_chunks :
     str -> list (Chunker.Chunk Any) -> Chunker.ChunkingStrategy -> M W (list FileChunk))
  (update_chunk_embedding : str -> option (list float) -> str -> option str -> M W unit)
  (get_file_vector_service : M W unit)
  (store_chunk_embeddings :
     list FileChunk -> list (option (list float)) -> str -> M W (list str))
  (embedding_service : Embedder.EmbeddingService W)
  (fuel : nat) (file_id : str) (chunk_size chunk_overlap : Z) (s : PState W)
  (txt : str) (meta : Dict Any) (error : str) :
  finds_file get_file_by_id file_id -> answers db_commit -> answers db_refresh ->
  (forall path type,
      answers_with (extract_text path type) (mkExtractionResult txt meta true error)) ->
  (forall text, answers (update_extracted_text file_id text)) ->
  0 < chunk_overlap ->
  0 <= chunk_size < len (Chunker._clean_text txt) ->
  exists s',
    process_file_pipeline get_file_by_id db_commit db_refresh extract_text
      update_extracted_text create_chunks update_chunk_embedding
      get_file_vector_service store_chunk_embeddings embedding_service
      fuel file_id Chunker.FIXED chunk_size chunk_overlap s = (OutOfFuel, s')
    /\ file_status s' = PROCESSING.
Proof.
  intros Hf Hc Hr Hext Hupd Hov Hlen.
  apply (prepare_chunker_runs_on get_file_by_id db_commit db_refresh extract_text
           update_extracted_text create_chunks update_chunk_embedding
           get_file_vector_service store_chunk_embeddings embedding_service
           file_id Hf Hc Hr fuel Chunker.FIXED chunk_size chunk_overlap s txt meta error
           Hext Hupd).
  unfold Chunker.chunk_text, Chunker.chunker_chunk_text.
  now rewrite ChunkerFacts.fixed_chunker_runs_on.
Qed.

Lemma fixed_strategy_hangs_the_pipeline_witness :
  exists s',
    process_file_pipeline
      (fun _ => ret (Some demo_file)) (ret tt) (ret tt)
      (demo_extract_text (lit "one two three four"))
      (fun _ _ => ret tt) demo_create_chunks (fun _ _ _ _ => ret tt)
      (ret tt) (fun _ _ _ => raise index_down) EmbedderSpec.demo_service
      1000 (lit "file-1") Chunker.FIXED 7 2 (mkPState tt UPLOADED None)
    = (OutOfFuel, s')
    /\ file_status s' = PROCESSING.
Proof.
  apply (fixed_strategy_hangs_the_pipeline unit unit unit
           (fun _ => ret (Some demo_file)) (ret tt) (ret tt)
           (demo_extract_text (lit "one two three four"))
           (fun _ _ => ret tt) demo_create_chunks (fun _ _ _ _ => ret tt)
           (ret tt) (fun _ _ _ => raise index_down) EmbedderSpec.demo_service
           1000 (lit "file-1") 7 2 (mkPState tt UPLOADED None)
           (lit "one two three four") [] []).
  - intros w. exists demo_file, w. reflexivity.
  - intros w. exists tt, w. reflexivity.
  - intros w. exists tt, w. reflexivity.
  - intros path type w. exists w. reflexivity.
  - intros text w. exists tt, w. reflexivity.
  - lia.
  - vm_compute. split; [discriminate | reflexivity].
Defined.

End PipelineLaws.

(** ** Text extraction *)

Module ExtractionLaws.
Import TextExtraction Pipeline PipelineSpec.
Local Open Scope st_scope.

Section Laws.
Context {W Any : Type}.
Variable pdf_extract_text : str -> M W (ExtractionDict Any).
Variable csv_extract_text : str -> M W (ExtractionDict Any).
Variable txt_extract_text : str -> M W (ExtractionDict Any).
Variable path_exists : str -> W -> bool.

Local Notation "'service_extract_text'" :=
  (extract_text pdf_extract_text csv_extract_text txt_extract_text path_exists).

Lemma extract_text_missing_file path file_type (w : W) :
  path_exists path w = false ->
  service_extract_text path file_type w
  = (inr (mkExtractionDict [] 0 [] false (Some (lit "File not found: " ++ path))), w).
Proof.
  intros H. unfold extract_text. destruct file_type; cbn; now rewrite H.
Qed.

Lemma extract_text_placeholder path file_type (w : W) :
  file_type = AUDIO \/ file_type = DOCX ->
  exists d,
    service_extract_text path file_type w = (inr d, w)
    /\ success d = false
    /\ text d = []
    /\ error d
       = Some (if path_exists path w
               then match file_type with
                    | AUDIO => lit "Audio transcription not yet implemented"
                    | _ => lit "DOCX extraction not yet implemented"
                    end
               else lit "File not found: " ++ path).
Proof.
  intros [-> | ->]; unfold extract_text; cbn;
    destruct (path_exists path w); cbn; eexists; repeat split.
Qed.

End Laws.

(** X24: audio and DOCX files are listed as supported (every file type is),
    yet their extraction never succeeds: the service answers, without
    raising and without reading the file, with an empty text and the error
    "Audio transcription not yet implemented" or "DOCX extraction not yet
    implemented", or "File not found: ..." when the path does not exist. *)
Theorem placeholder_extractors_never_extract
  (W Any : Type)
  (pdf_extract_text csv_extract_text txt_extract_text : str -> M W (ExtractionDict Any))
  (path_exists : str -> W -> bool) (path : str) (file_type : FileType) (w : W) :
  file_type = AUDIO \/ file_type = DOCX ->
  In file_type (get_supported_file_types pdf_extract_text csv_extract_text
                  txt_extract_text)
  /\ get_supported_file_types pdf_extract_text csv_extract_text txt_extract_text
     = all_file_types
  /\ exists d,
       extract_text pdf_extract_text csv_extract_text txt_extract_text path_exists
         path file_type w = (inr d, w)
       /\ success d = false
       /\ text d = []
       /\ error d
          = Some (if path_exists path w
                  then match file_type with
                       | AUDIO => lit "Audio transcription not yet implemented"
                       | _ => lit "DOCX extraction not yet implemented"
                       end
                  else lit "File not found: " ++ path).
Proof.
  intros Ht. split; [|split].
  - destruct Ht as [-> | ->]; cbn; tauto.
  - reflexivity.
  - now apply extract_text_placeholder.
Qed.

Lemma placeholder_extractors_never_extract_witness :
  exists d : ExtractionDict unit,
    extract_text (fun _ => raise PipelineSpec.index_down)
      (fun _ => raise PipelineSpec.index_down) (fun _ => raise PipelineSpec.index_down)
      (fun _ _ => true) (lit "/data/talk.mp3") AUDIO tt = (inr d, tt)
    /\ success d = false
    /\ text d = (@nil char)
    /\ error d = Some (lit "Audio transcription not yet implemented").
Proof.
  apply (placeholder_extractors_never_extract unit unit
           (fun _ => raise PipelineSpec.index_down)
           (fun _ => raise PipelineSpec.index_down)
           (fun _ => raise PipelineSpec.index_down)
           (fun _ _ => true) (lit "/data/talk.mp3") AUDIO tt).
  left. reflexivity.
Defined.

(** X25: the extraction service finds an extractor for every file type, so
    it never answers "No extractor available"; for a path that does not
    exist it answers "File not found: ..." without reading anything, and for
    one that exists it hands on what the extractor of the type answers or
    raises: the PDF reader for PDF, the CSV reader for CSV, the text reader
    for TXT and MD alike. *)
Theorem extraction_dispatch
  (W Any : Type)
  (pdf_extract_text csv_extract_text txt_extract_text : str -> M W (ExtractionDict Any))
  (path_exists : str -> W -> bool) (path : str) (file_type : FileType) (w : W) :
  get_extractor pdf_extract_text csv_extract_text txt_extract_text file_type <> None
  /\ (path_exists path w = false ->
      extract_text pdf_extract_text csv_extract_text txt_extract_text path_exists
        path file_type w
      = (inr (mkExtractionDict [] 0 [] false (Some (lit "File not found: " ++ path))),
         w))
  /\ (path_exists path w = true ->
      extract_text pdf_extract_text csv_extract_text txt_extract_text path_exists
        path file_type w
      = match file_type with
        | PDF => pdf_extract_text path w
        | CSV => csv_extract_text path w
        | TXT | MD => txt_extract_text path w
        | AUDIO =>
            (inr (_create_error_result Any
                    (lit "Audio transcription not yet implemented")), w)
        | DOCX =>
            (inr (_create_error_result Any
                    (lit "DOCX extraction not yet implemented")), w)
        end).
Proof.
  split; [|split].
  - destruct file_type; discriminate.
  - apply extract_text_missing_file.
  - intros H. unfold extract_text. destruct file_type; cbn; now rewrite H.
Qed.

(** X26: with a database that answers, a file of type audio or DOCX always
    ends [FAILED]: the pipeline returns, and the error message is "Text
    extraction failed: " followed by the placeholder's message, or by "File
    not found: ..." when the stored path does not exist. *)
Theorem audio_and_docx_files_fail
  (W Any : Type)
  (pdf_extract_text csv_extract_text txt_extract_text : str -> M W (ExtractionDict Any))
  (path_exists : str -> W -> bool)
  (get_file_by_id : str -> M W (option (FileRecord FileType)))
  (db_commit db_refresh : M W unit)
  (update_extracted_text : str -> str -> M W unit)
  (create_chunks :
     str -> list (Chunker.Chunk Any) -> Chunker.ChunkingStrategy -> M W (list FileChunk))
  (update_chunk_embedding : str -> option (list float) -> str -> option str -> M W unit)
  (get_file_vector_service : M W unit)
  (store_chunk_embeddings :
     list FileChunk -> list (option (list float)) -> str -> M W (list str))
  (embedding_service : Embedder.EmbeddingService W)
  (fuel : nat) (file_id : str) (strategy : Chunker.ChunkingStrategy)
  (chunk_size chunk_overlap : Z) (s : PState W) :
  (forall w, exists file w',
      get_file_by_id file_id w = (inr (Some file), w')
      /\ (file_type file = AUDIO \/ file_type file = DOCX)) ->
  answers db_commit -> answers db_refresh ->
  exists s' error,
    process_file_pipeline get_file_by_id db_commit db_refresh
      (pipeline_extract_text pdf_extract_text csv_extract_text txt_extract_text
         path_exists)
      update_extracted_text create_chunks update_chunk_embedding
      get_file_vector_service store_chunk_embeddings embedding_service
      fuel file_id strategy chunk_size chunk_overlap s = (Ok tt, s')
    /\ file_status s' = FAILED
    /\ error_message s' = Some (lit "Text extraction failed: " ++ error)
    /\ (error = lit "Audio transcription not yet implemented"
        \/ error = lit "DOCX extraction not yet implemented"
        \/ exists path, error = lit "File not found: " ++ path).
Proof.
  intros Hfile Hc Hr.
  apply (PipelineLaws.process_rejected_extraction get_file_by_id db_commit db_refresh
           (pipeline_extract_text pdf_extract_text csv_extract_text txt_extract_text
              path_exists)
           update_extracted_text create_chunks update_chunk_embedding
           get_file_vector_service store_chunk_embeddings embedding_service
           (fun error => error = lit "Audio transcription not yet implemented"
                         \/ error = lit "DOCX extraction not yet implemented"
                         \/ exists path, error = lit "File not found: " ++ path));
    auto.
  intros w. destruct (Hfile w) as (f & w' & Hg & Ht).
  exists f, w'. split; [exact Hg|]. intros w2.
  destruct (extract_text_placeholder pdf_extract_text csv_extract_text txt_extract_text
              path_exists (file_path f) (file_type f) w2 Ht)
    as (d & Hd & Hs & _ & He).
  exists (as_extraction_result d), w2. unfold pipeline_extract_text, mbind.
  rewrite Hd. split; [reflexivity|]. split; [exact Hs|].
  unfold as_extraction_result. cbn [extraction_error]. rewrite He.
  destruct (path_exists (file_path f) w2).
  - destruct Ht as [-> | ->]; auto.
  - right. right. exists (file_path f). reflexivity.
Qed.

Lemma audio_and_docx_files_fail_witness :
  exists s' error,
    process_file_pipeline
      (fun _ => ret (Some (mkFileRecord (lit "/data/talk.mp3") AUDIO None)))
      (ret tt) (ret tt)
      (pipeline_extract_text (fun _ => raise PipelineSpec.index_down)
         (fun _ => raise PipelineSpec.index_down)
         (fun _ => raise PipelineSpec.index_down) (fun _ _ => true))
      (fun _ _ => ret tt) demo_create_chunks (fun _ _ _ _ => ret tt)
      (ret tt) (fun _ _ _ => raise index_down) EmbedderSpec.demo_service
      0 (lit "file-1") Chunker.RECURSIVE 1000 100 (mkPState tt UPLOADED None)
    = (Ok tt, s')
    /\ file_status s' = FAILED
    /\ error_message s' = Some (lit "Text extraction failed: " ++ error)
    /\ (error = lit "Audio transcription not yet implemented"
        \/ error = lit "DOCX extraction not yet implemented"
        \/ exists path, error = lit "File not found: " ++ path).
Proof.
  apply (audio_and_docx_files_fail unit unit
           (fun _ => raise PipelineSpec.index_down)
           (fun _ => raise PipelineSpec.index_down)
           (fun _ => raise PipelineSpec.index_down) (fun _ _ => true)
           (fun _ => ret (Some (mkFileRecord (lit "/data/talk.mp3") AUDIO None)))
           (ret tt) (ret tt)
           (fun _ _ => ret tt) demo_create_chunks (fun _ _ _ _ => ret tt)
           (ret tt) (fun _ _ _ => raise index_down) EmbedderSpec.demo_service
           0 (lit "file-1") Chunker.RECURSIVE 1000 100 (mkPState tt UPLOADED None)).
  - intros w. eexists _, w. split; [reflexivity|]. left. reflexivity.
  - intros w. exists tt, w. reflexivity.
  - intros w. exists tt, w. reflexivity.
Defined.

End ExtractionLaws.

(** ** Chunk records and the vector ids *)

Module CrudLaws.
Import FileChunkCrud CrudSpec Pipeline PipelineSpec.
Local Open Scope st_scope.

Section Laws.
Context {W : Type}.
Variable select_chunk : str -> M W bool.
Variable set_embedding_model : str -> str -> W -> W.
Variable set_vector_id : str -> str -> W -> W.
Variable has_chunk_metadata : str -> W -> bool.
Variable update_chunk_metadata : str -> str -> Z -> option str -> W -> W.
Variable replace_chunk_metadata : str -> str -> Z -> option str -> W -> W.
Variable db_commit : M W unit.
Variable db_refresh : str -> M W unit.

Local Notation "'update'" :=
  (update_chunk_embedding select_chunk set_embedding_model set_vector_id
     has_chunk_metadata update_chunk_metadata replace_chunk_metadata
     db_commit db_refresh).

Lemma update_without_vector chunk_id embedding_model vector_id (w w1 : W) :
  select_chunk chunk_id w = (inr true, w1) ->
  update chunk_id None embedding_model vector_id w
  = (inl len_of_None,
     assigned set_embedding_model set_vector_id chunk_id embedding_model vector_id w1).
Proof.
  intros Hs. unfold update_chunk_embedding, mbind at 1. rewrite Hs. cbn [negb].
  unfold mbind at 1, assign. unfold mbind at 1. unfold assigned.
  destruct vector_id as [v|]; [destruct (truthy v)|];
    unfold ret, mbind at 1;
    match goal with
    | |- context [has_chunk_metadata ?c ?x] => destruct (has_chunk_metadata c x)
    end; reflexivity.
Qed.

Lemma update_missing_chunk chunk_id vector embedding_model vector_id (w w1 : W) :
  select_chunk chunk_id w = (inr false, w1) ->
  update chunk_id vector embedding_model vector_id w = (inr false, w1).
Proof.
  intros Hs. unfold update_chunk_embedding, mbind. now rewrite Hs.
Qed.

End Laws.

(** X27: [update_chunk_embedding] called without an embedding vector, as the
    pipeline does to record a vector id, raises the [TypeError] of
    [len(None)] whenever the chunk is found: the model and the vector id are
    assigned on the chunk object, but the metadata is not written and
    nothing is committed.  When the chunk is not found the call returns
    without a change. *)
Theorem update_chunk_embedding_needs_a_vector
  (W : Type) (select_chunk : str -> M W bool)
  (set_embedding_model set_vector_id : str -> str -> W -> W)
  (has_chunk_metadata : str -> W -> bool)
  (update_chunk_metadata replace_chunk_metadata :
     str -> str -> Z -> option str -> W -> W)
  (db_commit : M W unit) (db_refresh : str -> M W unit)
  (chunk_id embedding_model : str) (vector_id : option str) (w w1 : W) :
  (select_chunk chunk_id w = (inr true, w1) ->
   update_chunk_embedding select_chunk set_embedding_model set_vector_id
     has_chunk_metadata update_chunk_metadata replace_chunk_metadata
     db_commit db_refresh chunk_id None embedding_model vector_id w
   = (inl (OtherException (lit "object of type 'NoneType' has no len()")),
      assigned set_embedding_model set_vector_id chunk_id embedding_model
        vector_id w1))
  /\ (select_chunk chunk_id w = (inr false, w1) ->
      forall vector,
        update_chunk_embedding select_chunk set_embedding_model set_vector_id
          has_chunk_metadata update_chunk_metadata replace_chunk_metadata
          db_commit db_refresh chunk_id vector embedding_model vector_id w
        = (inr false, w1)).
Proof.
  split.
  - apply update_without_vector.
  - intros Hs vector. now apply update_missing_chunk.
Qed.

Lemma update_chunk_embedding_needs_a_vector_witness :
  update_chunk_embedding (demo_select [lit "chunk-0"]) demo_set_embedding_model
    demo_set_vector_id demo_has_metadata demo_write_metadata demo_write_metadata
    demo_commit demo_refresh
    (lit "chunk-0") None (lit "text-embedding-3-small") (Some (lit "v-0")) []
  = (inl (OtherException (lit "object of type 'NoneType' has no len()")),
     [VectorIdAssigned (lit "chunk-0") (lit "v-0");
      ModelAssigned (lit "chunk-0") (lit "text-embedding-3-small")])
  /\ update_chunk_embedding (demo_select [lit "chunk-0"]) demo_set_embedding_model
       demo_set_vector_id demo_has_metadata demo_write_metadata demo_write_metadata
       demo_commit demo_refresh
       (lit "chunk-9") (Some [1%float]) (lit "text-embedding-3-small")
       (Some (lit "v-0")) []
     = (inr false, []).
Proof.
  split.
  - apply (proj1 (update_chunk_embedding_needs_a_vector (list Event)
             (demo_select [lit "chunk-0"]) demo_set_embedding_model
             demo_set_vector_id demo_has_metadata demo_write_metadata
             demo_write_metadata demo_commit demo_refresh
             (lit "chunk-0") (lit "text-embedding-3-small") (Some (lit "v-0")) [] [])).
    reflexivity.
  - apply (proj2 (update_chunk_embedding_needs_a_vector (list Event)
             (demo_select [lit "chunk-0"]) demo_set_embedding_model
             demo_set_vector_id demo_has_metadata demo_write_metadata
             demo_write_metadata demo_commit demo_refresh
             (lit "chunk-9") (lit "text-embedding-3-small") (Some (lit "v-0")) [] [])).
    reflexivity.
Defined.

(** X28: in step 4 of the pipeline the loop that records the vector ids
    stops at its first chunk.  When the vector store has answered with at
    least one id and the first chunk record is found, the update of that
    chunk raises the [TypeError] of [len(None)]: its model and vector id are
    assigned in the session, its metadata is not written, the loop commits
    nothing and no later chunk is looked up.  The step swallows the error, so
    it returns and leaves the file status as it was. *)
Theorem vector_id_loop_stops_at_first_chunk
  (W Any FileType : Type) (select_chunk : str -> M W bool)
  (set_embedding_model set_vector_id : str -> str -> W -> W)
  (has_chunk_metadata : str -> W -> bool)
  (update_chunk_metadata replace_chunk_metadata :
     str -> str -> Z -> option str -> W -> W)
  (db_commit : M W unit) (db_refresh : str -> M W unit)
  (get_file_vector_service : M W unit)
  (store_chunk_embeddings :
     list FileChunk -> list (option (list float)) -> str -> M W (list str))
  (prepared : Prepared Any FileType) (s : PState W)
  (record : FileChunk) (records : list FileChunk)
  (embedding : option (list float)) (embeddings : list (option (list float)))
  (vector_id : str) (vector_ids : list str) (w1 w2 w3 : W) :
  successful_chunks prepared = record :: records ->
  successful_embeddings prepared = embedding :: embeddings ->
  get_file_vector_service (ext s) = (inr tt, w1) ->
  store_chunk_embeddings (record :: records) (embedding :: embeddings)
    (match collection_id (file_record prepared) with
     | Some c => if truthy c then c else lit "default_collection"
     | None => lit "default_collection"
     end) w1 = (inr (vector_id :: vector_ids), w2) ->
  select_chunk (id record) w2 = (inr true, w3) ->
  update_vector_ids
    (pipeline_update_chunk_embedding select_chunk set_embedding_model set_vector_id
       has_chunk_metadata update_chunk_metadata replace_chunk_metadata
       db_commit db_refresh)
    ((record, vector_id) :: combine records vector_ids)
    (mkPState w2 (file_status s) (error_message s))
  = (Raise (OtherException (lit "object of type 'NoneType' has no len()")),
     mkPState
       (assigned set_embedding_model set_vector_id (id record)
          (record_embedding_model record) (Some vector_id) w3)
       (file_status s) (error_message s))
  /\ vector_storage_step
       (pipeline_update_chunk_embedding select_chunk set_embedding_model
          set_vector_id has_chunk_metadata update_chunk_metadata
          replace_chunk_metadata db_commit db_refresh)
       get_file_vector_service store_chunk_embeddings prepared s
     = (Ok tt,
        mkPState
          (assigned set_embedding_model set_vector_id (id record)
             (record_embedding_model record) (Some vector_id) w3)
          (file_status s) (error_message s)).
Proof.
  intros Hc He Hg Hst Hsel.
  assert (Hloop :
    update_vector_ids
      (pipeline_update_chunk_embedding select_chunk set_embedding_model set_vector_id
         has_chunk_metadata update_chunk_metadata replace_chunk_metadata
         db_commit db_refresh)
      ((record, vector_id) :: combine records vector_ids)
      (mkPState w2 (file_status s) (error_message s))
    = (Raise (OtherException (lit "object of type 'NoneType' has no len()")),
       mkPState
         (assigned set_embedding_model set_vector_id (id record)
            (record_embedding_model record) (Some vector_id) w3)
         (file_status s) (error_message s))).
  { cbn [update_vector_ids]. unfold pbind, on_world. cbn [ext file_status error_message].
    unfold pipeline_update_chunk_embedding, mbind at 1.
    rewrite (update_without_vector select_chunk set_embedding_model set_vector_id
               has_chunk_metadata update_chunk_metadata replace_chunk_metadata
               db_commit db_refresh (id record) (record_embedding_model record)
               (Some vector_id) w2 w3 Hsel).
    reflexivity. }
  split; [exact Hloop|].
  unfold vector_storage_step. rewrite Hc, He. cbn [truthy andb].
  unfold ptry, pbind at 1, on_world at 1. rewrite Hg.
  unfold pbind at 1, on_world at 1. cbn [ext file_status error_message].
  rewrite Hst. cbn [combine]. cbn [file_status error_message].
  rewrite Hloop. reflexivity.
Qed.

Lemma vector_id_loop_stops_at_first_chunk_witness :
  update_vector_ids
    (pipeline_update_chunk_embedding (demo_select [lit "chunk-0"])
       demo_set_embedding_model demo_set_vector_id demo_has_metadata
       demo_write_metadata demo_write_metadata demo_commit demo_refresh)
    [(mkFileChunk (lit "chunk-0") (lit "text-embedding-3-small"), lit "v-0")]
    (mkPState [] PROCESSING None)
  = (Raise (OtherException (lit "object of type 'NoneType' has no len()")),
     mkPState
       [VectorIdAssigned (lit "chunk-0") (lit "v-0");
        ModelAssigned (lit "chunk-0") (lit "text-embedding-3-small")]
       PROCESSING None)
  /\ vector_storage_step
       (pipeline_update_chunk_embedding (demo_select [lit "chunk-0"])
          demo_set_embedding_model demo_set_vector_id demo_has_metadata
          demo_write_metadata demo_write_metadata demo_commit demo_refresh)
       (ret tt) (fun _ _ _ => ret [lit "v-0"]) demo_prepared
       (mkPState [] PROCESSING None)
     = (Ok tt,
        mkPState
          [VectorIdAssigned (lit "chunk-0") (lit "v-0");
           ModelAssigned (lit "chunk-0") (lit "text-embedding-3-small")]
          PROCESSING None).
Proof.
  apply (vector_id_loop_stops_at_first_chunk (list Event) unit unit
           (demo_select [lit "chunk-0"]) demo_set_embedding_model
           demo_set_vector_id demo_has_metadata demo_write_metadata
           demo_write_metadata demo_commit demo_refresh
           (ret tt) (fun _ _ _ => ret [lit "v-0"]) demo_prepared
           (mkPState [] PROCESSING None)
           (mkFileChunk (lit "chunk-0") (lit "text-embedding-3-small")) []
           (Some [1%float; 0%float]) [] (lit "v-0") [] [] [] []);
    reflexivity.
Defined.

End CrudLaws.
